(** * ReNova admin console: step-list editor, work-type catalog and
      privileged endpoints

    A shallow embedding of the TypeScript sources
    ([src/app/steps/page.tsx], [src/lib/adminGuard.ts] and the route
    handlers for member creation, member list, billing status and
    cancel-at-period-end) together with the properties the specification
    states about them. *)

From Stdlib Require Import ZArith Lia Ascii String Sorted Permutation.
From stdpp Require Import base list.

Local Open Scope Z_scope.

(** ** JavaScript values *)

Module Js.

(** A JavaScript string is a sequence of UTF-16 code units. *)
Abbreviation jsstring := (list N).

(** [js "abc"] is the string literal ["abc"] (ASCII literals only). *)
Definition js (s : string) : jsstring :=
  List.map N_of_ascii (list_ascii_of_string s).

(** A JavaScript number.  Finite values are the integer-valued doubles
    (every number this program computes itself is one: array positions,
    lengths, Unix times); the three non-finite doubles are kept apart
    because the code tests [Number.isFinite] and [typeof]. *)
Inductive number :=
| Finite (z : Z)
| NaN
| PInfinity
| NInfinity.

#[global] Instance number_eq_dec : EqDecision number.
Proof. solve_decision. Defined.

Definition Number_isFinite (n : number) : bool :=
  match n with Finite _ => true | _ => false end.

(** [a - b] on doubles. *)
Definition number_sub (a b : number) : number :=
  match a, b with
  | NaN, _ | _, NaN => NaN
  | Finite x, Finite y => Finite (x - y)
  | Finite _, PInfinity => NInfinity
  | Finite _, NInfinity => PInfinity
  | PInfinity, PInfinity => NaN
  | PInfinity, _ => PInfinity
  | NInfinity, NInfinity => NaN
  | NInfinity, _ => NInfinity
  end.

(** [a * b] on doubles. *)
Definition number_mul (a b : number) : number :=
  let inf (neg : bool) := if neg then NInfinity else PInfinity in
  match a, b with
  | NaN, _ | _, NaN => NaN
  | Finite x, Finite y => Finite (x * y)
  | Finite x, PInfinity | PInfinity, Finite x =>
      if x =? 0 then NaN else inf (x <? 0)
  | Finite x, NInfinity | NInfinity, Finite x =>
      if x =? 0 then NaN else inf (0 <? x)
  | PInfinity, PInfinity | NInfinity, NInfinity => PInfinity
  | PInfinity, NInfinity | NInfinity, PInfinity => NInfinity
  end.

(** [a + b] on doubles. *)
Definition number_add (a b : number) : number :=
  match a, b with
  | NaN, _ | _, NaN => NaN
  | Finite x, Finite y => Finite (x + y)
  | PInfinity, NInfinity | NInfinity, PInfinity => NaN
  | PInfinity, _ | _, PInfinity => PInfinity
  | NInfinity, _ | _, NInfinity => NInfinity
  end.

(** [Math.max(a, b)]. *)
Definition number_max (a b : number) : number :=
  match a, b with
  | NaN, _ | _, NaN => NaN
  | PInfinity, _ | _, PInfinity => PInfinity
  | NInfinity, x | x, NInfinity => x
  | Finite x, Finite y => Finite (Z.max x y)
  end.

(** [Math.max(...xs)]. *)
Definition Math_max (xs : list number) : number := foldl number_max NInfinity xs.

(** [v > 0], the test [Array.prototype.sort] makes on what a comparator
    returns ([NaN] counts as [0]). *)
Definition number_pos (v : number) : bool :=
  match v with
  | Finite z => 0 <? z
  | PInfinity => true
  | NaN | NInfinity => false
  end.

(** ECMAScript [LineTerminator]: the code units that [.] of a regular
    expression does not match. *)
Definition is_line_terminator (c : N) : bool :=
  ((c =? 10) || (c =? 13) || (c =? 8232) || (c =? 8233))%N.

(** ECMAScript [WhiteSpace] and [LineTerminator]: what [trim] strips and
    what [\s] matches. *)
Definition is_whitespace (c : N) : bool :=
  ((c =? 9) || (c =? 11) || (c =? 12) || (c =? 32) || (c =? 160)
   || (c =? 5760) || ((8192 <=? c) && (c <=? 8202)) || (c =? 8239)
   || (c =? 8287) || (c =? 12288) || (c =? 65279))%N
  || is_line_terminator c.

Fixpoint trimStart (s : jsstring) : jsstring :=
  match s with
  | [] => []
  | c :: t => if is_whitespace c then trimStart t else s
  end.

Fixpoint trimEnd (s : jsstring) : jsstring :=
  match s with
  | [] => []
  | c :: t =>
      match trimEnd t with
      | [] => if is_whitespace c then [] else [c]
      | t' => c :: t'
      end
  end.

(** [String.prototype.trim]. *)
Definition trim (s : jsstring) : jsstring := trimEnd (trimStart s).

(** A string is truthy exactly when it is not empty. *)
Definition truthy (s : jsstring) : bool :=
  match s with [] => false | _ => true end.

(** [String.prototype.split(",")]: the pieces between the commas. *)
Fixpoint split_on (sep : N) (s : jsstring) : list jsstring :=
  match s with
  | [] => [[]]
  | c :: t =>
      match split_on sep t with
      | [] => [[]]
      | p :: ps => if (c =? sep)%N then [] :: p :: ps else (c :: p) :: ps
      end
  end.

(** ASCII upper-casing, the canonicalisation of the [i] flag on ASCII
    pattern characters. *)
Definition upper (c : N) : N :=
  if ((97 <=? c) && (c <=? 122))%N then (c - 32)%N else c.

(** JSON values as handlers see them after [req.json()] or in a
    provider response, with Firestore's timestamp added. *)
#[warnings="-register-all"]
Inductive value :=
| VUndefined
| VNull
| VBool (b : bool)
| VNumber (n : number)
| VString (s : jsstring)
| VTimestamp (t : Z)
| VArray (items : list value)
| VObject (fields : list (jsstring * value)).

Fixpoint assoc {V} (k : jsstring) (l : list (jsstring * V)) : option V :=
  match l with
  | [] => None
  | (k', v) :: r => if decide (k' = k) then Some v else assoc k r
  end.

End Js.
Export Js.

(** ** A state and exception monad

    [Eff S A] is a computation over a state [S] that returns an [A] or
    throws an [Error] whose message is a string; the state reached so
    far survives a throw, as it does for the awaited calls of an
    [async] function. *)

Module Effect.

Definition Eff (S A : Type) : Type := S -> (jsstring + A) * S.

Definition ret {S A} (a : A) : Eff S A := fun s => (inr a, s).

Definition throw {S A} (msg : jsstring) : Eff S A := fun s => (inl msg, s).

Definition bind {S A B} (m : Eff S A) (k : A -> Eff S B) : Eff S B :=
  fun s =>
    match m s with
    | (inl e, s') => (inl e, s')
    | (inr a, s') => k a s'
    end.

Definition get {S} : Eff S S := fun s => (inr s, s).
Definition put {S} (s : S) : Eff S unit := fun _ => (inr tt, s).
Definition modify {S} (f : S -> S) : Eff S unit := fun s => (inr tt, f s).

(** [try m catch h]. *)
Definition catch {S A} (m : Eff S A) (h : jsstring -> Eff S A) : Eff S A :=
  fun s =>
    match m s with
    | (inl e, s') => h e s'
    | r => r
    end.

(** [try m finally f]. *)
Definition finally {S A} (m : Eff S A) (f : Eff S unit) : Eff S A :=
  fun s =>
    match m s with
    | (r, s') =>
        match f s' with
        | (inl e, s'') => (inl e, s'')
        | (inr _, s'') => (r, s'')
        end
    end.

Fixpoint mapM {S A B} (f : A -> Eff S B) (l : list A) : Eff S (list B) :=
  match l with
  | [] => ret []
  | x :: r => bind (f x) (fun y => bind (mapM f r) (fun ys => ret (y :: ys)))
  end.

End Effect.
Export Effect.

Notation "'let*' x := c 'in' k" := (bind c (fun x => k))
  (at level 10, x name, c at level 100, k at level 200).
Notation "c '>>' k" := (bind c (fun _ => k))
  (at level 100, k at level 200, right associativity).

(** ** The step-list editor ([src/app/steps/page.tsx]) *)

Module Steps.

(** [type Step = { id: string; name: string; order: number }]. *)
Record Step := mkStep {
  s_id : jsstring;
  s_name : jsstring;
  s_order : number;
}.

#[global] Instance Step_eq_dec : EqDecision Step.
Proof. solve_decision. Defined.

(** The source of identifiers behind [uid()]: what [Math.random] and
    [Date.now] will render to at each future call. *)
Definition Supply := nat -> jsstring.

(** [uid()]: [`st_${...}_${...}`], never empty. *)
Definition uid : Eff Supply jsstring :=
  fun g => (inr (js "st_" ++ g 0%nat), fun n => g (S n)).

(** The object literal that [renumberByArrayOrder] and
    [renumberFromOrder] build for each step (a [name] of a [Step] is a
    string, so the [typeof] test keeps it). *)
Definition normalizeStep (s : Step) : Eff Supply Step :=
  let* i := (if truthy (s_id s) then ret (s_id s) else uid) in
  ret {| s_id := i;
         s_name := s_name s;
         s_order := if Number_isFinite (s_order s) then s_order s
                    else Finite 0 |}.

(** [{ ...s, order: i + 1 }]. *)
Definition withPosition (i : nat) (s : Step) : Step :=
  {| s_id := s_id s; s_name := s_name s; s_order := Finite (Z.of_nat i + 1) |}.

Definition renumberByArrayOrder (steps : list Step) : Eff Supply (list Step) :=
  let* normalized := mapM normalizeStep steps in
  ret (imap withPosition normalized).

(** [Array.prototype.sort(cmp)].  The built-in sort is stable, and for a
    comparator that is a consistent ordering the stable sorted
    arrangement of an array is unique; insertion from the right
    computes it.  Two elements are exchanged only when the comparator
    is positive. *)
Fixpoint sort_insert {A} (cmp : A -> A -> number) (x : A) (l : list A) : list A :=
  match l with
  | [] => [x]
  | y :: r => if number_pos (cmp x y) then y :: sort_insert cmp x r else x :: l
  end.

Fixpoint sort {A} (cmp : A -> A -> number) (l : list A) : list A :=
  match l with
  | [] => []
  | x :: r => sort_insert cmp x (sort cmp r)
  end.

(** [(a, b) => a.order - b.order]. *)
Definition byOrder (a b : Step) : number := number_sub (s_order a) (s_order b).

Definition renumberFromOrder (steps : list Step) : Eff Supply (list Step) :=
  let* normalized := mapM normalizeStep steps in
  renumberByArrayOrder (sort byOrder normalized).

(** The object literal of [normalizeStepsForSave]. *)
Definition cleanStep (s : Step) : Eff Supply Step :=
  let* i := (if truthy (s_id s) then ret (s_id s) else uid) in
  ret {| s_id := i;
         s_name := trim (s_name s);
         s_order := if Number_isFinite (s_order s) then s_order s
                    else Finite 0 |}.

Definition nonEmptyName (s : Step) : bool := (0 <? Z.of_nat (length (s_name s))).

Definition normalizeStepsForSave (steps : list Step) : Eff Supply (list Step) :=
  let* mapped := mapM cleanStep steps in
  let cleaned := List.filter nonEmptyName mapped in
  ret (imap withPosition cleaned).

(** An element of the persisted [steps] array as [load] receives it.
    [RawNull] is a [null] element, on which a property access throws.
    Of any other element only three properties are read; each is
    [None] when it is [undefined] or [null] (the case [??] replaces),
    and otherwise carries what [String(...)] (for [id] and [name]) or
    [Number(...)] (for [order]) makes of it.  An element that is not an
    object has all three [None]. *)
Inductive RawStep :=
| RawNull
| RawEntry (id name : option jsstring) (order : option number).

Definition null_property_error : jsstring :=
  js "Cannot read properties of null".

(** The callback of [rawSteps.map] in [load]. *)
Definition parseStep (x : RawStep) : Eff Supply Step :=
  match x with
  | RawNull => throw null_property_error
  | RawEntry i n o =>
      let* i' := (match i with Some s => ret s | None => uid end) in
      ret {| s_id := i';
             s_name := default [] n;
             s_order := default (Finite 0) o |}
  end.

Definition nonBlankName (s : Step) : bool :=
  (0 <? Z.of_nat (length (trim (s_name s)))).

(** What [load] passes to [setSteps] for a template whose [steps] field
    is the array [rawSteps]. *)
Definition loadSteps (rawSteps : list RawStep) : Eff Supply (list Step) :=
  let* mapped := mapM parseStep rawSteps in
  let parsed := List.filter nonBlankName mapped in
  renumberFromOrder parsed.

(** What Firestore returns for a [steps] array that [setDoc] wrote. *)
Definition persisted (steps : list Step) : list RawStep :=
  List.map (fun s => RawEntry (Some (s_id s)) (Some (s_name s)) (Some (s_order s)))
           steps.

(** [onAddStep]'s updater. *)
Definition onAddStep (prev : list Step) : Eff Supply (list Step) :=
  let* i := uid in
  renumberByArrayOrder
    (prev ++ [ {| s_id := i; s_name := [];
                  s_order := Finite (Z.of_nat (length prev) + 1) |} ]).

(** [onDeleteStep]'s updater. *)
Definition onDeleteStep (id : jsstring) (prev : list Step) : Eff Supply (list Step) :=
  renumberByArrayOrder
    (List.filter (fun x => bool_decide (s_id x <> id)) prev).

(** [onChangeName]'s updater. *)
Definition onChangeName (id v : jsstring) (prev : list Step) : list Step :=
  List.map (fun x => if decide (s_id x = id)
                     then {| s_id := s_id x; s_name := v; s_order := s_order x |}
                     else x) prev.

(** [Array.prototype.findIndex]; [None] stands for [-1]. *)
Fixpoint findIndex {A} (p : A -> bool) (l : list A) : option nat :=
  match l with
  | [] => None
  | x :: r => if p x then Some 0%nat else S <$> findIndex p r
  end.

(** [arrayMove] of [@dnd-kit/sortable]: on a copy, take the element at
    [from] out and put it back at [to].  [onDragEnd] calls it with
    indices [findIndex] returned, so [from] is in range. *)
Definition arrayMove {A} (array : list A) (from to : nat) : list A :=
  match array !! from with
  | Some x =>
      let rest := delete from array in
      take to rest ++ x :: drop to rest
  | None => array
  end.

(** The part of a [DragEndEvent] that [onDragEnd] reads. *)
Record DragEndEvent := {
  active : jsstring;
  over : option jsstring;
}.

(** [onDragEnd], as a transformer of the [steps] state. *)
Definition onDragEnd (event : DragEndEvent) (prev : list Step) : Eff Supply (list Step) :=
  match over event with
  | None => ret prev
  | Some overId =>
      if decide (active event = overId) then ret prev
      else
        match findIndex (fun x => bool_decide (s_id x = active event)) prev,
              findIndex (fun x => bool_decide (s_id x = overId)) prev with
        | Some oldIndex, Some newIndex =>
            renumberByArrayOrder (arrayMove prev oldIndex newIndex)
        | _, _ => ret prev
        end
  end.

(** The values the [steps] state takes: it starts empty, [load] sets
    it from a stored array (or empties it), and the four updaters
    change it. *)
Inductive reachable : list Step -> Prop :=
| reach_initial : reachable []
| reach_load raw g l g' :
    loadSteps raw g = (inr l, g') -> reachable l
| reach_add prev g l g' :
    reachable prev -> onAddStep prev g = (inr l, g') -> reachable l
| reach_delete id prev g l g' :
    reachable prev -> onDeleteStep id prev g = (inr l, g') -> reachable l
| reach_rename id v prev :
    reachable prev -> reachable (onChangeName id v prev)
| reach_drag event prev g l g' :
    reachable prev -> onDragEnd event prev g = (inr l, g') -> reachable l.

(** [order] is the 1-based array position of every element. *)
Definition positions (n : nat) : list number :=
  List.map (fun i => Finite (Z.of_nat i + 1)) (seq 0 n).

Definition contiguous (l : list Step) : Prop :=
  List.map s_order l = positions (length l).

End Steps.
Export Steps.

(** ** The work-type catalog ([src/app/steps/page.tsx]) *)

Module Catalog.

(** [type WorkTypeCodeDoc], as held in [codesMap]. *)
Record WorkTypeCodeDoc := {
  c_label : jsstring;
  c_order : number;
  c_enabled : bool;
}.

(** [type TemplateMeta]; the label of the update time is kept as the
    time itself ([None] for the empty label). *)
Record TemplateMeta := {
  t_id : jsstring;
  t_title : jsstring;
  t_updatedAtLabel : option Z;
}.

Inductive Source := codes | templates | both.

#[global] Instance Source_eq_dec : EqDecision Source.
Proof. solve_decision. Defined.

(** [type WorkTypeRow]. *)
Record WorkTypeRow := {
  r_id : jsstring;
  r_label : jsstring;
  r_order : number;
  r_enabled : bool;
  r_source : Source;
}.

(** A JavaScript [Map] with string keys: its entries in insertion
    order.  [Map_set] keeps the keys distinct. *)
Abbreviation JsMap V := (list (jsstring * V)).

Definition Map_get {V} (m : JsMap V) (k : jsstring) : option V := assoc k m.

Definition Map_has {V} (m : JsMap V) (k : jsstring) : bool :=
  match Map_get m k with Some _ => true | None => false end.

Fixpoint Map_set {V} (m : JsMap V) (k : jsstring) (v : V) : JsMap V :=
  match m with
  | [] => [(k, v)]
  | (k', v') :: r =>
      if decide (k' = k) then (k, v) :: r else (k', v') :: Map_set r k v
  end.

(** [Set.prototype.add] on a [Set] of strings kept in insertion order. *)
Definition Set_add (ids : list jsstring) (id : jsstring) : list jsstring :=
  if bool_decide (id ∈ ids) then ids else ids ++ [id].

(** The two [forEach] loops that fill [ids]. *)
Definition unionIds (codesMap : JsMap WorkTypeCodeDoc)
    (templatesMeta : JsMap TemplateMeta) : list jsstring :=
  let ids := foldl (fun ids e => Set_add ids e.1) [] codesMap in
  foldl (fun ids e => Set_add ids e.1) ids templatesMeta.

Definition SENTINEL : Z := 999999.

(** The body of [ids.forEach]. *)
Definition rowOf (codesMap : JsMap WorkTypeCodeDoc)
    (templatesMeta : JsMap TemplateMeta) (id : jsstring) : WorkTypeRow :=
  let c := Map_get codesMap id in
  let t := Map_get templatesMeta id in
  {| r_id := id;
     r_label := match c with
                | Some c => c_label c
                | None => match t with Some t => t_title t | None => id end
                end;
     r_order := match c with Some c => c_order c | None => Finite SENTINEL end;
     r_enabled := match c with Some c => c_enabled c | None => true end;
     r_source := match c, t with
                 | Some _, Some _ => both
                 | Some _, None => codes
                 | None, _ => templates
                 end |}.

(** [Number.isFinite(x.order) ? x.order : 999999]. *)
Definition sortOrder (n : number) : Z :=
  match n with Finite z => z | _ => SENTINEL end.

Fixpoint lexCompare (a b : list N) : comparison :=
  match a, b with
  | [], [] => Eq
  | [], _ :: _ => Lt
  | _ :: _, [] => Gt
  | x :: a', y :: b' =>
      match (x ?= y)%N with
      | Eq => lexCompare a' b'
      | c => c
      end
  end.

Section Collation.

(** The collation key the [Intl] collator of the locale ["ja"] gives a
    string: [localeCompare] orders two strings as their keys are
    ordered. *)
Variable collationKey : jsstring -> list N.

(** [a.localeCompare(b, "ja")]. *)
Definition localeCompare (a b : jsstring) : Z :=
  match lexCompare (collationKey a) (collationKey b) with
  | Lt => -1
  | Eq => 0
  | Gt => 1
  end.

(** The comparator of [rows.sort]. *)
Definition compareRows (a b : WorkTypeRow) : number :=
  let ao := sortOrder (r_order a) in
  let bo := sortOrder (r_order b) in
  if decide (ao <> bo) then Finite (ao - bo)
  else Finite (localeCompare (r_label a) (r_label b)).

(** The [workTypes] memo. *)
Definition workTypes (codesMap : JsMap WorkTypeCodeDoc)
    (templatesMeta : JsMap TemplateMeta) : list WorkTypeRow :=
  let ids := unionIds codesMap templatesMeta in
  let rows := List.map (rowOf codesMap templatesMeta) ids in
  sort compareRows rows.

End Collation.

(** The [maxOrder] memo. *)
Definition maxOrder (workTypes : list WorkTypeRow) : number :=
  let orders := List.filter Number_isFinite (List.map r_order workTypes) in
  match orders with
  | [] => Finite 0
  | _ => Math_max orders
  end.

End Catalog.
Export Catalog.

(** ** The page state and the actions that write to Firestore
       ([src/app/steps/page.tsx]) *)

Module Page.

(** A document of [proclinkWorkTypeCodes], by the fields the page reads
    and writes: [cd_label] and [cd_enabled] are [None] unless the field
    is a string, respectively a boolean; [cd_order] is
    [Number(data.order)]. *)
Record CodeData := {
  cd_label : option jsstring;
  cd_order : number;
  cd_enabled : option bool;
  cd_createdAt : option Z;
  cd_updatedAt : option Z;
}.

(** A document of [publicWorkTemplates]: [td_title] is [None] unless
    the field is a string, [td_steps] unless it is an array,
    [td_updatedAt] unless it is a [Timestamp]. *)
Record TemplateData := {
  td_workTypeId : option jsstring;
  td_title : option jsstring;
  td_steps : option (list RawStep);
  td_updatedAt : option Z;
}.

(** The two collections, the outcome of each coming remote call
    ([Some msg]: it rejects with that message), the server's clock and
    the identifiers [doc(collection(...))] will draw. *)
Record Firestore := {
  codesCol : list (jsstring * CodeData);
  templatesCol : list (jsstring * TemplateData);
  faults : list (option jsstring);
  clock : Z;
  autoIds : nat -> jsstring;
}.

Inductive LoadedAt := NotLoaded | NotCreated | NoTimestamp | LoadedAtTime (t : Z).

Inductive Alert :=
| AlertLogin | AlertLabelEmpty | AlertAddFailed | AlertSaved | AlertSaveFailed.

(** The React state of [WorkSettingsPage]. *)
Record PageState := {
  userUid : option jsstring;
  codesMap : JsMap WorkTypeCodeDoc;
  templatesMeta : JsMap TemplateMeta;
  loadingTemplatesMeta : bool;
  workTypeId : jsstring;
  newWorkLabel : jsstring;
  title : jsstring;
  steps : list Step;
  saving : bool;
  lastLoadedAt : LoadedAt;
}.

Record Client := {
  page : PageState;
  store : Firestore;
  ids : Supply;
  alerts : list Alert;
}.

Definition with_page (f : PageState -> PageState) (w : Client) : Client :=
  {| page := f (page w); store := store w; ids := ids w; alerts := alerts w |}.

Definition with_store (f : Firestore -> Firestore) (w : Client) : Client :=
  {| page := page w; store := f (store w); ids := ids w; alerts := alerts w |}.

Definition alert (a : Alert) : Eff Client unit :=
  modify (fun w => {| page := page w; store := store w; ids := ids w;
                      alerts := alerts w ++ [a] |}).

Definition setTemplatesMeta (m : JsMap TemplateMeta) : Eff Client unit :=
  modify (with_page (fun p =>
    {| userUid := userUid p; codesMap := codesMap p; templatesMeta := m;
       loadingTemplatesMeta := loadingTemplatesMeta p;
       workTypeId := workTypeId p; newWorkLabel := newWorkLabel p;
       title := title p; steps := steps p; saving := saving p;
       lastLoadedAt := lastLoadedAt p |})).

Definition setLoadingTemplatesMeta (b : bool) : Eff Client unit :=
  modify (with_page (fun p =>
    {| userUid := userUid p; codesMap := codesMap p;
       templatesMeta := templatesMeta p; loadingTemplatesMeta := b;
       workTypeId := workTypeId p; newWorkLabel := newWorkLabel p;
       title := title p; steps := steps p; saving := saving p;
       lastLoadedAt := lastLoadedAt p |})).

Definition setWorkTypeId (id : jsstring) : Eff Client unit :=
  modify (with_page (fun p =>
    {| userUid := userUid p; codesMap := codesMap p;
       templatesMeta := templatesMeta p;
       loadingTemplatesMeta := loadingTemplatesMeta p;
       workTypeId := id; newWorkLabel := newWorkLabel p;
       title := title p; steps := steps p; saving := saving p;
       lastLoadedAt := lastLoadedAt p |})).

Definition setNewWorkLabel (l : jsstring) : Eff Client unit :=
  modify (with_page (fun p =>
    {| userUid := userUid p; codesMap := codesMap p;
       templatesMeta := templatesMeta p;
       loadingTemplatesMeta := loadingTemplatesMeta p;
       workTypeId := workTypeId p; newWorkLabel := l;
       title := title p; steps := steps p; saving := saving p;
       lastLoadedAt := lastLoadedAt p |})).

Definition setSaving (b : bool) : Eff Client unit :=
  modify (with_page (fun p =>
    {| userUid := userUid p; codesMap := codesMap p;
       templatesMeta := templatesMeta p;
       loadingTemplatesMeta := loadingTemplatesMeta p;
       workTypeId := workTypeId p; newWorkLabel := newWorkLabel p;
       title := title p; steps := steps p; saving := b;
       lastLoadedAt := lastLoadedAt p |})).

Definition setLastLoadedAt (l : LoadedAt) : Eff Client unit :=
  modify (with_page (fun p =>
    {| userUid := userUid p; codesMap := codesMap p;
       templatesMeta := templatesMeta p;
       loadingTemplatesMeta := loadingTemplatesMeta p;
       workTypeId := workTypeId p; newWorkLabel := newWorkLabel p;
       title := title p; steps := steps p; saving := saving p;
       lastLoadedAt := l |})).

(** Run a computation that draws identifiers on the page's supply. *)
Definition withIds {A} (m : Eff Supply A) : Eff Client A :=
  fun w =>
    match m (ids w) with
    | (r, g) => (r, {| page := page w; store := store w; ids := g;
                       alerts := alerts w |})
    end.

(** Every call that reaches Firestore first takes the next outcome. *)
Definition remote : Eff Client unit :=
  fun w =>
    let s := store w in
    let rest := with_store (fun _ =>
      {| codesCol := codesCol s; templatesCol := templatesCol s;
         faults := tail (faults s); clock := clock s; autoIds := autoIds s |}) w in
    match faults s with
    | Some msg :: _ => (inl msg, rest)
    | _ => (inr tt, rest)
    end.

(** [serverTimestamp()], resolved when the write commits. *)
Definition commit (f : Z -> Firestore -> Firestore) : Eff Client unit :=
  modify (with_store (fun s =>
    let s' := f (clock s) s in
    {| codesCol := codesCol s'; templatesCol := templatesCol s';
       faults := faults s'; clock := clock s + 1; autoIds := autoIds s' |})).

Definition put_code (id : jsstring) (d : CodeData) (s : Firestore) : Firestore :=
  {| codesCol := Map_set (codesCol s) id d; templatesCol := templatesCol s;
     faults := faults s; clock := clock s; autoIds := autoIds s |}.

Definition put_template (id : jsstring) (d : TemplateData) (s : Firestore) : Firestore :=
  {| codesCol := codesCol s; templatesCol := Map_set (templatesCol s) id d;
     faults := faults s; clock := clock s; autoIds := autoIds s |}.

(** [doc(collection(db, COL_CODES))]: a reference with a new identifier,
    made without a remote call. *)
Definition newCodeRef : Eff Client jsstring :=
  fun w =>
    let s := store w in
    (inr (autoIds s 0%nat),
     with_store (fun _ =>
       {| codesCol := codesCol s; templatesCol := templatesCol s;
          faults := faults s; clock := clock s;
          autoIds := fun n => autoIds s (S n) |}) w).

(** [requireLogin]. *)
Definition requireLogin : Eff Client bool :=
  let* w := get in
  match userUid (page w) with
  | Some (_ :: _) => ret true
  | _ => alert AlertLogin >> ret false
  end.

(** [normStr(v, fallback)] on a field that is [None] unless a string. *)
Definition normStr (v : option jsstring) (fallback : jsstring) : jsstring :=
  default fallback v.

(** The [Map] that [loadTemplatesMeta] fills from the documents of a
    snapshot. *)
Definition metaOfDocs (docs : list (jsstring * TemplateData)) : JsMap TemplateMeta :=
  foldl (fun m d =>
           Map_set m d.1
             {| t_id := d.1;
                t_title := normStr (td_title d.2) d.1;
                t_updatedAtLabel := td_updatedAt d.2 |})
        [] docs.

(** [loadTemplatesMeta]. *)
Definition loadTemplatesMeta : Eff Client unit :=
  setLoadingTemplatesMeta true >>
  finally
    (catch
       (remote >>
        let* w := get in
        setTemplatesMeta (metaOfDocs (templatesCol (store w))))
       (fun _ => ret tt))
    (setLoadingTemplatesMeta false).

Section Actions.

Variable collationKey : jsstring -> list N.

(** [addWorkType]. *)
Definition addWorkType : Eff Client unit :=
  let* ok := requireLogin in
  if negb ok then ret tt else
  let* w := get in
  let p := page w in
  let label := trim (newWorkLabel p) in
  if negb (truthy label) then alert AlertLabelEmpty else
  let max := maxOrder (workTypes collationKey (codesMap p) (templatesMeta p)) in
  catch
    (let* id := newCodeRef in
     remote >>
     commit (fun now => put_code id
       {| cd_label := Some label;
          cd_order := number_add max (Finite 1);
          cd_enabled := Some true;
          cd_createdAt := Some now;
          cd_updatedAt := Some now |}) >>
     remote >>
     commit (fun now => put_template id
       {| td_workTypeId := Some id;
          td_title := Some label;
          td_steps := Some [];
          td_updatedAt := Some now |}) >>
     setNewWorkLabel [] >>
     setWorkTypeId id >>
     loadTemplatesMeta)
    (fun _ => alert AlertAddFailed).

(** [title || selectedWork?.label || workTypeId]. *)
Definition titleOrFallback (p : PageState) : jsstring :=
  if truthy (title p) then title p else
  let selectedWork :=
    List.find (fun w => bool_decide (r_id w = workTypeId p))
              (workTypes collationKey (codesMap p) (templatesMeta p)) in
  match selectedWork with
  | Some w => if truthy (r_label w) then r_label w else workTypeId p
  | None => workTypeId p
  end.

(** [setDoc(ref, { label, updatedAt }, { merge: true })] on a code. *)
Definition merge_code_label (id label : jsstring) (now : Z) (s : Firestore) : Firestore :=
  let d :=
    match Map_get (codesCol s) id with
    | Some d => {| cd_label := Some label; cd_order := cd_order d;
                   cd_enabled := cd_enabled d; cd_createdAt := cd_createdAt d;
                   cd_updatedAt := Some now |}
    | None => {| cd_label := Some label; cd_order := NaN;
                 cd_enabled := None; cd_createdAt := None;
                 cd_updatedAt := Some now |}
    end in
  put_code id d s.

(** [onSaveTemplate]. *)
Definition onSaveTemplate : Eff Client unit :=
  let* ok := requireLogin in
  if negb ok then ret tt else
  let* w := get in
  let p := page w in
  let* fixedSteps := withIds (normalizeStepsForSave (steps p)) in
  let fixedTitle := trim (titleOrFallback p) in
  setSaving true >>
  finally
    (catch
       (remote >>
        commit (fun now => put_template (workTypeId p)
          {| td_workTypeId := Some (workTypeId p);
             td_title := Some fixedTitle;
             td_steps := Some (persisted fixedSteps);
             td_updatedAt := Some now |}) >>
        (if Map_has (codesMap p) (workTypeId p)
         then remote >> commit (merge_code_label (workTypeId p) fixedTitle)
         else ret tt) >>
        alert AlertSaved >>
        loadTemplatesMeta >>
        remote >>
        let* w' := get in
        match Map_get (templatesCol (store w')) (workTypeId p) with
        | None => throw null_property_error
        | Some data =>
            setLastLoadedAt
              (match td_updatedAt data with
               | Some t => LoadedAtTime t
               | None => NoTimestamp
               end)
        end)
       (fun _ => alert AlertSaveFailed))
    (setSaving false).

End Actions.

End Page.
Export Page.

(** ** The privileged endpoints ([src/lib/adminGuard.ts] and the four
       route handlers) *)

Module Server.

(** What a handler reads of a [Request]: the [authorization] header and
    what [req.json()] resolves to (or the message it rejects with). *)
Record Request := {
  authorization : option jsstring;
  body : jsstring + value;
}.

(** [NextResponse.json(payload, { status })]. *)
Record Response := {
  status : Z;
  payload : value;
}.

Definition json_error (st : Z) (msg : jsstring) : Response :=
  {| status := st;
     payload := VObject [(js "ok", VBool false); (js "error", VString msg)] |}.

Definition is_ok (r : Response) : bool :=
  match payload r with
  | VObject fields =>
      match assoc (js "ok") fields with Some (VBool true) => true | _ => false end
  | _ => false
  end.

(** The [billing] map of a member document. *)
Record Billing := {
  b_mode : value;
  b_status : value;
  b_stripeCustomerId : value;
  b_stripeSubscriptionId : value;
  b_cancelAtPeriodEnd : value;
  b_currentPeriodEndMs : value;
  b_updatedAt : value;
}.

Record Profile := {
  p_fullName : value;
  p_phone : value;
  p_companyName : value;
  p_companyAddress : value;
}.

(** A document of [reNovaMember] or [renovaUsers] by the fields the
    handlers touch; a field that is absent is [VUndefined], and
    [m_billing], [m_profile] are [None] when the field is not a map. *)
Record MemberDoc := {
  m_uid : value;
  m_email : value;
  m_profile : option Profile;
  m_createdAt : value;
  m_updatedAt : value;
  m_billing : option Billing;
}.

Definition noBilling : Billing :=
  {| b_mode := VUndefined; b_status := VUndefined;
     b_stripeCustomerId := VUndefined; b_stripeSubscriptionId := VUndefined;
     b_cancelAtPeriodEnd := VUndefined; b_currentPeriodEndMs := VUndefined;
     b_updatedAt := VUndefined |}.

Definition noMember : MemberDoc :=
  {| m_uid := VUndefined; m_email := VUndefined; m_profile := None;
     m_createdAt := VUndefined; m_updatedAt := VUndefined; m_billing := None |}.

(** The process environment, the identity provider, the billing
    provider and the database a handler runs against.  [verifyIdToken],
    [createUser] and [subscriptions_update] give what the provider
    answers: [inl msg] when the call rejects with that message.
    [db_faults] gives the outcome of each coming Firestore call. *)
Record World := {
  RENOVA_ADMIN_UIDS : option jsstring;
  STRIPE_SECRET_KEY : option jsstring;
  verifyIdToken : jsstring -> jsstring + jsstring;
  createUser : jsstring -> jsstring -> jsstring -> jsstring + jsstring;
  subscriptions_update : jsstring -> bool -> jsstring + value;
  reNovaMember : list (jsstring * MemberDoc);
  renovaUsers : list (jsstring * MemberDoc);
  db_faults : list (option jsstring);
  now : Z;
  createdUsers : list (jsstring * jsstring);
  stripeCalls : list (jsstring * bool);
}.

Definition with_db (members users : list (jsstring * MemberDoc))
    (faults : list (option jsstring)) (w : World) : World :=
  {| RENOVA_ADMIN_UIDS := RENOVA_ADMIN_UIDS w;
     STRIPE_SECRET_KEY := STRIPE_SECRET_KEY w;
     verifyIdToken := verifyIdToken w; createUser := createUser w;
     subscriptions_update := subscriptions_update w;
     reNovaMember := members; renovaUsers := users; db_faults := faults;
     now := now w; createdUsers := createdUsers w;
     stripeCalls := stripeCalls w |}.

(** Every Firestore call first takes the next outcome. *)
Definition dbcall : Eff World unit :=
  fun w =>
    let rest := with_db (reNovaMember w) (renovaUsers w) (tail (db_faults w)) w in
    match db_faults w with
    | Some msg :: _ => (inl msg, rest)
    | _ => (inr tt, rest)
    end.

Definition liftResult {A} (r : jsstring + A) : Eff World A :=
  match r with inl e => throw e | inr a => ret a end.

(** [docRef.set(data, { merge: true })] on either collection: [f] lays
    the written fields over the document, or over an empty one. *)
Definition merged (f : MemberDoc -> MemberDoc) (id : jsstring)
    (col : list (jsstring * MemberDoc)) : list (jsstring * MemberDoc) :=
  Map_set col id (f (default noMember (Map_get col id))).

Definition set_member (id : jsstring) (f : Z -> MemberDoc -> MemberDoc) : Eff World unit :=
  dbcall >>
  modify (fun w => with_db (merged (f (now w)) id (reNovaMember w))
                           (renovaUsers w) (db_faults w) w).

Definition set_user (id : jsstring) (f : Z -> MemberDoc -> MemberDoc) : Eff World unit :=
  dbcall >>
  modify (fun w => with_db (reNovaMember w)
                           (merged (f (now w)) id (renovaUsers w))
                           (db_faults w) w).

(** *** Reading untyped values *)

Definition toStr (v : value) : jsstring :=
  match v with VString s => s | _ => [] end.

Definition toBoolOrNull (v : value) : option bool :=
  match v with VBool b => Some b | _ => None end.

Definition toNumOrNull (v : value) : option number :=
  match v with VNumber n => Some n | _ => None end.

(** [v === s] for a string [s]. *)
Definition is_string (v : value) (s : jsstring) : bool :=
  match v with VString s' => bool_decide (s' = s) | _ => false end.

(** [typeof v === "object" && v !== null]. *)
Definition isObj (v : value) : bool :=
  match v with VObject _ | VArray _ | VTimestamp _ => true | _ => false end.

(** [v[k]] for a [v] that is neither [null] nor [undefined], and a key
    that no prototype defines. *)
Definition prop (v : value) (k : jsstring) : value :=
  match v with
  | VObject fields => default VUndefined (assoc k fields)
  | _ => VUndefined
  end.

(** [v.k] as the handlers write it on the parsed body: a [TypeError]
    when the body is [null]. *)
Definition member (v : value) (k : jsstring) : Eff World value :=
  match v with
  | VNull | VUndefined => throw null_property_error
  | _ => ret (prop v k)
  end.

Definition ofBool (o : option bool) : value :=
  match o with Some b => VBool b | None => VNull end.

Definition ofNum (o : option number) : value :=
  match o with Some n => VNumber n | None => VNull end.

(** *** The bearer credential *)

Fixpoint spanWhitespace (s : jsstring) : jsstring * jsstring :=
  match s with
  | c :: t =>
      if is_whitespace c
      then let '(ws, rest) := spanWhitespace t in (c :: ws, rest)
      else ([], s)
  | [] => ([], [])
  end.

(** The first capture group of [/^Bearer\s+(.+)$/i] on [h], or [None]
    when [h] does not match.  [\s+] first takes the whole run of white
    space after the keyword; [(.+)$] is then the rest of the header,
    when it is not empty and holds no line terminator.  When nothing
    follows the run, [\s+] gives its last code unit back to the group,
    which it can only do when the run has two code units or more. *)
Definition matchBearer (h : jsstring) : option jsstring :=
  if decide (List.map upper (take 6 h) = js "BEARER") then
    let '(ws, rest) := spanWhitespace (drop 6 h) in
    match ws, rest with
    | [], _ => None
    | _, _ :: _ =>
        if forallb (fun c => negb (is_line_terminator c)) rest
        then Some rest else None
    | [_], [] => None
    | _ :: _ :: _, [] =>
        match last ws with
        | Some c => if is_line_terminator c then None else Some [c]
        | None => None
        end
    end
  else None.

(** [parseAdminUids]. *)
Definition parseAdminUids (w : World) : list jsstring :=
  List.filter (fun s => (0 <? Z.of_nat (length s)))
    (List.map trim (split_on 44%N (default [] (RENOVA_ADMIN_UIDS w)))).

(** [requireAdminFromRequest]. *)
Definition requireAdminFromRequest (req : Request) : Eff World jsstring :=
  let authHeader := default [] (authorization req) in
  match matchBearer authHeader with
  | None => throw (js "missing_authorization")
  | Some token =>
      let* w := get in
      let* uid := liftResult (verifyIdToken w token) in
      let admins := parseAdminUids w in
      if bool_decide (uid ∈ admins) then ret uid
      else throw (js "not_admin")
  end.

(** The [catch] clause of the member-creation and billing-status
    handlers. *)
Definition guardedCatch (msg : jsstring) : Eff World Response :=
  let st := if decide (msg = js "missing_authorization") then 401
            else if decide (msg = js "not_admin") then 403 else 500 in
  ret (json_error st msg).

(** *** Billing status set *)

Definition toMode (v : value) : jsstring :=
  if is_string v (js "free") then js "free" else js "paid".

Definition toStatus (v : value) : jsstring :=
  if is_string v (js "active") then js "active" else js "inactive".

(** [v ?? d]. *)
Definition orElse (v d : value) : value :=
  match v with VUndefined | VNull => d | _ => v end.

Definition ok_response (fields : list (jsstring * value)) : Response :=
  {| status := 200; payload := VObject ((js "ok", VBool true) :: fields) |}.

(** The handler of the billing status endpoint. *)
Definition POST_billing_status (req : Request) : Eff World Response :=
  catch
    (requireAdminFromRequest req >>
     let* body := liftResult (body req) in
     let* v_uid := member body (js "uid") in
     let uid := trim (toStr v_uid) in
     if negb (truthy uid) then ret (json_error 400 (js "uid_required")) else
     let* v_mode := member body (js "mode") in
     let mode := toMode v_mode in
     let* v_status := member body (js "status") in
     let status := toStatus v_status in
     let* v_cus := member body (js "stripeCustomerId") in
     let stripeCustomerId := toStr (orElse v_cus (VString [])) in
     let* v_sub := member body (js "stripeSubscriptionId") in
     let stripeSubscriptionId := toStr (orElse v_sub (VString [])) in
     set_user uid (fun now d =>
       let b := default noBilling (m_billing d) in
       {| m_uid := m_uid d; m_email := m_email d; m_profile := m_profile d;
          m_createdAt := m_createdAt d;
          m_updatedAt := VTimestamp now;
          m_billing := Some
            {| b_mode := VString mode;
               b_status := VString status;
               b_stripeCustomerId := VString stripeCustomerId;
               b_stripeSubscriptionId := VString stripeSubscriptionId;
               b_cancelAtPeriodEnd := b_cancelAtPeriodEnd b;
               b_currentPeriodEndMs := b_currentPeriodEndMs b;
               b_updatedAt := VTimestamp now |} |}) >>
     ret (ok_response []))
    guardedCatch.

(** *** Member creation *)

(** [s.replace(/[^\d+]/g, "").trim()]. *)
Definition normalizePhone (s : jsstring) : jsstring :=
  trim (List.filter (fun c => ((48 <=? c) && (c <=? 57) || (c =? 43))%N) s).

(** The handler of the member-creation endpoint. *)
Definition POST_create_user (req : Request) : Eff World Response :=
  catch
    (requireAdminFromRequest req >>
     let* body := liftResult (body req) in
     let* v_email := member body (js "email") in
     let email := trim (toStr v_email) in
     let* v_password := member body (js "password") in
     let password := toStr v_password in
     let* v_fullName := member body (js "fullName") in
     let fullName := trim (toStr v_fullName) in
     let* v_phone := member body (js "phone") in
     let phone := normalizePhone (toStr v_phone) in
     let* v_companyName := member body (js "companyName") in
     let companyName := trim (toStr v_companyName) in
     let* v_companyAddress := member body (js "companyAddress") in
     let companyAddress := trim (toStr v_companyAddress) in
     let* v_billingMode := member body (js "billingMode") in
     let billingMode := toMode v_billingMode in
     if negb (truthy email) then ret (json_error 400 (js "email_required")) else
     if negb (truthy password) || (Z.of_nat (length password) <? 6)
     then ret (json_error 400 (js "password_min_6")) else
     if negb (truthy fullName) then ret (json_error 400 (js "fullName_required")) else
     if negb (truthy companyName)
     then ret (json_error 400 (js "companyName_required")) else
     let* w := get in
     let* uid := liftResult (createUser w email password fullName) in
     modify (fun w =>
       {| RENOVA_ADMIN_UIDS := RENOVA_ADMIN_UIDS w;
          STRIPE_SECRET_KEY := STRIPE_SECRET_KEY w;
          verifyIdToken := verifyIdToken w; createUser := createUser w;
          subscriptions_update := subscriptions_update w;
          reNovaMember := reNovaMember w; renovaUsers := renovaUsers w;
          db_faults := db_faults w; now := now w;
          createdUsers := createdUsers w ++ [(uid, email)];
          stripeCalls := stripeCalls w |}) >>
     set_member uid (fun now d =>
       let b := default noBilling (m_billing d) in
       {| m_uid := VString uid;
          m_email := VString email;
          m_profile := Some
            {| p_fullName := VString fullName; p_phone := VString phone;
               p_companyName := VString companyName;
               p_companyAddress := VString companyAddress |};
          m_createdAt := VTimestamp now;
          m_updatedAt := VTimestamp now;
          m_billing := Some
            {| b_mode := VString billingMode;
               b_status := VString (if decide (billingMode = js "free")
                                    then js "active" else js "inactive");
               b_stripeCustomerId := VString [];
               b_stripeSubscriptionId := VString [];
               b_cancelAtPeriodEnd := b_cancelAtPeriodEnd b;
               b_currentPeriodEndMs := b_currentPeriodEndMs b;
               b_updatedAt := VTimestamp now |} |}) >>
     ret (ok_response [(js "uid", VString uid)]))
    guardedCatch.

(** *** Member list *)

Definition memberRow (d : jsstring * MemberDoc) : value :=
  let data := d.2 in
  let billing := default noBilling (m_billing data) in
  let uid := if truthy (toStr (m_uid data)) then toStr (m_uid data) else d.1 in
  VObject
    [ (js "uid", VString uid);
      (js "email", VString (toStr (m_email data)));
      (js "status", VString (toStatus (b_status billing)));
      (js "stripeSubscriptionId", VString (toStr (b_stripeSubscriptionId billing)));
      (js "cancelAtPeriodEnd", ofBool (toBoolOrNull (b_cancelAtPeriodEnd billing)));
      (js "currentPeriodEndMs", ofNum (toNumOrNull (b_currentPeriodEndMs billing))) ].

(** The handler of the member-list endpoint; it does not look at the
    request. *)
Definition POST_members_list (_req : Request) : Eff World Response :=
  catch
    (dbcall >>
     let* w := get in
     ret (ok_response [(js "members", VArray (List.map memberRow (reNovaMember w)))]))
    (fun msg => ret (json_error 500 msg)).

(** *** Cancel at period end *)

(** [findMemberRefByUid]: the document whose identifier is [uid], or
    else the first one whose [uid] field is. *)
Definition findMemberRefByUid (uid : jsstring) : Eff World (option jsstring) :=
  dbcall >>
  let* w := get in
  if Map_has (reNovaMember w) uid then ret (Some uid) else
  dbcall >>
  let* w := get in
  ret (fst <$> List.find (fun d => is_string (m_uid d.2) uid)
                         (reNovaMember w)).

(** [mustEnv("STRIPE_SECRET_KEY")]. *)
Definition getStripe : Eff World unit :=
  let* w := get in
  match STRIPE_SECRET_KEY w with
  | Some v => if truthy (trim v) then ret tt
              else throw (js "STRIPE_SECRET_KEY is missing")
  | None => throw (js "STRIPE_SECRET_KEY is missing")
  end.

(** [stripe.subscriptions.update(id, { cancel_at_period_end })]. *)
Definition stripe_update (id : jsstring) (flag : bool) : Eff World value :=
  modify (fun w =>
    {| RENOVA_ADMIN_UIDS := RENOVA_ADMIN_UIDS w;
       STRIPE_SECRET_KEY := STRIPE_SECRET_KEY w;
       verifyIdToken := verifyIdToken w; createUser := createUser w;
       subscriptions_update := subscriptions_update w;
       reNovaMember := reNovaMember w; renovaUsers := renovaUsers w;
       db_faults := db_faults w; now := now w;
       createdUsers := createdUsers w;
       stripeCalls := stripeCalls w ++ [(id, flag)] |}) >>
  let* w := get in
  liftResult (subscriptions_update w id flag).

(** What the handler writes under [billing] of the member. *)
Definition mirror (cancel : option bool) (currentPeriodEndMs : option number)
    (now : Z) (d : MemberDoc) : MemberDoc :=
  let b := default noBilling (m_billing d) in
  {| m_uid := m_uid d; m_email := m_email d; m_profile := m_profile d;
     m_createdAt := m_createdAt d; m_updatedAt := m_updatedAt d;
     m_billing := Some
       {| b_mode := b_mode b; b_status := b_status b;
          b_stripeCustomerId := b_stripeCustomerId b;
          b_stripeSubscriptionId := b_stripeSubscriptionId b;
          b_cancelAtPeriodEnd := ofBool cancel;
          b_currentPeriodEndMs := ofNum currentPeriodEndMs;
          b_updatedAt := VTimestamp now |} |}.

(** The handler of the cancel-at-period-end endpoint. *)
Definition POST_cancel_at_period_end (req : Request) : Eff World Response :=
  catch
    (match matchBearer (default [] (authorization req)) with
     | None => ret (json_error 401 (js "UNAUTHORIZED"))
     | Some token =>
     let* w := get in
     let* decoded_uid := liftResult (verifyIdToken w token) in
     if negb (truthy decoded_uid) then ret (json_error 401 (js "UNAUTHORIZED")) else
     let* body := liftResult (body req) in
     let* v_uid := member body (js "uid") in
     let uid := toStr v_uid in
     let* v_cancel := member body (js "cancelAtPeriodEnd") in
     let cancelAtPeriodEnd := toBoolOrNull v_cancel in
     match cancelAtPeriodEnd with
     | None => ret (json_error 400 (js "BAD_REQUEST"))
     | Some flag =>
     if negb (truthy uid) then ret (json_error 400 (js "BAD_REQUEST")) else
     let* memberRef := findMemberRefByUid uid in
     match memberRef with
     | None => ret (json_error 404 (js "NOT_FOUND"))
     | Some ref =>
     dbcall >>
     let* w := get in
     let billing := Map_get (reNovaMember w) ref ≫= m_billing in
     let stripeSubscriptionId :=
       match billing with
       | Some b => toStr (b_stripeSubscriptionId b)
       | None => []
       end in
     if negb (truthy stripeSubscriptionId)
     then ret (json_error 400 (js "stripeSubscriptionId_missing")) else
     getStripe >>
     let* u := stripe_update stripeSubscriptionId flag in
     let cancel :=
       if isObj u then toBoolOrNull (prop u (js "cancel_at_period_end")) else None in
     let cpeSec :=
       if isObj u then toNumOrNull (prop u (js "current_period_end")) else None in
     let currentPeriodEndMs :=
       match cpeSec with
       | Some n => Some (number_mul n (Finite 1000))
       | None => None
       end in
     set_member ref (mirror cancel currentPeriodEndMs) >>
     ret (ok_response
            [ (js "uid", VString uid);
              (js "stripeSubscriptionId", VString stripeSubscriptionId);
              (js "cancelAtPeriodEnd", ofBool cancel);
              (js "currentPeriodEndMs", ofNum currentPeriodEndMs) ])
     end end end)
    (fun msg => ret (json_error 500 msg)).

End Server.
Export Server.

(** * Further actions of the work-type page

    The actions of [WorkSettingsPage] beside adding a work type and
    saving a template.  They show messages of their own, kept in
    [notices]; an action shows one message at most. *)
Module Manage.

Inductive Notice :=
| NoticeNothingToImport
| NoticeImported (count : nat)
| NoticeImportFailed
| NoticeLabelBlank
| NoticeUpdateFailed
| NoticeDeleteFailed.

Record Desk := {
  client : Client;
  notices : list Notice;
}.

(** Run a computation of the page proper. *)
Definition onClient {A} (m : Eff Client A) : Eff Desk A :=
  fun d =>
    match m (client d) with
    | (r, c) => (r, {| client := c; notices := notices d |})
    end.

Definition notify (n : Notice) : Eff Desk unit :=
  modify (fun d => {| client := client d; notices := notices d ++ [n] |}).

(** [normNum(v, fallback)] on [Number(v)]. *)
Definition normNum (v : number) (fallback : number) : number :=
  if Number_isFinite v then v else fallback.

(** [normBool(v, fallback)] on a field that is [None] unless a boolean. *)
Definition normBool (v : option bool) (fallback : bool) : bool :=
  default fallback v.

(** The [Map] that the [onSnapshot] callback fills from the documents
    of a snapshot of the codes. *)
Definition codesOfSnapshot (docs : list (jsstring * CodeData)) : JsMap WorkTypeCodeDoc :=
  foldl (fun m d =>
           Map_set m d.1
             {| c_label := normStr (cd_label d.2) d.1;
                c_order := normNum (cd_order d.2) (Finite 0);
                c_enabled := normBool (cd_enabled d.2) true |})
        [] docs.

(** [Map.prototype.delete], and [deleteDoc] on a collection. *)
Definition Map_delete {V} (m : JsMap V) (k : jsstring) : JsMap V :=
  List.filter (fun e => negb (bool_decide (e.1 = k))) m.

Definition delete_code (id : jsstring) (s : Firestore) : Firestore :=
  {| codesCol := Map_delete (codesCol s) id; templatesCol := templatesCol s;
     faults := faults s; clock := clock s; autoIds := autoIds s |}.

Definition delete_template (id : jsstring) (s : Firestore) : Firestore :=
  {| codesCol := codesCol s; templatesCol := Map_delete (templatesCol s) id;
     faults := faults s; clock := clock s; autoIds := autoIds s |}.

(** [setDoc(ref, { enabled, updatedAt }, { merge: true })] on a code. *)
Definition merge_code_enabled (id : jsstring) (enabled : bool) (now : Z)
    (s : Firestore) : Firestore :=
  let d :=
    match Map_get (codesCol s) id with
    | Some d => {| cd_label := cd_label d; cd_order := cd_order d;
                   cd_enabled := Some enabled; cd_createdAt := cd_createdAt d;
                   cd_updatedAt := Some now |}
    | None => {| cd_label := None; cd_order := NaN;
                 cd_enabled := Some enabled; cd_createdAt := None;
                 cd_updatedAt := Some now |}
    end in
  put_code id d s.

(** [setDoc(ref, { title, updatedAt, workTypeId }, { merge: true })] on
    a template. *)
Definition merge_template_title (id title : jsstring) (now : Z)
    (s : Firestore) : Firestore :=
  let d :=
    match Map_get (templatesCol s) id with
    | Some d => {| td_workTypeId := Some id; td_title := Some title;
                   td_steps := td_steps d; td_updatedAt := Some now |}
    | None => {| td_workTypeId := Some id; td_title := Some title;
                 td_steps := None; td_updatedAt := Some now |}
    end in
  put_template id d s.

(** A [batch.set] of [importFromTemplates]; [enabled] and the two
    timestamps are the same in each. *)
Record BatchSet := {
  bs_id : jsstring;
  bs_label : jsstring;
  bs_order : number;
}.

(** The [for] loop of [importFromTemplates] over the documents of the
    snapshot; [nextOrder] is the order the next write takes. *)
Fixpoint queueImports (codesMap : JsMap WorkTypeCodeDoc)
    (docs : list (jsstring * TemplateData)) (nextOrder : number) : list BatchSet :=
  match docs with
  | [] => []
  | d :: rest =>
      let id := d.1 in
      if Map_has codesMap id then queueImports codesMap rest nextOrder
      else
        let title := normStr (td_title d.2) id in
        {| bs_id := id;
           bs_label := if truthy title then title else id;
           bs_order := nextOrder |}
        :: queueImports codesMap rest (number_add nextOrder (Finite 1))
  end.

(** [batch.commit()]: the queued writes, applied together.  Each sets
    all the fields of a code that the page reads or writes, so that
    merging lays them over whatever is there. *)
Definition batch_commit (writes : list BatchSet) (now : Z) (s : Firestore) : Firestore :=
  foldl (fun s b =>
           put_code (bs_id b)
             {| cd_label := Some (bs_label b);
                cd_order := bs_order b;
                cd_enabled := Some true;
                cd_createdAt := Some now;
                cd_updatedAt := Some now |} s)
        s writes.

Section Actions.

Variable collationKey : jsstring -> list N.

(** [importFromTemplates]. *)
Definition importFromTemplates : Eff Desk unit :=
  let* ok := onClient requireLogin in
  if negb ok then ret tt else
  let* d := get in
  let p := page (client d) in
  let max := maxOrder (workTypes collationKey (codesMap p) (templatesMeta p)) in
  catch
    (onClient remote >>
     let* d1 := get in
     let snap := templatesCol (store (client d1)) in
     let writes := queueImports (codesMap p) snap (number_add max (Finite 1)) in
     let count := length writes in
     if decide (count = 0%nat) then notify NoticeNothingToImport else
     onClient remote >>
     onClient (commit (batch_commit writes)) >>
     notify (NoticeImported count))
    (fun _ => notify NoticeImportFailed).

(** The effect that moves the selection to the first row when the
    catalog has no row for it. *)
Definition selectExisting : Eff Client unit :=
  let* w := get in
  let p := page w in
  let rows := workTypes collationKey (codesMap p) (templatesMeta p) in
  match rows with
  | [] => ret tt
  | first :: _ =>
      let exists_ := existsb (fun r => bool_decide (r_id r = workTypeId p)) rows in
      if negb exists_ then setWorkTypeId (r_id first) else ret tt
  end.

End Actions.

(** [renameWorkType]. *)
Definition renameWorkType (id label : jsstring) : Eff Desk unit :=
  let* ok := onClient requireLogin in
  if negb ok then ret tt else
  let fixed := trim label in
  if negb (truthy fixed) then notify NoticeLabelBlank else
  catch
    (onClient remote >>
     onClient (commit (merge_code_label id fixed)) >>
     onClient remote >>
     onClient (commit (merge_template_title id fixed)) >>
     onClient loadTemplatesMeta)
    (fun _ => onClient (alert AlertSaveFailed)).

(** [setEnabled]. *)
Definition setEnabled (id : jsstring) (enabled : bool) : Eff Desk unit :=
  let* ok := onClient requireLogin in
  if negb ok then ret tt else
  catch
    (onClient remote >>
     onClient (commit (merge_code_enabled id enabled)))
    (fun _ => notify NoticeUpdateFailed).

(** [hardDelete]; [answer] is what the user answers to [confirm] when
    asked. *)
Definition hardDelete (id : jsstring) (answer : bool) : Eff Desk unit :=
  let* ok := onClient requireLogin in
  if negb ok then ret tt else
  if negb answer then ret tt else
  catch
    (catch (onClient remote >> onClient (modify (with_store (delete_code id))))
           (fun _ => ret tt) >>
     catch (onClient remote >> onClient (modify (with_store (delete_template id))))
           (fun _ => ret tt) >>
     onClient loadTemplatesMeta)
    (fun _ => notify NoticeDeleteFailed).

End Manage.
Export Manage.

(** * Vocabulary of the properties *)

(** ** Computations *)

(** [wp m Q s]: what [m] returns or throws from state [s], and the state
    it leaves, satisfy [Q]. *)
Definition wp {S A} (m : Eff S A) (Q : jsstring + A -> S -> Prop) (s : S) : Prop :=
  Q (m s).1 (m s).2.

(** The order in which [sort] leaves two elements, read off the
    comparator. *)
Definition kept_order {X} (cmp : X -> X -> number) (x y : X) : Prop :=
  number_pos (cmp x y) = false \/ number_pos (cmp y x) = true.

(** ** The step list *)

(** How [normalizeStep] and [cleanStep] treat an identifier: a truthy
    one is kept, any other is replaced by a new, truthy one. *)
Definition id_coerced (s s' : Step) : Prop :=
  truthy (s_id s') = true /\ (truthy (s_id s) = true -> s_id s' = s_id s).

(** [Number.isFinite(n) ? n : 0]. *)
Definition finite_or_zero (n : number) : number :=
  if Number_isFinite n then n else Finite 0.

(** The drag ends on another step of the list than the one dragged. *)
Definition drag_moves (event : DragEndEvent) (prev : list Step) : bool :=
  match over event with
  | None => false
  | Some overId =>
      if decide (active event = overId) then false
      else
        match findIndex (fun x => bool_decide (s_id x = active event)) prev,
              findIndex (fun x => bool_decide (s_id x = overId)) prev with
        | Some _, Some _ => true
        | _, _ => false
        end
  end.

(** Two steps that differ at most in their stored order. *)
Definition same_but_order (s t : Step) : Prop :=
  s_id s = s_id t /\ s_name s = s_name t.

(** What [load] makes of the three properties of a stored entry. *)
Definition stored_name (x : RawStep) : jsstring :=
  match x with RawEntry _ (Some n) _ => n | _ => [] end.

(** The stored order as the sort sees it: 0 unless it is a finite
    number. *)
Definition stored_order (x : RawStep) : Z :=
  match x with RawEntry _ _ (Some (Finite z)) => z | _ => 0 end.

(** The stored identifier, when there is one that survives [||]. *)
Definition stored_id (x : RawStep) : option jsstring :=
  match x with
  | RawEntry (Some i) _ _ => if truthy i then Some i else None
  | _ => None
  end.

(** The step [s] is the stored entry [x] after coercion: a missing
    name is empty, a missing or non-finite order is 0, a missing (or
    empty) identifier is a new one. *)
Definition loaded_from (x : RawStep) (s : Step) : Prop :=
  s_name s = stored_name x /\
  s_order s = Finite (stored_order x) /\
  truthy (s_id s) = true /\
  (forall i, stored_id x = Some i -> s_id s = i).

(** The key [byOrder] sorts a normalized step by. *)
Definition orderKey (s : Step) : Z :=
  match s_order s with Finite z => z | _ => 0 end.

(** The steps of stored order [k]. *)
Definition sameOrder (k : Z) (s : Step) : bool :=
  bool_decide (s_order s = Finite k).

(** The shape of a saved list: numbered by position, every identifier
    truthy, every name non-blank. *)
Definition canonical (l : list Step) : Prop :=
  contiguous l /\
  Forall (fun s => truthy (s_id s) = true /\ nonBlankName s = true) l.

(** ** The catalog *)

(** Row [a] may stand before row [b]: a smaller order, or the same
    order and a label that does not collate after. *)
Definition rowLe (collationKey : jsstring -> list N) (a b : WorkTypeRow) : Prop :=
  sortOrder (r_order a) < sortOrder (r_order b) \/
  (sortOrder (r_order a) = sortOrder (r_order b) /\
   localeCompare collationKey (r_label a) (r_label b) <= 0).

(** C7 as the specification states it: a row that is only in the
    template map stands after every row of the code map. *)
Definition template_only_rows_last (collationKey : jsstring -> list N) : Prop :=
  forall codesMap templatesMeta i j trow crow,
    workTypes collationKey codesMap templatesMeta !! i = Some trow ->
    workTypes collationKey codesMap templatesMeta !! j = Some crow ->
    Map_has codesMap (r_id trow) = false ->
    Map_has codesMap (r_id crow) = true ->
    (j < i)%nat.

(** The finite orders among the rows, in row order. *)
Definition finiteOrders (rows : list WorkTypeRow) : list Z :=
  flat_map (fun r => match r_order r with Finite z => [z] | _ => [] end) rows.

(** ** The page *)

(** The user is signed in. *)
Definition loggedIn (w : Client) : Prop :=
  exists c u, userUid (page w) = Some (c :: u).

(** The next [n] remote calls go through. *)
Definition callsSucceed (n : nat) (w : Client) : Prop :=
  Forall (fun f => f = None) (take n (faults (store w))).

(** The part of the page state that the step-list editor edits. *)
Definition editorState (w : Client) : list Step * jsstring :=
  (steps (page w), title (page w)).

(** [m] never changes the step list or the title, however it ends. *)
Definition keeps {A} (m : Eff Client A) : Prop :=
  forall w, editorState (m w).2 = editorState w.

(** [m] never throws. *)
Definition returns {A} (m : Eff Client A) : Prop :=
  forall w, exists a, (m w).1 = inr a.

(** [saving] set to [false], the rest of the page as it is. *)
Definition notSaving (p : PageState) : PageState :=
  {| userUid := userUid p; codesMap := codesMap p;
     templatesMeta := templatesMeta p;
     loadingTemplatesMeta := loadingTemplatesMeta p;
     workTypeId := workTypeId p; newWorkLabel := newWorkLabel p;
     title := title p; steps := steps p; saving := false;
     lastLoadedAt := lastLoadedAt p |}.

(** ** The endpoints *)

(** The identity gate lets the request through. *)
Definition authorized (w : World) (req : Request) : Prop :=
  exists uid, requireAdminFromRequest req w = (inr uid, w).

(** The parsed body is neither [null] nor [undefined]. *)
Definition nonNull (v : value) : Prop :=
  match v with VNull | VUndefined => False | _ => True end.

(** The string a field is stored as: the field itself when it is a
    string, the empty string otherwise. *)
Definition stringOrEmpty (v : value) : jsstring :=
  match v with VString s => s | _ => [] end.

(** The world after a Firestore call has taken its outcome. *)
Definition advance (w : World) : World :=
  with_db (reNovaMember w) (renovaUsers w) (tail (db_faults w)) w.

(** A postcondition that only speaks of answers with [ok: true]. *)
Definition rejected_or (P : Response -> World -> Prop)
    (r : jsstring + Response) (w : World) : Prop :=
  forall resp, r = inr resp -> is_ok resp = true -> P resp w.

(** Seconds to milliseconds, [null] for what is not a number. *)
Definition secondsToMs (v : value) : value :=
  match v with
  | VNumber n => VNumber (number_mul n (Finite 1000))
  | _ => VNull
  end.

(** What a successful call has done: it sent the flag of the request to
    the billing provider for the subscription on file, and the member's
    [billing] now holds what the provider answered. *)
Definition mirrored (w : World) (req : Request) (resp : Response) (w' : World) : Prop :=
  exists b flag ref B u,
    body req = inr b /\
    prop b (js "cancelAtPeriodEnd") = VBool flag /\
    Map_get (reNovaMember w) ref ≫= m_billing = Some B /\
    subscriptions_update w (toStr (b_stripeSubscriptionId B)) flag = inr u /\
    stripeCalls w' = stripeCalls w ++ [(toStr (b_stripeSubscriptionId B), flag)] /\
    exists d' B',
      Map_get (reNovaMember w') ref = Some d' /\
      m_billing d' = Some B' /\
      b_cancelAtPeriodEnd B' =
        ofBool (toBoolOrNull (prop u (js "cancel_at_period_end"))) /\
      b_currentPeriodEndMs B' = secondsToMs (prop u (js "current_period_end")).

(** ** Concrete data for the examples *)

(** A source of identifiers for the examples. *)
Definition supply0 : Supply := fun n => [N.of_nat n].

(** Three steps A, B, C numbered 1, 2, 3. *)
Definition stepsABC : list Step :=
  [ mkStep (js "a") (js "A") (Finite 1);
    mkStep (js "b") (js "B") (Finite 2);
    mkStep (js "c") (js "C") (Finite 3) ].

(** A stored array whose storage order differs from its orders. *)
Definition stored_ba : list RawStep :=
  [ RawEntry (Some (js "b")) (Some (js "B")) (Some (Finite 2));
    RawEntry (Some (js "a")) (Some (js "A")) (Some (Finite 1)) ].

(** Three steps named x, blank and y, with any orders. *)
Definition steps_x_y (o1 o2 o3 : number) : list Step :=
  [ mkStep (js "s1") (js " x") o1; mkStep (js "s2") (js "  ") o2;
    mkStep (js "s3") (js "y ") o3 ].

(** Collation by code units, for the examples. *)
Definition codeUnitKey (s : jsstring) : list N := s.

(** A code whose order is past the sentinel. *)
Definition codes_late : JsMap WorkTypeCodeDoc :=
  [ (js "roof", {| c_label := js "roof"; c_order := Finite 1000000;
                   c_enabled := true |}) ].

(** A code of order 1. *)
Definition codes_early : JsMap WorkTypeCodeDoc :=
  [ (js "roof", {| c_label := js "roof"; c_order := Finite 1;
                   c_enabled := true |}) ].

(** A template that has no code. *)
Definition templates_only : JsMap TemplateMeta :=
  [ (js "paint", {| t_id := js "paint"; t_title := js "paint";
                    t_updatedAtLabel := None |}) ].

(** A page of a signed-in user, with one code and one template that
    has no code. *)
Definition page0 : PageState :=
  {| userUid := Some (js "admin");
     codesMap := codes_early;
     templatesMeta := templates_only;
     loadingTemplatesMeta := false;
     workTypeId := js "roof";
     newWorkLabel := js " wall ";
     title := js "Roof";
     steps := stepsABC;
     saving := false;
     lastLoadedAt := NotLoaded |}.

(** The collections behind it, with the outcomes [faults] of the
    coming calls. *)
Definition store0 (faults : list (option jsstring)) : Firestore :=
  {| codesCol := [ (js "roof",
                    {| cd_label := Some (js "roof"); cd_order := Finite 1;
                       cd_enabled := Some true; cd_createdAt := None;
                       cd_updatedAt := None |}) ];
     templatesCol := [ (js "paint",
                        {| td_workTypeId := Some (js "paint");
                           td_title := Some (js "paint");
                           td_steps := Some []; td_updatedAt := None |}) ];
     faults := faults;
     clock := 100;
     autoIds := fun n => js "auto" ++ [N.of_nat n] |}.

Definition client0 (faults : list (option jsstring)) : Client :=
  {| page := page0; store := store0 faults; ids := supply0; alerts := [] |}.

(** A paying member with a subscription on file. *)
Definition member1 : MemberDoc :=
  {| m_uid := VString (js "user1");
     m_email := VString (js "user1@example.com");
     m_profile := None;
     m_createdAt := VTimestamp 1;
     m_updatedAt := VTimestamp 1;
     m_billing := Some
       {| b_mode := VString (js "paid");
          b_status := VString (js "active");
          b_stripeCustomerId := VString (js "cus_1");
          b_stripeSubscriptionId := VString (js "sub_1");
          b_cancelAtPeriodEnd := VNull;
          b_currentPeriodEndMs := VNull;
          b_updatedAt := VTimestamp 1 |} |}.

(** Two administrators; the identity provider knows the tokens of one
    administrator and of one ordinary user; the billing provider answers
    that the subscription does not cancel at period end, whatever it is
    asked. *)
Definition world0 : World :=
  {| RENOVA_ADMIN_UIDS := Some (js "adminA, adminB");
     STRIPE_SECRET_KEY := Some (js "sk_test");
     verifyIdToken := fun token =>
       if decide (token = js "tokA") then inr (js "adminA")
       else if decide (token = js "tokU") then inr (js "user1")
       else inl (js "auth/argument-error");
     createUser := fun _ _ _ => inr (js "uid_new");
     subscriptions_update := fun _ _ =>
       inr (VObject [ (js "cancel_at_period_end", VBool false);
                      (js "current_period_end", VNumber (Finite 1700000000)) ]);
     reNovaMember := [ (js "user1", member1) ];
     renovaUsers := [];
     db_faults := [];
     now := 50;
     createdUsers := [];
     stripeCalls := [] |}.

(** The header [Authorization: Bearer <token>]. *)
Definition bearer (token : string) : option jsstring := Some (js "Bearer " ++ js token).

(** A signed-in user who is no administrator asks to cancel at period
    end. *)
Definition cancel_by_user : Request :=
  {| authorization := bearer "tokU";
     body := inr (VObject [ (js "uid", VString (js "user1"));
                            (js "cancelAtPeriodEnd", VBool true) ]) |}.

(** A request without an [Authorization] header. *)
Definition anonymous : Request :=
  {| authorization := None; body := inr VNull |}.

(** An administrator sets a billing status with an unknown mode, a
    status that is not a string and no subscription identifier. *)
Definition billing_request : Request :=
  {| authorization := bearer "tokA";
     body := inr (VObject [ (js "uid", VString (js " user9 "));
                            (js "mode", VString (js "premium"));
                            (js "status", VNumber (Finite 1));
                            (js "stripeCustomerId", VNull) ]) |}.

(** ** Further vocabulary: the step list *)

(** Every step has an identifier. *)
Definition wellIdentified (l : list Step) : Prop :=
  Forall (fun s => truthy (s_id s) = true) l.

(** What identifies a step to the user: its identifier and its name. *)
Definition face (s : Step) : jsstring * jsstring := (s_id s, s_name s).

(** The names a save stores for a list: the trimmed names that are
    not empty, in order. *)
Definition savedNames (l : list Step) : list jsstring :=
  List.filter (fun n => 0 <? Z.of_nat (length n))
              (List.map (fun s => trim (s_name s)) l).

(** Every name is as [trim] leaves it. *)
Definition trimmedNames (l : list Step) : Prop :=
  Forall (fun s => trim (s_name s) = s_name s) l.

(** ** Further vocabulary: the endpoints *)

(** A handler answered, with a status among [codes], and with
    [ok: true] exactly when the status is 200. *)
Definition answered (codes : list Z) (r : jsstring + Response) : Prop :=
  exists resp, r = inr resp /\ In (status resp) codes /\
               (is_ok resp = true <-> status resp = 200).

(** What a run of the cancel-at-period-end handler has asked of the
    billing provider: nothing, or one update of the subscription on
    file for some member, with the flag of the request. *)
Definition provider_asked (w : World) (req : Request) (w' : World) : Prop :=
  stripeCalls w' = stripeCalls w \/
  exists b flag ref B,
    body req = inr b /\
    prop b (js "cancelAtPeriodEnd") = VBool flag /\
    Map_get (reNovaMember w) ref ≫= m_billing = Some B /\
    toStr (b_stripeSubscriptionId B) <> [] /\
    stripeCalls w' =
      stripeCalls w ++ [(toStr (b_stripeSubscriptionId B), flag)].

(** What the billing status endpoint leaves of a document it writes:
    identity, profile, creation time and the two mirrored fields. *)
Definition keptByStatus (d d' : MemberDoc) : Prop :=
  m_uid d' = m_uid d /\ m_email d' = m_email d /\
  m_profile d' = m_profile d /\ m_createdAt d' = m_createdAt d /\
  exists B', m_billing d' = Some B' /\
    b_cancelAtPeriodEnd B' =
      b_cancelAtPeriodEnd (default noBilling (m_billing d)) /\
    b_currentPeriodEndMs B' =
      b_currentPeriodEndMs (default noBilling (m_billing d)).

(** The allow-list names nobody: every code unit of the variable is a
    comma or white space. *)
Definition noAdmins (w : World) : Prop :=
  forallb (fun c => (c =? 44)%N || is_whitespace c)
          (default [] (RENOVA_ADMIN_UIDS w)) = true.

(** ** Further vocabulary: the page *)

(** The client after a remote call has taken its outcome. *)
Definition afterCall (w : Client) : Client :=
  with_store (fun s =>
    {| codesCol := codesCol s; templatesCol := templatesCol s;
       faults := tail (faults s); clock := clock s; autoIds := autoIds s |}) w.

(** ** Further data for the examples *)

(** [world0] with an allow-list that names nobody. *)
Definition world_closed : World :=
  {| RENOVA_ADMIN_UIDS := Some (js " , ");
     STRIPE_SECRET_KEY := STRIPE_SECRET_KEY world0;
     verifyIdToken := verifyIdToken world0;
     createUser := createUser world0;
     subscriptions_update := subscriptions_update world0;
     reNovaMember := reNovaMember world0;
     renovaUsers := renovaUsers world0;
     db_faults := [];
     now := now world0;
     createdUsers := [];
     stripeCalls := [] |}.

(** [world0] with a database that takes two reads and rejects the
    write after them. *)
Definition world_write_fails : World :=
  with_db (reNovaMember world0) (renovaUsers world0)
          [None; None; Some (js "unavailable")] world0.

(** An administrator creates a paying member, with the password
    given. *)
Definition create_request (password : string) : Request :=
  {| authorization := bearer "tokA";
     body := inr (VObject [ (js "email", VString (js " new@example.com "));
                            (js "password", VString (js password));
                            (js "fullName", VString (js "New Member"));
                            (js "phone", VString (js "+81 (90) 1234-5678"));
                            (js "companyName", VString (js "Renova"));
                            (js "companyAddress", VString (js " Tokyo "));
                            (js "billingMode", VString (js "paid")) ]) |}.

(** The page of [client0] with no message shown yet. *)
Definition desk0 (faults : list (option jsstring)) : Desk :=
  {| client := client0 faults; notices := [] |}.

(** * Properties *)

(** ** Strings *)

Section TrimFacts.

Lemma trimStart_head (s : jsstring) :
  trimStart s = [] \/
  exists c t, trimStart s = c :: t /\ is_whitespace c = false.
Proof.
  induction s as [|c t IH]; simpl; [by left|].
  destruct (is_whitespace c) eqn:Hc; [exact IH|].
  right. by exists c, t.
Qed.

Lemma trimStart_fixed (c : N) (t : jsstring) :
  is_whitespace c = false -> trimStart (c :: t) = c :: t.
Proof. intros Hc. simpl. by rewrite Hc. Qed.

Lemma trimEnd_head (c : N) (t : jsstring) :
  is_whitespace c = false -> exists t', trimEnd (c :: t) = c :: t'.
Proof.
  intros Hc. simpl. destruct (trimEnd t) as [|d t'].
  - rewrite Hc. by exists [].
  - by exists (d :: t').
Qed.

Lemma trimEnd_idem (s : jsstring) : trimEnd (trimEnd s) = trimEnd s.
Proof.
  induction s as [|c t IH]; [done|].
  simpl. destruct (trimEnd t) as [|d t'] eqn:Ht.
  - destruct (is_whitespace c) eqn:Hc; [done|]. simpl. by rewrite Hc.
  - change (trimEnd (c :: d :: t')) with
      (match trimEnd (d :: t') with
       | [] => if is_whitespace c then [] else [c]
       | u => c :: u
       end).
    by rewrite IH.
Qed.

Lemma trim_idem (s : jsstring) : trim (trim s) = trim s.
Proof.
  unfold trim. destruct (trimStart_head s) as [->|(c & t & -> & Hc)]; [done|].
  destruct (trimEnd_head c t Hc) as [t' Ht']. rewrite Ht'.
  rewrite (trimStart_fixed c t' Hc), <- Ht'. apply trimEnd_idem.
Qed.

Lemma trimEnd_nil_iff (s : jsstring) :
  trimEnd s = [] <-> forallb is_whitespace s = true.
Proof.
  induction s as [|c t IH]; simpl; [done|].
  destruct (trimEnd t) as [|d t'].
  - destruct (is_whitespace c); simpl; [tauto|]. split; discriminate.
  - split; [discriminate|]. intros H. apply andb_true_iff in H as [_ H].
    apply IH in H. discriminate.
Qed.

(** [trim] leaves nothing exactly when every code unit is white space. *)
Lemma trim_nil_iff (s : jsstring) :
  trim s = [] <-> forallb is_whitespace s = true.
Proof.
  unfold trim. induction s as [|c t IH]; [done|].
  cbn [trimStart forallb]. destruct (is_whitespace c) eqn:Hc; [exact IH|].
  destruct (trimEnd_head c t Hc) as [t' Ht']. rewrite Ht'.
  split; discriminate.
Qed.

End TrimFacts.

(** ** Computations *)

Section EffFacts.

Context {S : Type}.

Lemma bind_inr {A B} (m : Eff S A) (k : A -> Eff S B) s b s' :
  bind m k s = (inr b, s') ->
  exists a s1, m s = (inr a, s1) /\ k a s1 = (inr b, s').
Proof.
  unfold bind. destruct (m s) as [[e|a] s1]; [discriminate|]. eauto.
Qed.

Lemma bind_run {A B} (m : Eff S A) (k : A -> Eff S B) s a s1 :
  m s = (inr a, s1) -> bind m k s = k a s1.
Proof. unfold bind. by intros ->. Qed.

Lemma bind_throw {A B} (m : Eff S A) (k : A -> Eff S B) s e s1 :
  m s = (inl e, s1) -> bind m k s = (inl e, s1).
Proof. unfold bind. by intros ->. Qed.

Lemma bind_ret {A B} (a : A) (k : A -> Eff S B) s : bind (ret a) k s = k a s.
Proof. done. Qed.

Lemma bind_throw_run {A B} (e : jsstring) (k : A -> Eff S B) s :
  bind (throw e) k s = (inl e, s).
Proof. done. Qed.

(** When every call of [f] returns, [mapM f] returns the list of what
    the calls return. *)
Lemma mapM_returns {A B} (f : A -> Eff S B) (R : A -> B -> Prop) :
  (forall x s, exists y s', f x s = (inr y, s') /\ R x y) ->
  forall l s, exists l' s', mapM f l s = (inr l', s') /\ Forall2 R l l'.
Proof.
  intros Hf. induction l as [|x l IH]; intros s; simpl.
  - exists [], s. by split; [|constructor].
  - destruct (Hf x s) as (y & s1 & Hy & HR).
    destruct (IH s1) as (l' & s2 & Hl & HF).
    exists (y :: l'), s2. split; [|by constructor].
    rewrite (bind_run _ _ _ _ _ Hy), (bind_run _ _ _ _ _ Hl). done.
Qed.

(** A call that returns its argument and keeps the state is invisible
    to [mapM]. *)
Lemma mapM_fixed {A} (f : A -> Eff S A) (l : list A) s :
  Forall (fun x => forall s, f x s = (inr x, s)) l ->
  mapM f l s = (inr l, s).
Proof.
  induction 1 as [|x l Hx _ IH]; simpl; [done|].
  rewrite (bind_run _ _ _ _ _ (Hx s)), (bind_run _ _ _ _ _ IH). done.
Qed.

Lemma mapM_inr {A B} (f : A -> Eff S B) l s l' s' :
  mapM f l s = (inr l', s') ->
  Forall2 (fun x y => exists s1 s2, f x s1 = (inr y, s2)) l l'.
Proof.
  revert s l'. induction l as [|x l IH]; intros s l' H; simpl in H.
  - injection H as <- _. constructor.
  - apply bind_inr in H as (y & s1 & Hy & H).
    apply bind_inr in H as (ys & s2 & Hys & H).
    injection H as <- <-. constructor; [by eauto|]. exact (IH _ _ Hys).
Qed.

End EffFacts.

(** *** Reasoning along a handler *)

Lemma wp_ret {S A} (a : A) (Q : jsstring + A -> S -> Prop) s :
  Q (inr a) s -> wp (ret a) Q s.
Proof. done. Qed.

Lemma wp_throw {S A} (e : jsstring) (Q : jsstring + A -> S -> Prop) s :
  Q (inl e) s -> wp (throw e) Q s.
Proof. done. Qed.

Lemma wp_get {S} (Q : jsstring + S -> S -> Prop) s :
  Q (inr s) s -> wp get Q s.
Proof. done. Qed.

Lemma wp_modify {S} (f : S -> S) (Q : jsstring + unit -> S -> Prop) s :
  Q (inr tt) (f s) -> wp (modify f) Q s.
Proof. done. Qed.

Lemma wp_bind {S A B} (m : Eff S A) (k : A -> Eff S B) Q s :
  wp m (fun r s1 => match r with
                    | inl e => Q (inl e) s1
                    | inr a => wp (k a) Q s1
                    end) s ->
  wp (bind m k) Q s.
Proof. unfold wp, bind. by destruct (m s) as [[e|a] s1]. Qed.

Lemma wp_catch {S A} (m : Eff S A) (h : jsstring -> Eff S A) Q s :
  wp m (fun r s1 => match r with
                    | inl e => wp (h e) Q s1
                    | inr a => Q (inr a) s1
                    end) s ->
  wp (catch m h) Q s.
Proof. unfold wp, catch. by destruct (m s) as [[e|a] s1]. Qed.

Lemma wp_run {S A} (m : Eff S A) (Q : jsstring + A -> S -> Prop) s r s' :
  wp m Q s -> m s = (r, s') -> Q r s'.
Proof. unfold wp. intros H E. by rewrite E in H. Qed.

(** ** Sorting *)

Section SortFacts.

Context {A : Type} (cmp : A -> A -> number).

Lemma sort_insert_perm (x : A) (l : list A) :
  Permutation (sort_insert cmp x l) (x :: l).
Proof.
  induction l as [|y r IH]; simpl; [done|].
  destruct (number_pos (cmp x y)); [|done].
  rewrite IH. apply perm_swap.
Qed.

Lemma sort_perm (l : list A) : Permutation (sort cmp l) l.
Proof.
  induction l as [|x r IH]; simpl; [done|].
  rewrite sort_insert_perm. by constructor.
Qed.

Lemma sort_length (l : list A) : length (sort cmp l) = length l.
Proof. apply Permutation_length, sort_perm. Qed.

(** Elements that the comparator never puts in the wrong order keep
    their relative order: the sort is stable. *)
Lemma sort_insert_filter (p : A -> bool) (x : A) (l : list A) :
  (forall y, p x = true -> p y = true -> number_pos (cmp x y) = false) ->
  List.filter p (sort_insert cmp x l) = List.filter p (x :: l).
Proof.
  intros Hp. induction l as [|y r IH]; [done|].
  cbn [sort_insert]. destruct (number_pos (cmp x y)) eqn:Hxy; [|done].
  cbn [List.filter] in *. rewrite IH.
  destruct (p x) eqn:Hx, (p y) eqn:Hy; try done.
  rewrite Hp in Hxy; done.
Qed.

Lemma sort_stable (p : A -> bool) (l : list A) :
  (forall x y, p x = true -> p y = true -> number_pos (cmp x y) = false) ->
  List.filter p (sort cmp l) = List.filter p l.
Proof.
  intros Hp. induction l as [|x r IH]; [done|].
  cbn [sort]. rewrite sort_insert_filter by eauto.
  cbn [List.filter]. by rewrite IH.
Qed.

(** An array that is in order already is left as it is. *)
Lemma sort_fixed (l : list A) :
  Sorted (fun x y => number_pos (cmp x y) = false) l -> sort cmp l = l.
Proof.
  induction 1 as [|x l _ IH Hd]; [done|].
  cbn [sort]. rewrite IH. destruct Hd as [|y r Hxy]; [done|].
  cbn [sort_insert]. by rewrite Hxy.
Qed.

Section Ordered.

Variable le : A -> A -> Prop.
Hypothesis le_of_keep : forall x y, number_pos (cmp x y) = false -> le x y.
Hypothesis le_of_swap : forall x y, number_pos (cmp x y) = true -> le y x.

Lemma sort_insert_HdRel (a x : A) (l : list A) :
  le a x -> HdRel le a l -> HdRel le a (sort_insert cmp x l).
Proof.
  intros Hax Hd. destruct l as [|y r]; cbn [sort_insert].
  - by constructor.
  - destruct (number_pos (cmp x y)); constructor; [|done].
    by inversion Hd.
Qed.

Lemma sort_insert_Sorted (x : A) (l : list A) :
  Sorted le l -> Sorted le (sort_insert cmp x l).
Proof.
  induction 1 as [|y r Hr IH Hd]; cbn [sort_insert].
  - by repeat constructor.
  - destruct (number_pos (cmp x y)) eqn:Hxy.
    + constructor; [done|]. apply sort_insert_HdRel; auto.
    + constructor; [by constructor|]. constructor. auto.
Qed.

Lemma sort_Sorted (l : list A) : Sorted le (sort cmp l).
Proof.
  induction l as [|x r IH]; cbn [sort]; [constructor|].
  by apply sort_insert_Sorted.
Qed.

End Ordered.

End SortFacts.

(** ** The step-list editor *)

Section StepFacts.

Lemma uid_truthy (g : Supply) : exists i g', uid g = (inr i, g') /\ truthy i = true.
Proof. by eexists _, _. Qed.

Lemma normalizeStep_returns (s : Step) (g : Supply) :
  exists s' g', normalizeStep s g = (inr s', g') /\
    (id_coerced s s' /\ s_name s' = s_name s /\
     s_order s' = finite_or_zero (s_order s)).
Proof.
  unfold normalizeStep, id_coerced. destruct (truthy (s_id s)) eqn:Hid.
  - eexists _, _. split; [reflexivity|]. simpl. by rewrite Hid.
  - eexists _, _. split; [reflexivity|]. simpl. done.
Qed.

Lemma cleanStep_returns (s : Step) (g : Supply) :
  exists s' g', cleanStep s g = (inr s', g') /\
    (id_coerced s s' /\ s_name s' = trim (s_name s)).
Proof.
  unfold cleanStep, id_coerced. destruct (truthy (s_id s)) eqn:Hid.
  - eexists _, _. split; [reflexivity|]. simpl. by rewrite Hid.
  - eexists _, _. split; [reflexivity|]. simpl. done.
Qed.

Lemma normalizeStep_fixed (s : Step) (g : Supply) :
  truthy (s_id s) = true -> Number_isFinite (s_order s) = true ->
  normalizeStep s g = (inr s, g).
Proof.
  intros Hid Hfin. unfold normalizeStep. rewrite Hid, Hfin. by destruct s.
Qed.

Lemma imap_order (f : nat -> Step -> Step) (k : nat) (l : list Step) :
  (forall i s, s_order (f i s) = Finite (Z.of_nat (k + i) + 1)) ->
  List.map s_order (imap f l) =
  List.map (fun i => Finite (Z.of_nat i + 1)) (seq k (length l)).
Proof.
  revert f k. induction l as [|x l IH]; intros f k Hf; [done|].
  cbn [imap List.map length seq]. f_equal.
  - rewrite Hf. do 2 f_equal. lia.
  - apply IH. intros i s. unfold compose. rewrite Hf. do 2 f_equal. lia.
Qed.

Lemma imap_keeps {B} (proj : Step -> B) (f : nat -> Step -> Step) (l : list Step) :
  (forall i s, proj (f i s) = proj s) ->
  List.map proj (imap f l) = List.map proj l.
Proof.
  revert f. induction l as [|x l IH]; intros f Hf; [done|].
  cbn [imap List.map]. rewrite Hf. f_equal. apply IH. intros i s. apply Hf.
Qed.

Lemma imap_fixed (f : nat -> Step -> Step) (k : nat) (l : list Step) :
  (forall i s, f i s = withPosition (k + i) s) ->
  List.map s_order l =
    List.map (fun i => Finite (Z.of_nat i + 1)) (seq k (length l)) ->
  imap f l = l.
Proof.
  revert f k. induction l as [|x l IH]; intros f k Hf Hl; [done|].
  cbn [imap List.map length seq] in *. injection Hl as Hx Hl. f_equal.
  - rewrite Hf. destruct x as [i n o]. unfold withPosition. simpl in *.
    rewrite Hx. do 2 f_equal. lia.
  - apply (IH _ (S k)); [|done]. intros i s. unfold compose. rewrite Hf.
    f_equal. lia.
Qed.

Lemma withPosition_contiguous (l : list Step) : contiguous (imap withPosition l).
Proof.
  unfold contiguous, positions. rewrite length_imap.
  by apply (imap_order withPosition 0).
Qed.

Lemma contiguous_fixed (l : list Step) : contiguous l -> imap withPosition l = l.
Proof. intros H. by apply (imap_fixed withPosition 0). Qed.

Lemma orders_lookup (k : nat) (l : list Step) :
  List.map s_order l =
    List.map (fun i => Finite (Z.of_nat i + 1)) (seq k (length l)) <->
  forall i s, l !! i = Some s -> s_order s = Finite (Z.of_nat (k + i) + 1).
Proof.
  revert k. induction l as [|x l IH]; intros k.
  - split; [|done]. by intros _ i s.
  - cbn [List.map length seq]. split.
    + intros H. injection H as Hx Hl. intros [|i] s Hs; simpl in Hs.
      * injection Hs as <-. rewrite Hx. do 2 f_equal. lia.
      * rewrite (proj1 (IH (S k)) Hl i s Hs). do 2 f_equal. lia.
    + intros H. f_equal.
      * rewrite (H 0%nat x eq_refl). do 2 f_equal. lia.
      * apply IH. intros i s Hs. rewrite (H (S i) s Hs). do 2 f_equal. lia.
Qed.

(** [contiguous] says that the element at index [i] has order [i + 1]. *)
Lemma contiguous_lookup (l : list Step) :
  contiguous l <->
  forall i s, l !! i = Some s -> s_order s = Finite (Z.of_nat i + 1).
Proof. apply (orders_lookup 0). Qed.

Lemma Forall2_imap_r {X} (R : X -> Step -> Prop) (f : nat -> Step -> Step) l n :
  (forall x y i, R x y -> R x (f i y)) ->
  Forall2 R l n -> Forall2 R l (imap f n).
Proof.
  intros Hf H. revert f Hf.
  induction H as [|x y l n Hxy _ IH]; intros f Hf; cbn [imap]; constructor.
  - by apply Hf.
  - apply IH. intros. apply Hf. done.
Qed.

Lemma Forall2_map_eq {X Y Z} (h : X -> Z) (k : Y -> Z) l n :
  Forall2 (fun x y => k y = h x) l n -> List.map k n = List.map h l.
Proof. induction 1; cbn [List.map]; congruence. Qed.

Lemma renumberByArrayOrder_returns (steps : list Step) (g : Supply) :
  exists l g', renumberByArrayOrder steps g = (inr l, g') /\
    contiguous l /\
    List.map s_name l = List.map s_name steps /\
    Forall2 id_coerced steps l.
Proof.
  destruct (mapM_returns normalizeStep _ normalizeStep_returns steps g)
    as (n & g' & Hn & HF).
  exists (imap withPosition n), g'. unfold renumberByArrayOrder.
  rewrite (bind_run _ _ _ _ _ Hn). split; [done|].
  split; [apply withPosition_contiguous|]. split.
  - rewrite (imap_keeps s_name) by done.
    apply Forall2_map_eq. eapply Forall2_impl; [exact HF|]. by intros ?? (_ & ? & _).
  - apply Forall2_imap_r; [done|].
    eapply Forall2_impl; [exact HF|]. by intros ?? (? & _).
Qed.

(** A list that is numbered by position and has its identifiers is
    what [renumberByArrayOrder] returns for it. *)
Lemma renumberByArrayOrder_fixed (l : list Step) (g : Supply) :
  contiguous l -> Forall (fun s => truthy (s_id s) = true) l ->
  renumberByArrayOrder l g = (inr l, g).
Proof.
  intros Hc Hid. unfold renumberByArrayOrder.
  assert (mapM normalizeStep l g = (inr l, g)) as Hn.
  { apply mapM_fixed. pose proof (proj1 (contiguous_lookup l) Hc) as Hpos.
    apply Forall_lookup_2. intros i s Hs g0.
    apply normalizeStep_fixed.
    - by apply (Forall_lookup_1 _ _ _ _ Hid Hs).
    - by rewrite (Hpos i s Hs). }
  rewrite (bind_run _ _ _ _ _ Hn). unfold ret. by rewrite contiguous_fixed.
Qed.

Lemma normalizeStepsForSave_returns (steps : list Step) (g : Supply) :
  exists mapped g',
    mapM cleanStep steps g = (inr mapped, g') /\
    normalizeStepsForSave steps g =
      (inr (imap withPosition (List.filter nonEmptyName mapped)), g') /\
    Forall2 (fun s s' => id_coerced s s' /\ s_name s' = trim (s_name s))
            steps mapped.
Proof.
  destruct (mapM_returns cleanStep _ cleanStep_returns steps g)
    as (n & g' & Hn & HF).
  exists n, g'. unfold normalizeStepsForSave.
  by rewrite (bind_run _ _ _ _ _ Hn).
Qed.

Lemma onChangeName_orders (id v : jsstring) (l : list Step) :
  List.map s_order (onChangeName id v l) = List.map s_order l.
Proof.
  unfold onChangeName. rewrite List.map_map. apply List.map_ext.
  intros x. by destruct (decide (s_id x = id)).
Qed.

Lemma onChangeName_contiguous (id v : jsstring) (l : list Step) :
  contiguous l -> contiguous (onChangeName id v l).
Proof.
  unfold contiguous. rewrite onChangeName_orders.
  unfold onChangeName. by rewrite length_map.
Qed.

Lemma onDragEnd_returns (event : DragEndEvent) (prev : list Step) (g : Supply) :
  exists l g', onDragEnd event prev g = (inr l, g') /\
    (drag_moves event prev = true \/ contiguous prev -> contiguous l).
Proof.
  unfold onDragEnd, drag_moves. destruct (over event) as [overId|].
  2: { exists prev, g. split; [done|]. by intros [|]. }
  destruct (decide (active event = overId)).
  { exists prev, g. split; [done|]. by intros [|]. }
  destruct (findIndex _ prev) as [oldIndex|].
  2: { exists prev, g. split; [done|]. by intros [|]. }
  destruct (findIndex _ prev) as [newIndex|].
  2: { exists prev, g. split; [done|]. by intros [|]. }
  destruct (renumberByArrayOrder_returns (arrayMove prev oldIndex newIndex) g)
    as (l & g' & Hl & Hc & _).
  by exists l, g'.
Qed.

Lemma loadSteps_contiguous (raw : list RawStep) (g : Supply) l g' :
  loadSteps raw g = (inr l, g') -> contiguous l.
Proof.
  unfold loadSteps, renumberFromOrder. intros H.
  apply bind_inr in H as (mapped & g1 & _ & H).
  apply bind_inr in H as (normalized & g2 & _ & H).
  destruct (renumberByArrayOrder_returns (sort byOrder normalized) g2)
    as (l0 & g0 & Hl0 & Hc & _).
  congruence.
Qed.

Lemma reachable_contiguous (l : list Step) : reachable l -> contiguous l.
Proof.
  induction 1 as [|raw g l g' Hl|prev g l g' _ _ Hl|id prev g l g' _ _ Hl
                 |id v prev _ IH|event prev g l g' _ IH Hl].
  - done.
  - by eapply loadSteps_contiguous.
  - unfold onAddStep in Hl. apply bind_inr in Hl as (i & g1 & _ & Hl).
    destruct (renumberByArrayOrder_returns
                (prev ++ [ {| s_id := i; s_name := [];
                              s_order := Finite (Z.of_nat (length prev) + 1) |} ]) g1)
      as (l0 & g0 & Hl0 & Hc & _).
    congruence.
  - unfold onDeleteStep in Hl.
    destruct (renumberByArrayOrder_returns
                (List.filter (fun x => bool_decide (s_id x <> id)) prev) g)
      as (l0 & g0 & Hl0 & Hc & _).
    congruence.
  - by apply onChangeName_contiguous.
  - destruct (onDragEnd_returns event prev g) as (l0 & g0 & Hl0 & Hc).
    assert (l0 = l) as <- by congruence. apply Hc. by right.
Qed.

(** C1. Contiguity of the step list: adding a step, deleting a step and
    a drag that moves a step each return a list in which the order of
    every element is its 1-based position, whatever list they start
    from; so does the canonical form computed for saving; a drag that
    moves nothing returns the list it was given; and every value the
    [steps] state takes is numbered 1..N by position. *)
Theorem step_order_contiguity :
  (forall prev g, exists l g',
      onAddStep prev g = (inr l, g') /\ contiguous l) /\
  (forall id prev g, exists l g',
      onDeleteStep id prev g = (inr l, g') /\ contiguous l) /\
  (forall event prev g, exists l g',
      onDragEnd event prev g = (inr l, g') /\
      (drag_moves event prev = true \/ contiguous prev -> contiguous l)) /\
  (forall steps g, exists l g',
      normalizeStepsForSave steps g = (inr l, g') /\ contiguous l) /\
  (forall l, reachable l -> contiguous l).
Proof.
  repeat split.
  - intros prev g. unfold onAddStep.
    destruct (uid_truthy g) as (i & g1 & Hi & _).
    destruct (renumberByArrayOrder_returns
                (prev ++ [ {| s_id := i; s_name := [];
                              s_order := Finite (Z.of_nat (length prev) + 1) |} ]) g1)
      as (l & g' & Hl & Hc & _).
    exists l, g'. by rewrite (bind_run _ _ _ _ _ Hi).
  - intros id prev g. unfold onDeleteStep.
    destruct (renumberByArrayOrder_returns
                (List.filter (fun x => bool_decide (s_id x <> id)) prev) g)
      as (l & g' & Hl & Hc & _).
    by exists l, g'.
  - apply onDragEnd_returns.
  - intros steps g.
    destruct (normalizeStepsForSave_returns steps g) as (m & g' & _ & H & _).
    eexists _, _. split; [exact H|]. apply withPosition_contiguous.
  - apply reachable_contiguous.
Qed.

(** *** Saving *)

Lemma Forall2_filter {X Y} (R : X -> Y -> Prop) (p : X -> bool) (q : Y -> bool) l n :
  (forall x y, R x y -> p x = q y) ->
  Forall2 R l n -> Forall2 R (List.filter p l) (List.filter q n).
Proof.
  intros Hpq. induction 1 as [|x y l n Hxy _ IH]; cbn [List.filter]; [constructor|].
  rewrite <- (Hpq x y Hxy). destruct (p x); [by constructor|done].
Qed.

Lemma filter_map_comm {X Y} (h : X -> Y) (q : Y -> bool) (l : list X) :
  List.filter q (List.map h l) = List.map h (List.filter (fun x => q (h x)) l).
Proof.
  induction l as [|x l IH]; cbn [List.map List.filter]; [done|].
  destruct (q (h x)); cbn [List.map]; by rewrite IH.
Qed.

Lemma cleanStep_ignores_order (s t : Step) (g : Supply) :
  same_but_order s t ->
  exists s' t' g', cleanStep s g = (inr s', g') /\
                   cleanStep t g = (inr t', g') /\ same_but_order s' t'.
Proof.
  intros [Hid Hname]. unfold cleanStep. rewrite Hid, Hname.
  destruct (truthy (s_id t)); by eexists _, _, _.
Qed.

Lemma mapM_cleanStep_ignores_order (l n : list Step) :
  Forall2 same_but_order l n ->
  forall g, exists l' n' g',
    mapM cleanStep l g = (inr l', g') /\
    mapM cleanStep n g = (inr n', g') /\ Forall2 same_but_order l' n'.
Proof.
  induction 1 as [|s t l n Hst _ IH]; intros g.
  - exists [], [], g. by repeat split; [..|constructor].
  - destruct (cleanStep_ignores_order s t g Hst) as (s' & t' & g1 & Hs & Ht & Hst').
    destruct (IH g1) as (l' & n' & g2 & Hl & Hn & HF).
    exists (s' :: l'), (t' :: n'), g2. cbn [mapM].
    rewrite (bind_run _ _ _ _ _ Hs), (bind_run _ _ _ _ _ Ht).
    rewrite (bind_run _ _ _ _ _ Hl), (bind_run _ _ _ _ _ Hn).
    by repeat split; [..|constructor].
Qed.

Lemma imap_ignores_order (f : nat -> Step -> Step) (l n : list Step) :
  (forall i s t, same_but_order s t -> f i s = f i t) ->
  Forall2 same_but_order l n -> imap f l = imap f n.
Proof.
  intros Hf H. revert f Hf.
  induction H as [|s t l n Hst _ IH]; intros f Hf; cbn [imap]; [done|].
  rewrite (Hf _ _ _ Hst). f_equal. apply IH. intros. by apply Hf.
Qed.

Lemma same_but_order_of_maps (l n : list Step) :
  List.map s_id n = List.map s_id l -> List.map s_name n = List.map s_name l ->
  Forall2 same_but_order l n.
Proof.
  revert n. induction l as [|s l IH]; intros [|t n] Hi Hn;
    try discriminate; [constructor|].
  cbn [List.map] in *. injection Hi as Hi1 Hi. injection Hn as Hn1 Hn.
  constructor; [by split|]. by apply IH.
Qed.

(** What [normalizeStepsForSave] makes of a list.  It always returns;
    the names it returns are the trimmed names of the input, in input
    order, without the empty ones; the result is numbered 1..N by
    position; every identifier of the result is truthy and is the
    input's when that was truthy; and the result is the same for any
    input with the same identifiers and names, whatever its stored
    orders.  The three steps named x, empty and y are saved as x with
    order 1 and y with order 2. *)
Lemma normalizeStepsForSave_canonicalizes :
  (forall steps g, exists saved g',
      normalizeStepsForSave steps g = (inr saved, g') /\
      List.map s_name saved =
        List.filter (fun n => 0 <? Z.of_nat (length n))
                    (List.map (fun s => trim (s_name s)) steps) /\
      contiguous saved /\
      Forall2 id_coerced
        (List.filter (fun s => 0 <? Z.of_nat (length (trim (s_name s)))) steps)
        saved /\
      (forall steps2,
          List.map s_id steps2 = List.map s_id steps ->
          List.map s_name steps2 = List.map s_name steps ->
          normalizeStepsForSave steps2 g = (inr saved, g'))) /\
  (forall i1 i2 i3 o1 o2 o3 g, exists j1 j3 g',
      normalizeStepsForSave
        [ mkStep i1 (js "x") o1; mkStep i2 [] o2; mkStep i3 (js "y") o3 ] g =
      (inr [ mkStep j1 (js "x") (Finite 1); mkStep j3 (js "y") (Finite 2) ], g')).
Proof.
  split.
  - intros steps g.
    destruct (normalizeStepsForSave_returns steps g) as (m & g' & Hm & Hs & HF).
    eexists _, g'. split; [exact Hs|]. repeat split.
    + rewrite (imap_keeps s_name) by done.
      unfold nonEmptyName.
      rewrite <- (filter_map_comm s_name (fun n => 0 <? Z.of_nat (length n))).
      f_equal. apply Forall2_map_eq.
      eapply Forall2_impl; [exact HF|]. by intros ?? [_ ?].
    + apply withPosition_contiguous.
    + apply Forall2_imap_r; [done|].
      apply Forall2_filter with (R := fun s s' => id_coerced s s' /\ s_name s' = trim (s_name s))
        (p := fun s => 0 <? Z.of_nat (length (trim (s_name s)))) (q := nonEmptyName) in HF.
      * eapply Forall2_impl; [exact HF|]. by intros ?? [? _].
      * intros x y [_ Hn]. unfold nonEmptyName. by rewrite Hn.
    + intros steps2 Hi Hn.
      destruct (mapM_cleanStep_ignores_order steps steps2
                  (same_but_order_of_maps _ _ Hi Hn) g)
        as (l' & n' & g2 & Hl & Hn' & HF').
      assert (l' = m /\ g2 = g') as [-> ->] by (split; congruence).
      unfold normalizeStepsForSave. rewrite (bind_run _ _ _ _ _ Hn').
      unfold ret. do 2 f_equal. symmetry.
      apply imap_ignores_order.
      * intros i s t [Hid Hname]. unfold withPosition. by rewrite Hid, Hname.
      * apply Forall2_filter; [|done].
        intros x y [_ Hname]. unfold nonEmptyName. by rewrite Hname.
  - intros i1 i2 i3 o1 o2 o3 g.
    destruct i1 as [|c1 i1], i2 as [|c2 i2], i3 as [|c3 i3];
      eexists _, _, _; reflexivity.
Qed.

(** *** Loading *)

Lemma parseStep_returns (x : RawStep) (g : Supply) :
  x <> RawNull ->
  exists s g', parseStep x g = (inr s, g') /\
    s_name s = stored_name x /\
    finite_or_zero (s_order s) = Finite (stored_order x) /\
    (forall i, stored_id x = Some i -> s_id s = i).
Proof.
  intros Hx. destruct x as [|i n o]; [done|]. cbn [parseStep].
  destruct i as [i|].
  - eexists _, _. split; [reflexivity|]. cbn. split; [|split].
    + by destruct n.
    + by destruct o as [[]|].
    + intros j. destruct (truthy i); congruence.
  - eexists _, _. split; [reflexivity|]. cbn. split; [|split].
    + by destruct n.
    + by destruct o as [[]|].
    + done.
Qed.

Lemma mapM_parseStep_returns (raw : list RawStep) (g : Supply) :
  Forall (fun x => x <> RawNull) raw ->
  exists mapped g', mapM parseStep raw g = (inr mapped, g') /\
    Forall2 (fun x s =>
               s_name s = stored_name x /\
               finite_or_zero (s_order s) = Finite (stored_order x) /\
               (forall i, stored_id x = Some i -> s_id s = i)) raw mapped.
Proof.
  intros H. revert g. induction H as [|x raw Hx _ IH]; intros g.
  - exists [], g. by split; [|constructor].
  - destruct (parseStep_returns x g Hx) as (s & g1 & Hs & HR).
    destruct (IH g1) as (l & g2 & Hl & HF).
    exists (s :: l), g2. cbn [mapM].
    rewrite (bind_run _ _ _ _ _ Hs), (bind_run _ _ _ _ _ Hl).
    by split; [|constructor].
Qed.

(** A [null] element makes [load] fail. *)
Lemma parseStep_null (g : Supply) :
  parseStep RawNull g = (inl null_property_error, g).
Proof. done. Qed.

Lemma Forall2_compose {X Y Z} (R : X -> Y -> Prop) (Q : Y -> Z -> Prop)
    (T : X -> Z -> Prop) l m n :
  (forall x y z, R x y -> Q y z -> T x z) ->
  Forall2 R l m -> Forall2 Q m n -> Forall2 T l n.
Proof.
  intros HT H. revert n. induction H as [|x y l m Hxy _ IH]; intros n Hn;
    inversion Hn; subst; constructor; eauto.
Qed.

Lemma Forall2_Forall_l_impl {X Y} (P : X -> Prop) (R R' : X -> Y -> Prop) l n :
  Forall P l -> Forall2 R l n ->
  (forall x y, P x -> R x y -> R' x y) -> Forall2 R' l n.
Proof.
  intros HP HR Himpl. induction HR as [|x y l n Hxy _ IH]; [constructor|].
  inversion HP; subst. constructor; auto.
Qed.

Lemma Sorted_weaken {X} (P : X -> Prop) (R R' : X -> X -> Prop) (l : list X) :
  (forall x y, P x -> P y -> R x y -> R' x y) ->
  Forall P l -> Sorted R l -> Sorted R' l.
Proof.
  intros HR HP Hs. induction Hs as [|x l _ IH Hd]; [constructor|].
  inversion HP as [|? ? Hx Hl]; subst. constructor; [by apply IH|].
  destruct Hd as [|y r Hxy]; constructor.
  inversion Hl; subst. by apply HR.
Qed.

Lemma sort_kept_order {X} (cmp : X -> X -> number) (l : list X) :
  Sorted (kept_order cmp) (sort cmp l).
Proof. apply sort_Sorted; unfold kept_order; auto. Qed.

Lemma byOrder_kept_order (a b : Step) :
  Number_isFinite (s_order a) = true -> Number_isFinite (s_order b) = true ->
  kept_order byOrder a b -> orderKey a <= orderKey b.
Proof.
  unfold kept_order, byOrder, orderKey.
  destruct (s_order a), (s_order b); try done; cbn; intros _ _ [H|H]; lia.
Qed.

Lemma byOrder_sameOrder (k : Z) (x y : Step) :
  sameOrder k x = true -> sameOrder k y = true ->
  number_pos (byOrder x y) = false.
Proof.
  unfold sameOrder, byOrder. intros Hx%bool_decide_eq_true Hy%bool_decide_eq_true.
  rewrite Hx, Hy. cbn. lia.
Qed.

Lemma nonBlankName_spec (s : Step) :
  nonBlankName s = (0 <? Z.of_nat (length (trim (s_name s)))).
Proof. done. Qed.

Lemma nonBlank_true (n : jsstring) :
  trim n <> [] -> (0 <? Z.of_nat (length (trim n))) = true.
Proof. destruct (trim n); [done|]. intros _. apply Z.ltb_lt. cbn [length]. lia. Qed.

(** C2, as the code has it. For a stored array without [null] elements,
    [load] returns; the steps it keeps are the stored entries whose
    trimmed name is not empty, each coerced (missing name empty,
    missing or non-finite order 0, missing identifier new); the result
    lists them sorted by stored order ascending, entries of equal order
    in their stored sequence, and numbers them 1..N by that position.
    Two stored entries b (order 2) and a (order 1) with non-blank names
    load as a, b with orders 1, 2. *)
Theorem load_semantics :
  (forall raw g, Forall (fun x => x <> RawNull) raw ->
     exists l g' kept sorted,
       loadSteps raw g = (inr l, g') /\
       Forall2 loaded_from
         (List.filter (fun x => 0 <? Z.of_nat (length (trim (stored_name x)))) raw)
         kept /\
       Permutation sorted kept /\
       StronglySorted (fun a b => orderKey a <= orderKey b) sorted /\
       (forall k, List.filter (sameOrder k) sorted = List.filter (sameOrder k) kept) /\
       List.map s_id l = List.map s_id sorted /\
       List.map s_name l = List.map s_name sorted /\
       contiguous l) /\
  (forall na nb g, trim na <> [] -> trim nb <> [] ->
     loadSteps [ RawEntry (Some (js "b")) (Some nb) (Some (Finite 2));
                 RawEntry (Some (js "a")) (Some na) (Some (Finite 1)) ] g =
     (inr [ mkStep (js "a") na (Finite 1); mkStep (js "b") nb (Finite 2) ], g)).
Proof.
  split.
  - intros raw g Hraw.
    destruct (mapM_parseStep_returns raw g Hraw) as (mapped & g1 & Hm & HF1).
    set (parsed := List.filter nonBlankName mapped).
    destruct (mapM_returns normalizeStep _ normalizeStep_returns parsed g1)
      as (kept & g2 & Hk & HF2).
    destruct (renumberByArrayOrder_returns (sort byOrder kept) g2)
      as (l & g' & Hl & Hc & Hnames & Hids).
    assert (Forall2 loaded_from
              (List.filter (fun x => 0 <? Z.of_nat (length (trim (stored_name x)))) raw)
              kept) as Hkept.
    { eapply Forall2_compose; [| |exact HF2].
      2: { apply Forall2_filter with (q := nonBlankName); [|exact HF1].
           intros x s (Hn & _). unfold nonBlankName. by rewrite Hn. }
      intros x y z (Hn & Ho & Hi) ((Ht & Hid) & Hn' & Ho'). cbv beta in *.
      repeat split; [congruence|congruence|done|].
      intros i Hx. pose proof (Hi i Hx) as Hy. rewrite <- Hy. apply Hid.
      rewrite Hy. unfold stored_id in Hx. destruct x as [|[j|] ? ?]; try done.
      destruct (truthy j) eqn:Hj; congruence. }
    assert (Forall (fun s => Number_isFinite (s_order s) = true /\
                             truthy (s_id s) = true) (sort byOrder kept))
      as Hwf.
    { rewrite (sort_perm byOrder kept).
      clear -Hkept. induction Hkept as [|x s ? ? (_ & Ho & Ht & _) _ IH];
        constructor; [|done]. by rewrite Ho. }
    assert (Forall (fun s => Number_isFinite (s_order s) = true) (sort byOrder kept))
      as Hfin by (eapply Forall_impl; [exact Hwf|]; by intros ? [? _]).
    exists l, g', kept, (sort byOrder kept).
    split.
    { unfold loadSteps, renumberFromOrder. fold parsed.
      rewrite (bind_run _ _ _ _ _ Hm), (bind_run _ _ _ _ _ Hk). exact Hl. }
    split; [exact Hkept|]. split; [apply sort_perm|]. split.
    { apply Sorted_StronglySorted; [intros ???; lia|].
      eapply Sorted_weaken; [|exact Hfin|apply sort_kept_order].
      intros x y Hx Hy. by apply byOrder_kept_order. }
    split.
    { intros k. apply sort_stable. apply byOrder_sameOrder. }
    split; [|done].
    apply Forall2_map_eq.
    eapply Forall2_Forall_l_impl; [exact Hwf|exact Hids|].
    intros x y [_ Hx] [_ Hxy]. by apply Hxy.
  - intros na nb g Ha Hb.
    change (renumberFromOrder
              (List.filter nonBlankName
                 [ mkStep (js "b") nb (Finite 2); mkStep (js "a") na (Finite 1) ]) g =
            (inr [ mkStep (js "a") na (Finite 1); mkStep (js "b") nb (Finite 2) ], g)).
    cbn [List.filter]. rewrite !nonBlankName_spec. cbn [s_name].
    rewrite !nonBlank_true by done. reflexivity.
Qed.

Lemma loadSteps_null (raw : list RawStep) (g : Supply) :
  loadSteps (RawNull :: raw) g = (inl null_property_error, g).
Proof. done. Qed.

(** *** Saving, then loading *)

Lemma mapM_parseStep_persisted (l : list Step) (g : Supply) :
  mapM parseStep (persisted l) g = (inr l, g).
Proof.
  induction l as [|[i n o] l IH]; [done|].
  cbn [persisted List.map mapM]. fold (persisted l).
  unfold bind at 1. cbn. unfold bind at 1. by rewrite IH.
Qed.

Lemma filter_all {X} (p : X -> bool) (l : list X) :
  Forall (fun x => p x = true) l -> List.filter p l = l.
Proof. induction 1 as [|x l Hx _ IH]; cbn [List.filter]; [done|]. by rewrite Hx, IH. Qed.

Lemma orders_Sorted (k : nat) (l : list Step) :
  List.map s_order l =
    List.map (fun i => Finite (Z.of_nat i + 1)) (seq k (length l)) ->
  Sorted (fun x y => number_pos (byOrder x y) = false) l.
Proof.
  revert k. induction l as [|x l IH]; intros k H; [constructor|].
  cbn [List.map length seq] in H. injection H as Hx Hl.
  constructor; [by apply (IH (S k))|].
  destruct l as [|y r]; constructor.
  cbn [List.map length seq] in Hl. injection Hl as Hy _.
  unfold byOrder. rewrite Hx, Hy. cbn. apply Z.ltb_ge. lia.
Qed.

Lemma loadSteps_persisted (l : list Step) (g : Supply) :
  canonical l -> loadSteps (persisted l) g = (inr l, g).
Proof.
  intros [Hc Hwf]. unfold loadSteps.
  rewrite (bind_run _ _ _ _ _ (mapM_parseStep_persisted l g)).
  rewrite filter_all by (eapply Forall_impl; [exact Hwf|]; by intros ? [_ ?]).
  unfold renumberFromOrder.
  assert (Forall (fun s => truthy (s_id s) = true) l) as Hid
    by (eapply Forall_impl; [exact Hwf|]; by intros ? [? _]).
  assert (mapM normalizeStep l g = (inr l, g)) as Hn.
  { apply mapM_fixed. pose proof (proj1 (contiguous_lookup l) Hc) as Hpos.
    apply Forall_lookup_2. intros i s Hs g0. apply normalizeStep_fixed.
    - by apply (Forall_lookup_1 _ _ _ _ Hid Hs).
    - by rewrite (Hpos i s Hs). }
  rewrite (bind_run _ _ _ _ _ Hn).
  rewrite sort_fixed by (by apply (orders_Sorted 0)).
  by apply renumberByArrayOrder_fixed.
Qed.

Lemma Forall_imap (P : Step -> Prop) (f : nat -> Step -> Step) (l : list Step) :
  (forall i s, P s -> P (f i s)) -> Forall P l -> Forall P (imap f l).
Proof.
  intros Hf H. revert f Hf.
  induction H as [|x l Hx _ IH]; intros f Hf; cbn [imap]; constructor; auto.
  apply IH. intros. by apply Hf.
Qed.

Lemma normalizeStepsForSave_canonical (steps : list Step) (g : Supply) :
  exists saved g',
    normalizeStepsForSave steps g = (inr saved, g') /\ canonical saved.
Proof.
  destruct (normalizeStepsForSave_returns steps g) as (m & g' & _ & Hs & HF).
  eexists _, g'. split; [exact Hs|]. split; [apply withPosition_contiguous|].
  apply Forall_imap; [done|].
  apply List.Forall_forall. intros s Hs'. apply filter_In in Hs' as [Hin Hne].
  assert (Forall (fun s' => truthy (s_id s') = true /\
                            exists x, s_name s' = trim x) m) as Hm.
  { clear -HF. induction HF as [|x y ? ? [[Ht _] Hn] _ IH]; constructor; eauto. }
  eapply List.Forall_forall in Hm as [Ht [x Hx]]; [|exact Hin].
  split; [done|]. unfold nonBlankName, nonEmptyName in *.
  by rewrite Hx, trim_idem, <- Hx.
Qed.

(** C4. Save, then load: what [load] returns for the array that a save
    stored has the names of the saved sequence in the same order; it is
    the saved sequence itself. *)
Theorem save_load_roundtrip :
  forall steps g, exists saved g',
    normalizeStepsForSave steps g = (inr saved, g') /\
    forall g2, exists loaded g3,
      loadSteps (persisted saved) g2 = (inr loaded, g3) /\
      List.map s_name loaded = List.map s_name saved /\
      loaded = saved.
Proof.
  intros steps g.
  destruct (normalizeStepsForSave_canonical steps g) as (saved & g' & Hs & Hc).
  exists saved, g'. split; [done|]. intros g2. exists saved, g2.
  by rewrite loadSteps_persisted.
Qed.

End StepFacts.

(** *** The properties on concrete lists *)

(** Deleting the second of three steps leaves orders 1 and 2. *)
Example delete_second_of_three :
  onDeleteStep (js "b") stepsABC supply0 =
  (inr [ mkStep (js "a") (js "A") (Finite 1);
         mkStep (js "c") (js "C") (Finite 2) ], supply0).
Proof. reflexivity. Qed.

(** Dragging the first of three steps onto the third gives B, C, A
    with orders 1, 2, 3. *)
Example drag_first_onto_third :
  onDragEnd {| active := js "a"; over := Some (js "c") |} stepsABC supply0 =
  (inr [ mkStep (js "b") (js "B") (Finite 1);
         mkStep (js "c") (js "C") (Finite 2);
         mkStep (js "a") (js "A") (Finite 3) ], supply0).
Proof. reflexivity. Qed.

(** Stored entries without a name are discarded like any entry whose
    name is blank. *)
Example load_nameless_entries :
  loadSteps [ RawEntry (Some (js "b")) None (Some (Finite 2));
              RawEntry (Some (js "a")) None (Some (Finite 1)) ] supply0 =
  (inr [], supply0).
Proof. reflexivity. Qed.

(** C2, counterexample. The stored array of the two entries b (order
    2) and a (order 1), which have no name, does not load as a, b: both
    entries are discarded for their empty name, and the list loaded is
    empty.  And a stored array with a [null] element is not loaded at
    all: [load] throws. *)
Lemma load_semantics_counterexample :
  (loadSteps [ RawEntry (Some (js "b")) None (Some (Finite 2));
               RawEntry (Some (js "a")) None (Some (Finite 1)) ] supply0).1 =
    inr [] /\
  List.map s_id (@nil Step) <> [js "a"; js "b"] /\
  (loadSteps [ RawEntry (Some (js "a")) (Some (js "A")) (Some (Finite 1));
               RawNull ] supply0).1 =
    inl null_property_error.
Proof. split; [reflexivity|]. split; [discriminate|reflexivity]. Qed.

Lemma step_order_contiguity_witness :
  drag_moves {| active := js "a"; over := Some (js "c") |} stepsABC = true /\
  exists l g',
    onDragEnd {| active := js "a"; over := Some (js "c") |} stepsABC supply0 =
      (inr l, g') /\
    contiguous l.
Proof.
  split; [reflexivity|].
  destruct (proj1 (proj2 (proj2 step_order_contiguity))
              {| active := js "a"; over := Some (js "c") |} stepsABC supply0)
    as (l & g' & Hl & Hc).
  exists l, g'. split; [exact Hl|]. apply Hc. left. reflexivity.
Defined.

Lemma load_semantics_witness :
  Forall (fun x => x <> RawNull) stored_ba /\
  exists l g', loadSteps stored_ba supply0 = (inr l, g') /\ contiguous l.
Proof.
  assert (Forall (fun x => x <> RawNull) stored_ba) as H
    by (repeat constructor; discriminate).
  split; [exact H|].
  destruct (proj1 load_semantics stored_ba supply0 H)
    as (l & g' & kept & sorted & Hl & _ & _ & _ & _ & _ & _ & Hc).
  exists l, g'. split; [exact Hl|exact Hc].
Defined.

(** ** The work-type catalog *)

Section CatalogFacts.

Lemma lexCompare_antisym (a b : list N) :
  lexCompare b a = CompOpp (lexCompare a b).
Proof.
  revert b. induction a as [|x a IH]; intros [|y b]; cbn [lexCompare]; try done.
  rewrite (N.compare_antisym x y).
  destruct (x ?= y)%N; cbn [CompOpp]; [apply IH|done|done].
Qed.

Lemma lexCompare_trans (a b c : list N) :
  lexCompare a b <> Gt -> lexCompare b c <> Gt -> lexCompare a c <> Gt.
Proof.
  revert b c. induction a as [|x a IH]; intros [|y b] [|z c];
    cbn [lexCompare]; try done.
  destruct (N.compare_spec x y) as [->|Hxy|Hxy]; [| |done].
  - destruct (N.compare_spec y z) as [->|Hyz|Hyz]; [|done|done].
    apply IH.
  - intros _. destruct (N.compare_spec y z) as [->|Hyz|Hyz]; [| |done]; intros _.
    + by rewrite (proj2 (N.compare_lt_iff x z) Hxy).
    + by rewrite (proj2 (N.compare_lt_iff x z) (N.lt_trans _ _ _ Hxy Hyz)).
Qed.

Variable collationKey : jsstring -> list N.

Abbreviation localeCompare := (localeCompare collationKey).
Abbreviation compareRows := (compareRows collationKey).
Abbreviation workTypes := (workTypes collationKey).
Abbreviation rowLe := (rowLe collationKey).

Lemma localeCompare_antisym (a b : jsstring) :
  0 < localeCompare b a -> localeCompare a b <= 0.
Proof.
  unfold Catalog.localeCompare.
  rewrite (lexCompare_antisym (collationKey a) (collationKey b)).
  destruct (lexCompare (collationKey a) (collationKey b)); cbn; lia.
Qed.

Lemma localeCompare_trans (a b c : jsstring) :
  localeCompare a b <= 0 -> localeCompare b c <= 0 -> localeCompare a c <= 0.
Proof.
  unfold Catalog.localeCompare. intros Hab Hbc.
  pose proof (lexCompare_trans (collationKey a) (collationKey b) (collationKey c)) as H.
  destruct (lexCompare (collationKey a) (collationKey b));
    destruct (lexCompare (collationKey b) (collationKey c));
    destruct (lexCompare (collationKey a) (collationKey c));
    try lia; exfalso; by apply H.
Qed.

Lemma rowLe_trans (a b c : WorkTypeRow) : rowLe a b -> rowLe b c -> rowLe a c.
Proof.
  unfold rowLe. intros [Hab|[Hab Lab]] [Hbc|[Hbc Lbc]]; try (left; lia).
  right. split; [lia|]. by eapply localeCompare_trans.
Qed.

Lemma compareRows_kept_order (a b : WorkTypeRow) :
  kept_order compareRows a b -> rowLe a b.
Proof.
  unfold kept_order, Catalog.compareRows, rowLe. intros H.
  destruct (Z.lt_trichotomy (sortOrder (r_order a)) (sortOrder (r_order b)))
    as [Hlt|[Heq|Hgt]].
  - by left.
  - right. split; [done|]. rewrite !decide_False in H by lia.
    cbn [number_pos] in H. rewrite Z.ltb_ge, Z.ltb_lt in H.
    destruct H; [done|]. by apply localeCompare_antisym.
  - rewrite !decide_True in H by lia.
    cbn [number_pos] in H. rewrite Z.ltb_ge, Z.ltb_lt in H. lia.
Qed.

Lemma workTypes_sorted codesMap templatesMeta :
  StronglySorted rowLe (workTypes codesMap templatesMeta).
Proof.
  apply Sorted_StronglySorted; [intros ???; apply rowLe_trans|].
  eapply (Sorted_weaken (fun _ => True)); [| |apply sort_kept_order].
  - intros x y _ _. apply compareRows_kept_order.
  - by apply Forall_forall.
Qed.

(** *** The merged rows *)

Lemma Map_has_In {V} (m : JsMap V) (k : jsstring) :
  Map_has m k = true <-> In k (List.map fst m).
Proof.
  unfold Map_has, Map_get. induction m as [|[k' v] m IH]; cbn [assoc List.map fst In].
  - split; [discriminate|done].
  - destruct (decide (k' = k)) as [->|Hne]; [by split; [left|]|].
    rewrite IH. split; [by right|]. by intros [?|?].
Qed.

Lemma Set_add_In (ids : list jsstring) (id x : jsstring) :
  In x (Set_add ids id) <-> In x ids \/ x = id.
Proof.
  unfold Set_add. case_bool_decide as Hid.
  - split; [by left|]. intros [?| ->]; [done|]. by apply list_elem_of_In.
  - rewrite in_app_iff. cbn [In]. split.
    + intros [Hx|[Hx|[]]]; [by left|by right].
    + intros [Hx| ->]; [by left|]. right. by left.
Qed.

Lemma Set_add_NoDup (ids : list jsstring) (id : jsstring) :
  NoDup ids -> NoDup (Set_add ids id).
Proof.
  intros Hnd. unfold Set_add. case_bool_decide as Hid; [done|].
  apply NoDup_app. repeat split; [done| |apply NoDup_singleton].
  intros x Hx ->%list_elem_of_singleton. done.
Qed.

Lemma Set_add_all_In {V} (m : JsMap V) (ids : list jsstring) (x : jsstring) :
  In x (foldl (fun ids e => Set_add ids e.1) ids m) <->
  In x ids \/ In x (List.map fst m).
Proof.
  revert ids. induction m as [|[k v] m IH]; intros ids; cbn [foldl List.map In].
  - tauto.
  - rewrite IH, Set_add_In. cbn [fst]. split; intros H; decompose [or] H; auto.
Qed.

Lemma Set_add_all_NoDup {V} (m : JsMap V) (ids : list jsstring) :
  NoDup ids -> NoDup (foldl (fun ids e => Set_add ids e.1) ids m).
Proof.
  revert ids. induction m as [|[k v] m IH]; intros ids Hnd; cbn [foldl]; [done|].
  by apply IH, Set_add_NoDup.
Qed.

Lemma unionIds_In codesMap templatesMeta (id : jsstring) :
  In id (unionIds codesMap templatesMeta) <->
  Map_has codesMap id = true \/ Map_has templatesMeta id = true.
Proof.
  unfold unionIds. rewrite !Set_add_all_In, !Map_has_In. cbn [In]. tauto.
Qed.

Lemma unionIds_NoDup codesMap templatesMeta :
  NoDup (unionIds codesMap templatesMeta).
Proof. unfold unionIds. apply Set_add_all_NoDup, Set_add_all_NoDup, NoDup_nil_2. Qed.

Lemma workTypes_ids codesMap templatesMeta :
  Permutation (List.map r_id (workTypes codesMap templatesMeta))
              (unionIds codesMap templatesMeta).
Proof.
  unfold Catalog.workTypes. rewrite (sort_perm compareRows), List.map_map.
  cbn [rowOf r_id]. by rewrite List.map_id.
Qed.

Lemma workTypes_rowOf codesMap templatesMeta (row : WorkTypeRow) :
  In row (workTypes codesMap templatesMeta) ->
  row = rowOf codesMap templatesMeta (r_id row).
Proof.
  unfold Catalog.workTypes. intros H.
  apply (Permutation_in _ (sort_perm compareRows _)) in H.
  apply in_map_iff in H as (id & <- & _). done.
Qed.

Lemma StronglySorted_lookup {X} (R : X -> X -> Prop) (l : list X) i j x y :
  StronglySorted R l -> (i < j)%nat ->
  l !! i = Some x -> l !! j = Some y -> R x y.
Proof.
  intros Hs. revert i j. induction Hs as [|a l _ IH Ha]; intros i j Hij Hi Hj.
  - done.
  - destruct j as [|j]; [lia|]. cbn in Hj. destruct i as [|i]; cbn in Hi.
    + injection Hi as <-. eapply List.Forall_forall in Ha; [exact Ha|].
      apply list_elem_of_In. by eapply list_elem_of_lookup_2.
    + apply (IH i j); [lia|done|done].
Qed.

Lemma Map_has_false {V} (m : JsMap V) (k : jsstring) :
  Map_has m k = false <-> Map_get m k = None.
Proof. unfold Map_has. destruct (Map_get m k); split; done. Qed.

Lemma Map_get_set {V} (m : JsMap V) (k k' : jsstring) (v : V) :
  Map_get (Map_set m k v) k' = if decide (k = k') then Some v else Map_get m k'.
Proof.
  unfold Map_get. induction m as [|[a b] m IH]; cbn [Map_set assoc].
  - done.
  - destruct (decide (a = k)) as [->|Hak]; cbn [assoc].
    + by destruct (decide (k = k')).
    + destruct (decide (a = k')) as [->|Hak']; [|exact IH].
      by rewrite decide_False.
Qed.

(** The title held for a template is the stored title when that is a
    string, and the identifier of the document otherwise. *)
Lemma metaOfDocs_title (docs : list (jsstring * TemplateData)) id tm :
  Map_get (metaOfDocs docs) id = Some tm ->
  t_id tm = id /\
  exists d, In (id, d) docs /\ t_title tm = default id (td_title d).
Proof.
  unfold metaOfDocs.
  assert (forall acc : JsMap TemplateMeta,
    (forall id tm, Map_get acc id = Some tm ->
       t_id tm = id /\
       exists d, In (id, d) docs /\ t_title tm = default id (td_title d)) ->
    forall rest, (forall e, In e rest -> In e docs) ->
    forall id tm,
      Map_get (foldl (fun m d =>
                 Map_set m d.1
                   {| t_id := d.1; t_title := normStr (td_title d.2) d.1;
                      t_updatedAtLabel := td_updatedAt d.2 |}) acc rest) id = Some tm ->
      t_id tm = id /\
      exists d, In (id, d) docs /\ t_title tm = default id (td_title d)) as Hfold.
  { intros acc Hacc rest. revert acc Hacc.
    induction rest as [|[k d] rest IH]; intros acc Hacc Hsub i t; cbn [foldl].
    - apply Hacc.
    - apply IH; [|intros e He; apply Hsub; by right].
      intros i' t'. rewrite Map_get_set. cbn [fst snd].
      destruct (decide (k = i')) as [<-|_]; [|apply Hacc].
      intros [= <-]. split; [done|]. exists d. split; [|done].
      apply Hsub. by left. }
  apply (Hfold [] ltac:(done) docs ltac:(done)).
Qed.

(** C7, as the code has it. For every code map and template map: the
    rows are keyed by the union of the identifiers, one row each; a row
    whose identifier is only in the template map has source
    [templates], the title held for the template as label and the
    order 999999; the rows are sorted by order ascending, rows of equal
    order by the collation of their labels (an order that is not
    finite counts as 999999); a row that is only in the template map
    stands after every row of the code map whose order is below 999999
    and before every row of the code map whose order is above 999999,
    and against a row of the code map whose order is 999999 the row
    that stands first has the label that does not collate after the
    other's; and the title held for a template is its stored title when
    that is a string, and its identifier otherwise. *)
Theorem catalog_merge_sentinel codesMap templatesMeta :
  let rows := workTypes codesMap templatesMeta in
  (forall id, In id (List.map r_id rows) <->
              Map_has codesMap id = true \/ Map_has templatesMeta id = true) /\
  NoDup (List.map r_id rows) /\
  (forall row tm, In row rows ->
      Map_has codesMap (r_id row) = false ->
      Map_get templatesMeta (r_id row) = Some tm ->
      r_source row = templates /\ r_label row = t_title tm /\
      r_order row = Finite 999999) /\
  StronglySorted rowLe rows /\
  (forall i j trow crow,
      rows !! i = Some trow -> rows !! j = Some crow ->
      Map_has codesMap (r_id trow) = false ->
      Map_has codesMap (r_id crow) = true ->
      sortOrder (r_order crow) < 999999 ->
      (j < i)%nat) /\
  (forall i j trow crow,
      rows !! i = Some trow -> rows !! j = Some crow ->
      Map_has codesMap (r_id trow) = false ->
      Map_has codesMap (r_id crow) = true ->
      999999 < sortOrder (r_order crow) ->
      (i < j)%nat) /\
  (forall i j trow crow,
      rows !! i = Some trow -> rows !! j = Some crow ->
      Map_has codesMap (r_id trow) = false ->
      Map_has codesMap (r_id crow) = true ->
      sortOrder (r_order crow) = 999999 ->
      ((i < j)%nat -> localeCompare (r_label trow) (r_label crow) <= 0) /\
      ((j < i)%nat -> localeCompare (r_label crow) (r_label trow) <= 0)) /\
  (forall docs id tm,
      Map_get (metaOfDocs docs) id = Some tm ->
      exists d, In (id, d) docs /\ t_title tm = default id (td_title d)).
Proof.
  intros rows. subst rows.
  assert (forall i trow,
    workTypes codesMap templatesMeta !! i = Some trow ->
    Map_has codesMap (r_id trow) = false ->
    r_order trow = Finite SENTINEL) as Hsentinel.
  { intros i trow Hi Ht.
    rewrite (workTypes_rowOf codesMap templatesMeta trow).
    - apply Map_has_false in Ht. cbn [rowOf r_order r_id]. by rewrite Ht.
    - apply list_elem_of_In. by eapply list_elem_of_lookup_2. }
  split; [|split; [|split; [|split; [|split; [|split; [|split]]]]]].
  8: { intros docs id tm H. by destruct (metaOfDocs_title docs id tm H). }
  6: { intros i j trow crow Hi Hj Ht Hc Hlt.
       pose proof (Hsentinel i trow Hi Ht) as Htrow.
       destruct (lt_eq_lt_dec i j) as [[Hij|Hij]|Hij]; [done|exfalso|exfalso].
       - subst j. assert (trow = crow) as -> by congruence. congruence.
       - pose proof (StronglySorted_lookup _ _ _ _ _ _
                       (workTypes_sorted codesMap templatesMeta) Hij Hj Hi) as Hle.
         unfold rowLe in Hle. rewrite Htrow in Hle. cbn [sortOrder] in Hle.
         unfold SENTINEL in Hle. lia. }
  6: { intros i j trow crow Hi Hj Ht Hc Heq.
       pose proof (Hsentinel i trow Hi Ht) as Htrow. split; intros Hij.
       - pose proof (StronglySorted_lookup _ _ _ _ _ _
                       (workTypes_sorted codesMap templatesMeta) Hij Hi Hj) as Hle.
         unfold rowLe in Hle. rewrite Htrow in Hle. cbn [sortOrder] in Hle.
         unfold SENTINEL in Hle. lia.
       - pose proof (StronglySorted_lookup _ _ _ _ _ _
                       (workTypes_sorted codesMap templatesMeta) Hij Hj Hi) as Hle.
         unfold rowLe in Hle. rewrite Htrow in Hle. cbn [sortOrder] in Hle.
         unfold SENTINEL in Hle. lia. }
  - intros id. rewrite <- unionIds_In.
    split; apply Permutation_in; [|symmetry]; apply workTypes_ids.
  - rewrite workTypes_ids. apply unionIds_NoDup.
  - intros row tm Hrow Hc Ht. rewrite (workTypes_rowOf _ _ _ Hrow).
    apply Map_has_false in Hc. cbn [rowOf r_source r_label r_order r_id].
    by rewrite Hc, Ht.
  - apply workTypes_sorted.
  - intros i j trow crow Hi Hj Ht Hc Hlt.
    assert (r_order trow = Finite SENTINEL) as Htrow.
    { rewrite (workTypes_rowOf codesMap templatesMeta trow).
      - apply Map_has_false in Ht. cbn [rowOf r_order r_id]. by rewrite Ht.
      - apply list_elem_of_In. by eapply list_elem_of_lookup_2. }
    destruct (lt_eq_lt_dec i j) as [[Hij|Hij]|Hij]; [exfalso|exfalso|done].
    + pose proof (StronglySorted_lookup _ _ _ _ _ _
                    (workTypes_sorted codesMap templatesMeta) Hij Hi Hj) as Hle.
      unfold rowLe in Hle. rewrite Htrow in Hle. cbn [sortOrder] in Hle.
      unfold SENTINEL in Hle. lia.
    + subst j. assert (trow = crow) as -> by congruence. congruence.
Qed.

End CatalogFacts.

(** C7, counterexample. With a code of order 1000000 and a template
    that has no code, the template's row (order 999999) comes first. *)
Lemma catalog_merge_counterexample :
  List.map r_id (workTypes codeUnitKey codes_late templates_only) =
    [js "paint"; js "roof"] /\
  ~ template_only_rows_last codeUnitKey.
Proof.
  split; [by vm_compute|]. intros H.
  specialize (H codes_late templates_only 0%nat 1%nat _ _ eq_refl eq_refl
                eq_refl eq_refl).
  lia.
Qed.

Lemma catalog_merge_sentinel_witness :
  workTypes codeUnitKey codes_early templates_only !! 1%nat =
    Some (rowOf codes_early templates_only (js "paint")) /\
  workTypes codeUnitKey codes_early templates_only !! 0%nat =
    Some (rowOf codes_early templates_only (js "roof")) /\
  Map_has codes_early (js "paint") = false /\
  Map_has codes_early (js "roof") = true /\
  sortOrder (Finite 1) < 999999 /\
  (0 < 1)%nat.
Proof.
  repeat split; try reflexivity.
  exact (proj1 (proj2 (proj2 (proj2 (proj2
           (catalog_merge_sentinel codeUnitKey codes_early templates_only)))))
           1%nat 0%nat _ _ eq_refl eq_refl eq_refl eq_refl eq_refl).
Defined.

(** ** Adding a work type and saving a template *)

Section MaxOrderFacts.

Lemma finiteOrders_filter (rows : list WorkTypeRow) :
  List.filter Number_isFinite (List.map r_order rows) =
  List.map Finite (finiteOrders rows).
Proof.
  induction rows as [|r rows IH]; [done|].
  cbn [List.map List.filter finiteOrders flat_map].
  fold (finiteOrders rows). destruct (r_order r); cbn; by rewrite IH.
Qed.

Lemma finiteOrders_In (rows : list WorkTypeRow) (z : Z) :
  In z (finiteOrders rows) <-> exists r, In r rows /\ r_order r = Finite z.
Proof.
  unfold finiteOrders. rewrite in_flat_map. split.
  - intros (r & Hr & Hz). exists r. split; [done|].
    destruct (r_order r); cbn in Hz; try done. destruct Hz as [->|[]]. done.
  - intros (r & Hr & Hz). exists r. split; [done|]. rewrite Hz. by left.
Qed.

Lemma foldl_number_max (x : Z) (zs : list Z) :
  foldl number_max (Finite x) (List.map Finite zs) = Finite (foldl Z.max x zs).
Proof. revert x. induction zs as [|z zs IH]; intros x; [done|]. cbn. apply IH. Qed.

Lemma foldl_max_ge (x : Z) (zs : list Z) :
  x <= foldl Z.max x zs /\ Forall (fun z => z <= foldl Z.max x zs) zs.
Proof.
  revert x. induction zs as [|z zs IH]; intros x; cbn [foldl].
  - by split; [lia|constructor].
  - destruct (IH (Z.max x z)) as [H1 H2]. split; [lia|].
    constructor; [lia|done].
Qed.

Lemma foldl_max_In (x : Z) (zs : list Z) : In (foldl Z.max x zs) (x :: zs).
Proof.
  revert x. induction zs as [|z zs IH]; intros x; cbn [foldl]; [by left|].
  destruct (IH (Z.max x z)) as [H|H]; [|by right; right].
  destruct (Z.max_spec x z) as [[_ E]|[_ E]]; rewrite E in *.
  - right. by left.
  - by left.
Qed.

(** [maxOrder] is the largest finite order among the rows, and 0 when
    no row has a finite order. *)
Lemma maxOrder_spec (rows : list WorkTypeRow) :
  exists m, maxOrder rows = Finite m /\
    (forall r z, In r rows -> r_order r = Finite z -> z <= m) /\
    ((finiteOrders rows = [] /\ m = 0) \/
     (exists r, In r rows /\ r_order r = Finite m)).
Proof.
  unfold maxOrder. rewrite finiteOrders_filter.
  destruct (finiteOrders rows) as [|x zs] eqn:Hzs.
  - exists 0. split; [done|]. split; [|by left].
    intros r z Hr Hz.
    assert (In z (finiteOrders rows)) as Hin by (apply finiteOrders_In; eauto).
    by rewrite Hzs in Hin.
  - exists (foldl Z.max x zs). split.
    { cbn [List.map]. unfold Math_max. cbn [foldl number_max].
      apply foldl_number_max. }
    split.
    + intros r z Hr Hz.
      assert (In z (x :: zs)) as [<-|Hin]
        by (rewrite <- Hzs; apply finiteOrders_In; eauto).
      * apply foldl_max_ge.
      * destruct (foldl_max_ge x zs) as [_ HF].
        by eapply List.Forall_forall in HF.
    + right. apply finiteOrders_In. rewrite Hzs. apply foldl_max_In.
Qed.

End MaxOrderFacts.

Section PageFacts.

Variable collationKey : jsstring -> list N.

Abbreviation addWorkType := (addWorkType collationKey).
Abbreviation onSaveTemplate := (onSaveTemplate collationKey).
Abbreviation workTypes := (workTypes collationKey).

Lemma Map_get_set_eq {V} (m : JsMap V) (k : jsstring) (v : V) :
  Map_get (Map_set m k v) k = Some v.
Proof. rewrite Map_get_set. by rewrite decide_True. Qed.

(** The maximum that [maxOrder] takes over the merged catalog, read
    off the two maps: it bounds every finite order of a code, it is
    999999 at least when some template has no code, and it is one of
    these, or 0 when there is neither. *)
Lemma maxOrder_catalog (codes : JsMap WorkTypeCodeDoc)
    (metas : JsMap TemplateMeta) (m : Z) :
  maxOrder (workTypes codes metas) = Finite m ->
  (forall id c z, Map_get codes id = Some c -> c_order c = Finite z -> z <= m) /\
  (forall id, Map_has metas id = true -> Map_has codes id = false ->
     999999 <= m) /\
  ((m = 0 /\
    (forall id c z, Map_get codes id = Some c -> c_order c <> Finite z) /\
    (forall id, Map_has metas id = true -> Map_has codes id = true)) \/
   (exists id c, Map_get codes id = Some c /\ c_order c = Finite m) \/
   (m = 999999 /\
    exists id, Map_has metas id = true /\ Map_has codes id = false)).
Proof.
  intros Hm.
  destruct (maxOrder_spec (workTypes codes metas)) as (m' & Hm' & Hub & Hmax).
  assert (m' = m) as -> by congruence.
  assert (forall id, Map_has codes id = true \/ Map_has metas id = true ->
            In (rowOf codes metas id) (workTypes codes metas)) as Hrow.
  { intros id Hid. apply (unionIds_In collationKey) in Hid.
    apply (Permutation_in _ (Permutation_sym (workTypes_ids collationKey codes metas)))
      in Hid.
    apply in_map_iff in Hid as (row & <- & Hin).
    by rewrite <- (workTypes_rowOf collationKey codes metas row Hin). }
  assert (forall id c z, Map_get codes id = Some c -> c_order c = Finite z ->
            z <= m) as Hcodes.
  { intros id c z Hc Hz. apply (Hub (rowOf codes metas id)).
    - apply Hrow. left. unfold Map_has. by rewrite Hc.
    - cbn [rowOf r_order]. by rewrite Hc. }
  assert (forall id, Map_has metas id = true -> Map_has codes id = false ->
            999999 <= m) as Hmetas.
  { intros id Ht Hc. apply (Hub (rowOf codes metas id)).
    - apply Hrow. by right.
    - apply Map_has_false in Hc. cbn [rowOf r_order]. by rewrite Hc. }
  split; [exact Hcodes|]. split; [exact Hmetas|].
  destruct Hmax as [[Hnone ->]|(row & Hin & Horder)].
  - left. split; [done|]. split.
    + intros id c z Hc Hz.
      assert (In z (finiteOrders (workTypes codes metas))) as Hz'.
      { apply finiteOrders_In. exists (rowOf codes metas id). split.
        - apply Hrow. left. unfold Map_has. by rewrite Hc.
        - cbn [rowOf r_order]. by rewrite Hc. }
      rewrite Hnone in Hz'. destruct Hz'.
    + intros id Ht. destruct (Map_has codes id) eqn:Hc; [done|].
      assert (In 999999 (finiteOrders (workTypes codes metas))) as Hz'.
      { apply finiteOrders_In. exists (rowOf codes metas id). split.
        - apply Hrow. by right.
        - apply Map_has_false in Hc. cbn [rowOf r_order]. by rewrite Hc. }
      rewrite Hnone in Hz'. destruct Hz'.
  - right.
    pose proof (workTypes_rowOf collationKey codes metas row Hin) as Hr.
    rewrite Hr in Horder. cbn [rowOf r_order] in Horder.
    destruct (Map_get codes (r_id row)) as [c|] eqn:Hc.
    + left. by exists (r_id row), c.
    + right. injection Horder as <-. split; [done|]. exists (r_id row).
      apply Map_has_false in Hc. split; [|done].
      assert (In (r_id row) (List.map r_id (workTypes codes metas))) as Hid
        by (apply in_map_iff; by exists row).
      apply (Permutation_in _ (workTypes_ids collationKey codes metas)) in Hid.
      apply (unionIds_In collationKey) in Hid as [Hid|Hid]; [congruence|done].
Qed.

(** C8, as the code has it. Adding a work type, when the user is
    signed in, the label entered is not blank and the two writes go
    through: the action returns; under the identifier the code
    reference drew, the code collection holds an entry with the trimmed
    label, [enabled] true and the order [maxOrder + 1], and the template
    collection holds a template with that identifier, the same label as
    title and no steps.  [maxOrder] is the largest finite order among
    the rows of the merged catalog, and 0 when there is none: it is no
    less than the finite order of any code the page holds, it is 999999
    at least when some template has no code, and it is the order of
    some code, or 999999 for a template without code, or 0 when there
    is neither. *)
Theorem addWorkType_creates (w : Client) :
  loggedIn w ->
  truthy (trim (newWorkLabel (page w))) = true ->
  callsSucceed 2 w ->
  let id := autoIds (store w) 0%nat in
  let label := trim (newWorkLabel (page w)) in
  let rows := workTypes (codesMap (page w)) (templatesMeta (page w)) in
  exists w' m,
    addWorkType w = (inr tt, w') /\
    Map_get (codesCol (store w')) id =
      Some {| cd_label := Some label;
              cd_order := Finite (m + 1);
              cd_enabled := Some true;
              cd_createdAt := Some (clock (store w));
              cd_updatedAt := Some (clock (store w)) |} /\
    Map_get (templatesCol (store w')) id =
      Some {| td_workTypeId := Some id;
              td_title := Some label;
              td_steps := Some [];
              td_updatedAt := Some (clock (store w) + 1) |} /\
    maxOrder rows = Finite m /\
    (forall r z, In r rows -> r_order r = Finite z -> z <= m) /\
    ((finiteOrders rows = [] /\ m = 0) \/
     (exists r, In r rows /\ r_order r = Finite m)) /\
    (forall id c z,
        Map_get (codesMap (page w)) id = Some c -> c_order c = Finite z ->
        z <= m) /\
    (forall id,
        Map_has (templatesMeta (page w)) id = true ->
        Map_has (codesMap (page w)) id = false ->
        999999 <= m) /\
    ((m = 0 /\
      (forall id c z,
          Map_get (codesMap (page w)) id = Some c -> c_order c <> Finite z) /\
      (forall id,
          Map_has (templatesMeta (page w)) id = true ->
          Map_has (codesMap (page w)) id = true)) \/
     (exists id c,
         Map_get (codesMap (page w)) id = Some c /\ c_order c = Finite m) \/
     (m = 999999 /\
      exists id, Map_has (templatesMeta (page w)) id = true /\
                 Map_has (codesMap (page w)) id = false)).
Proof.
  intros (c & u & Hu) Hlabel Hfaults id label rows.
  destruct (maxOrder_spec rows) as (m & Hm & Hub & Hmax).
  pose proof (maxOrder_catalog (codesMap (page w)) (templatesMeta (page w)) m Hm)
    as Hcat.
  subst id label rows.
  destruct w as [p [cc tc fl ck ai] g al]. destruct p.
  cbn [page store userUid newWorkLabel codesMap templatesMeta faults clock
       autoIds] in *.
  subst. unfold callsSucceed in Hfaults. cbn [store faults] in Hfaults.
  unfold Page.addWorkType, requireLogin. cbn -[Catalog.workTypes maxOrder trim].
  rewrite Hlabel, Hm. cbn [negb].
  destruct fl as [|[e|] [|[e'|] [|[e''|] fl]]]; cbn in Hfaults;
    try (exfalso; inversion Hfaults as [|? ? Hf1 Hf2]; try discriminate;
         inversion Hf2; discriminate).
  all: eexists _, m; split;
    [ cbv -[Map_set Map_get metaOfDocs trim Z.add]; reflexivity
    | cbn [store codesCol templatesCol];
      rewrite !Map_get_set_eq;
      split; [reflexivity|]; split; [reflexivity|]; split; [reflexivity|];
      split; [exact Hub|]; split; [exact Hmax|]; exact Hcat ].
Qed.

(** *** What an action leaves alone *)

Lemma keeps_ret {A} (a : A) : keeps (ret a).
Proof. done. Qed.

Lemma keeps_throw {A} (e : jsstring) : keeps (@throw Client A e).
Proof. done. Qed.

Lemma keeps_get : keeps (@get Client).
Proof. done. Qed.

Lemma keeps_modify (f : Client -> Client) :
  (forall w, editorState (f w) = editorState w) -> keeps (modify f).
Proof. intros Hf w. apply Hf. Qed.

Lemma keeps_bind {A B} (m : Eff Client A) (k : A -> Eff Client B) :
  keeps m -> (forall a, keeps (k a)) -> keeps (bind m k).
Proof.
  intros Hm Hk w. unfold bind. specialize (Hm w).
  destruct (m w) as [[e|a] w1]; cbn [snd] in *; [done|].
  by rewrite (Hk a w1).
Qed.

Lemma keeps_catch {A} (m : Eff Client A) (h : jsstring -> Eff Client A) :
  keeps m -> (forall e, keeps (h e)) -> keeps (catch m h).
Proof.
  intros Hm Hh w. unfold catch. specialize (Hm w).
  destruct (m w) as [[e|a] w1]; cbn [snd] in *; [|done].
  by rewrite (Hh e w1).
Qed.

Lemma keeps_finally {A} (m : Eff Client A) (f : Eff Client unit) :
  keeps m -> keeps f -> keeps (finally m f).
Proof.
  intros Hm Hf w. unfold finally. specialize (Hm w).
  destruct (m w) as [r w1]. specialize (Hf w1).
  destruct (f w1) as [[e|[]] w2]; cbn [snd] in *; congruence.
Qed.

Lemma keeps_remote : keeps remote.
Proof. intros w. unfold remote. by destruct (faults (store w)) as [|[e|] ?]. Qed.

Lemma keeps_withIds {A} (m : Eff Supply A) : keeps (withIds m).
Proof. intros w. unfold withIds. by destruct (m (ids w)). Qed.

Lemma keeps_commit (f : Z -> Firestore -> Firestore) : keeps (commit f).
Proof. by apply keeps_modify. Qed.

Lemma keeps_alert (a : Alert) : keeps (alert a).
Proof. by apply keeps_modify. Qed.

Lemma keeps_setSaving (b : bool) : keeps (setSaving b).
Proof. by apply keeps_modify. Qed.

Lemma keeps_setLastLoadedAt (l : LoadedAt) : keeps (setLastLoadedAt l).
Proof. by apply keeps_modify. Qed.

Lemma keeps_setTemplatesMeta (m : JsMap TemplateMeta) : keeps (setTemplatesMeta m).
Proof. by apply keeps_modify. Qed.

Lemma keeps_setLoadingTemplatesMeta (b : bool) : keeps (setLoadingTemplatesMeta b).
Proof. by apply keeps_modify. Qed.

Ltac keeps_step :=
  first
    [ apply keeps_bind; [|intros ?]
    | apply keeps_catch; [|intros ?]
    | apply keeps_finally
    | apply keeps_ret | apply keeps_throw | apply keeps_get
    | apply keeps_remote | apply keeps_withIds | apply keeps_commit
    | apply keeps_alert | apply keeps_setSaving | apply keeps_setLastLoadedAt
    | apply keeps_setTemplatesMeta | apply keeps_setLoadingTemplatesMeta
    | match goal with
      | |- keeps (if ?b then _ else _) => destruct b
      | |- keeps (match ?x with _ => _ end) => destruct x
      end ].

Lemma keeps_requireLogin : keeps requireLogin.
Proof. unfold requireLogin. repeat keeps_step. Qed.

Lemma keeps_loadTemplatesMeta : keeps loadTemplatesMeta.
Proof. unfold loadTemplatesMeta. repeat keeps_step. Qed.

Lemma keeps_onSaveTemplate : keeps onSaveTemplate.
Proof.
  unfold Page.onSaveTemplate.
  apply keeps_bind; [apply keeps_requireLogin|intros ok].
  destruct ok; cbn [negb]; [|apply keeps_ret].
  repeat first [ apply keeps_loadTemplatesMeta | keeps_step ].
Qed.

Lemma returns_bind {A B} (m : Eff Client A) (k : A -> Eff Client B) :
  returns m -> (forall a, returns (k a)) -> returns (bind m k).
Proof.
  intros Hm Hk w. unfold bind. destruct (Hm w) as [a Ha].
  destruct (m w) as [[e|a'] w1]; cbn [fst] in Ha; [done|]. apply Hk.
Qed.

Lemma returns_catch {A} (m : Eff Client A) (h : jsstring -> Eff Client A) :
  (forall e, returns (h e)) -> returns (catch m h).
Proof.
  intros Hh w. unfold catch. destruct (m w) as [[e|a] w1]; [apply Hh|by exists a].
Qed.

Lemma returns_finally {A} (m : Eff Client A) (f : Eff Client unit) :
  returns m -> returns f -> returns (finally m f).
Proof.
  intros Hm Hf w. unfold finally. destruct (Hm w) as [a Ha].
  destruct (m w) as [r w1]. destruct (Hf w1) as [u Hu].
  destruct (f w1) as [[e|[]] w2]; cbn [fst] in *; [done|by exists a].
Qed.

Lemma returns_modify (f : Client -> Client) : returns (modify f).
Proof. intros w. by exists tt. Qed.

Lemma returns_requireLogin : returns requireLogin.
Proof.
  intros w. unfold requireLogin, bind, get.
  destruct (userUid (page w)) as [[|c u]|]; by eexists.
Qed.

Lemma returns_onSaveTemplate : returns onSaveTemplate.
Proof.
  unfold Page.onSaveTemplate.
  apply returns_bind; [apply returns_requireLogin|intros ok].
  destruct ok; cbn [negb]; [|by intros w; exists tt].
  apply returns_bind; [by intros w; exists w|intros w0].
  apply returns_bind.
  { intros w. unfold withIds.
    destruct (normalizeStepsForSave_returns (steps (page w0)) (ids w))
      as (m & g' & _ & -> & _). by eexists. }
  intros fixedSteps. apply returns_bind; [apply returns_modify|intros _].
  apply returns_finally; [|apply returns_modify].
  apply returns_catch. intros e. apply returns_modify.
Qed.

Lemma onSaveTemplate_rejected (w : Client) msg rest :
  loggedIn w -> faults (store w) = Some msg :: rest ->
  let w' := (onSaveTemplate w).2 in
  page w' = notSaving (page w) /\
  codesCol (store w') = codesCol (store w) /\
  templatesCol (store w') = templatesCol (store w) /\
  alerts w' = alerts w ++ [AlertSaveFailed].
Proof.
  intros (c & u & Hu) Hf.
  destruct w as [p [cc tc fl ck ai] g al]. destruct p.
  cbn [page store userUid faults] in *. subst.
  destruct (normalizeStepsForSave_returns steps0 g) as (m & g' & _ & Hs & _).
  unfold Page.onSaveTemplate, requireLogin, withIds.
  cbv -[normalizeStepsForSave titleOrFallback trim Map_has persisted app].
  rewrite Hs.
  cbv -[normalizeStepsForSave titleOrFallback trim Map_has persisted app].
  done.
Qed.

(** C9. Saving leaves the editor's state alone: [onSaveTemplate]
    always returns, and whatever the remote calls do, the step list and
    the title are afterwards what they were before.  When the write of
    the template is rejected, nothing of the page has changed but
    [saving], which is [false], neither collection has changed, and the
    failure has been announced. *)
Theorem save_keeps_editor_state (w : Client) :
  let w' := (onSaveTemplate w).2 in
  (onSaveTemplate w).1 = inr tt /\
  steps (page w') = steps (page w) /\
  title (page w') = title (page w) /\
  (forall msg rest,
      loggedIn w -> faults (store w) = Some msg :: rest ->
      page w' = notSaving (page w) /\
      codesCol (store w') = codesCol (store w) /\
      templatesCol (store w') = templatesCol (store w) /\
      alerts w' = alerts w ++ [AlertSaveFailed]).
Proof.
  intros w'. subst w'. split; [|split; [|split]].
  - destruct (returns_onSaveTemplate w) as [[] H]. exact H.
  - pose proof (keeps_onSaveTemplate w) as H. unfold editorState in H. congruence.
  - pose proof (keeps_onSaveTemplate w) as H. unfold editorState in H. congruence.
  - intros msg rest Hlogin Hf. by apply (onSaveTemplate_rejected w msg rest).
Qed.

End PageFacts.

(** *** The two actions on a concrete page *)

Lemma addWorkType_creates_witness :
  loggedIn (client0 []) /\
  truthy (trim (newWorkLabel (page (client0 [])))) = true /\
  callsSucceed 2 (client0 []) /\
  exists w' m,
    addWorkType codeUnitKey (client0 []) = (inr tt, w') /\
    Map_get (codesCol (store w')) (js "auto" ++ [0%N]) =
      Some {| cd_label := Some (js "wall");
              cd_order := Finite (m + 1);
              cd_enabled := Some true;
              cd_createdAt := Some 100;
              cd_updatedAt := Some 100 |}.
Proof.
  assert (loggedIn (client0 [])) as H1 by (do 2 eexists; reflexivity).
  assert (truthy (trim (newWorkLabel (page (client0 [])))) = true) as H2
    by reflexivity.
  assert (callsSucceed 2 (client0 [])) as H3 by constructor.
  split; [exact H1|]. split; [exact H2|]. split; [exact H3|].
  destruct (addWorkType_creates codeUnitKey (client0 []) H1 H2 H3)
    as (w' & m & Hw & Hc & _).
  exists w', m. split; [exact Hw|exact Hc].
Defined.

(** C8, counterexample. The page holds one code, of order 1, and one
    template that has no code; the code collection holds that one code,
    of order 1.  The work type added gets the order 1000000, not 2: the
    template without code counts with 999999. *)
Lemma addWorkType_counterexample :
  codesMap (page (client0 [])) =
    [ (js "roof", {| c_label := js "roof"; c_order := Finite 1;
                     c_enabled := true |}) ] /\
  List.map (fun e => cd_order e.2) (codesCol (store (client0 []))) = [Finite 1] /\
  Map_get (codesCol (store (addWorkType codeUnitKey (client0 [])).2))
          (js "auto" ++ [0%N]) =
    Some {| cd_label := Some (js "wall"); cd_order := Finite 1000000;
            cd_enabled := Some true; cd_createdAt := Some 100;
            cd_updatedAt := Some 100 |} /\
  Finite 1000000 <> Finite (1 + 1).
Proof.
  split; [reflexivity|]. split; [reflexivity|]. split; [by vm_compute|].
  discriminate.
Qed.

Lemma save_keeps_editor_state_witness :
  loggedIn (client0 [Some (js "unavailable")]) /\
  faults (store (client0 [Some (js "unavailable")])) = [Some (js "unavailable")] /\
  page (onSaveTemplate codeUnitKey (client0 [Some (js "unavailable")])).2 =
    notSaving page0.
Proof.
  assert (loggedIn (client0 [Some (js "unavailable")])) as H1 by (do 2 eexists; reflexivity).
  split; [exact H1|]. split; [reflexivity|].
  destruct (save_keeps_editor_state codeUnitKey (client0 [Some (js "unavailable")]))
    as (_ & _ & _ & H).
  exact (proj1 (H (js "unavailable") [] H1 eq_refl)).
Defined.

(** ** The privileged endpoints *)

Section ServerFacts.

Lemma requireAdminFromRequest_state (req : Request) (w : World) :
  (requireAdminFromRequest req w).2 = w.
Proof.
  unfold requireAdminFromRequest. destruct (matchBearer _); [|done].
  unfold bind, get, liftResult. destruct (verifyIdToken w l); [done|].
  cbn. by destruct (bool_decide _).
Qed.

(** The gate lets a request through exactly when the header carries a
    bearer credential that the identity provider resolves to a
    principal of the allow-list. *)
Lemma requireAdminFromRequest_inr (req : Request) (w : World) uid w' :
  requireAdminFromRequest req w = (inr uid, w') <->
  w' = w /\
  exists token,
    matchBearer (default [] (authorization req)) = Some token /\
    verifyIdToken w token = inr uid /\
    uid ∈ parseAdminUids w.
Proof.
  unfold requireAdminFromRequest.
  destruct (matchBearer _) as [token|].
  2: { split; [done|]. by intros (_ & ? & ? & _). }
  unfold bind, get, liftResult. destruct (verifyIdToken w token) as [e|u] eqn:Hv.
  { split; [done|]. intros (_ & t & [= <-] & Ht & _).
    rewrite Hv in Ht. discriminate. }
  cbn. case_bool_decide as Hin.
  - split.
    + intros [= <- <-]. split; [done|]. by exists token.
    + intros (-> & t & [= <-] & Ht & _). rewrite Hv in Ht. by injection Ht as ->.
  - split; [done|]. intros (_ & t & [= <-] & Ht & Hu).
    rewrite Hv in Ht. injection Ht as ->. done.
Qed.

Lemma member_nonNull (v : value) (k : jsstring) :
  nonNull v -> member v k = ret (prop v k).
Proof. by destruct v. Qed.



Lemma guardedCatch_status (msg : jsstring) (w : World) :
  exists st, guardedCatch msg w = (inr (json_error st msg), w) /\ st <> 400.
Proof.
  unfold guardedCatch. destruct (decide _); [by eexists|].
  destruct (decide _); by eexists.
Qed.

Lemma is_ok_json_error (st : Z) (msg : jsstring) : is_ok (json_error st msg) = false.
Proof. done. Qed.

(** *** Billing status *)

Lemma is_string_true (v : value) (s : jsstring) :
  is_string v s = true <-> v = VString s.
Proof.
  destruct v; cbn; try (split; discriminate).
  rewrite bool_decide_eq_true. split; congruence.
Qed.



(** *** Cancel at period end *)

Lemma wp_dbcall (Q : jsstring + unit -> World -> Prop) w :
  (forall msg, Q (inl msg) (advance w)) -> Q (inr tt) (advance w) ->
  wp dbcall Q w.
Proof.
  intros Hfail Hok. unfold wp, dbcall, advance in *.
  destruct (db_faults w) as [|[msg|] fl]; [exact Hok|apply Hfail|exact Hok].
Qed.

Lemma wp_liftResult {A} (r : jsstring + A) (Q : jsstring + A -> World -> Prop) w :
  Q r w -> wp (liftResult r) Q w.
Proof. by destruct r. Qed.

Lemma wp_member (v : value) (k : jsstring) (Q : jsstring + value -> World -> Prop) w :
  (~ nonNull v -> Q (inl null_property_error) w) ->
  (nonNull v -> Q (inr (prop v k)) w) ->
  wp (member v k) Q w.
Proof. destruct v; cbn; intros H1 H2; first [by apply H1; tauto | by apply H2]. Qed.

Ltac wp_reject :=
  cbv beta iota;
  repeat first [apply wp_ret | apply wp_throw]; cbv beta iota;
  let Hok := fresh in
  intros ? [= <-] Hok; rewrite is_ok_json_error in Hok; discriminate Hok.

Lemma toBoolOrNull_Some (v : value) (b : bool) :
  toBoolOrNull v = Some b -> v = VBool b.
Proof. destruct v; cbn; congruence. Qed.

Lemma prop_not_object (u : value) (k : jsstring) :
  isObj u = false -> prop u k = VUndefined.
Proof. by destruct u. Qed.

Lemma cancel_wp w req :
  wp (POST_cancel_at_period_end req) (rejected_or (mirrored w req)) w.
Proof.
  unfold POST_cancel_at_period_end. apply wp_catch.
  destruct (matchBearer _) as [token|] eqn:Htok; [|wp_reject].
  apply wp_bind, wp_get. cbv beta iota.
  apply wp_bind, wp_liftResult.
  destruct (verifyIdToken w token) as [e|du] eqn:Hv; [wp_reject|].
  destruct (truthy du) eqn:Hdu; cbn [negb]; [|wp_reject].
  apply wp_bind, wp_liftResult.
  destruct (body req) as [e|b] eqn:Hb; [wp_reject|].
  apply wp_bind, wp_member; [intros _; wp_reject|intros Hnn].
  apply wp_bind, wp_member; [done|intros _].
  destruct (toBoolOrNull _) as [flag|] eqn:Hflag; [|wp_reject].
  apply toBoolOrNull_Some in Hflag.
  destruct (truthy (toStr _)) eqn:Huid; cbn [negb]; [|wp_reject].
  apply wp_bind. unfold findMemberRefByUid.
  apply wp_bind, wp_dbcall; [intros msg; wp_reject|].
  apply wp_bind, wp_get. cbv beta iota.
  assert (forall ref w1,
    reNovaMember w1 = reNovaMember w ->
    subscriptions_update w1 = subscriptions_update w ->
    stripeCalls w1 = stripeCalls w ->
    wp (dbcall >>
        let* w0 := get in
        let billing := Map_get (reNovaMember w0) ref ≫= m_billing in
        let stripeSubscriptionId :=
          match billing with
          | Some b => toStr (b_stripeSubscriptionId b)
          | None => []
          end in
        if negb (truthy stripeSubscriptionId)
        then ret (json_error 400 (js "stripeSubscriptionId_missing")) else
        getStripe >>
        let* u := stripe_update stripeSubscriptionId flag in
        let cancel :=
          if isObj u then toBoolOrNull (prop u (js "cancel_at_period_end")) else None in
        let cpeSec :=
          if isObj u then toNumOrNull (prop u (js "current_period_end")) else None in
        let currentPeriodEndMs :=
          match cpeSec with
          | Some n => Some (number_mul n (Finite 1000))
          | None => None
          end in
        set_member ref (mirror cancel currentPeriodEndMs) >>
        ret (ok_response
               [ (js "uid", VString (toStr (prop b (js "uid"))));
                 (js "stripeSubscriptionId", VString stripeSubscriptionId);
                 (js "cancelAtPeriodEnd", ofBool cancel);
                 (js "currentPeriodEndMs", ofNum currentPeriodEndMs) ]))
       (fun r s1 => match r with
                    | inl e => wp (ret (json_error 500 e)) (rejected_or (mirrored w req)) s1
                    | inr a => rejected_or (mirrored w req) (inr a) s1
                    end) w1) as Htail.
  { intros ref w1 Hmem Hsub Hcalls.
    apply wp_bind, wp_dbcall; [intros msg; wp_reject|].
    apply wp_bind, wp_get. cbv beta iota zeta.
    change (reNovaMember (advance w1)) with (reNovaMember w1). rewrite Hmem.
    destruct (Map_get (reNovaMember w) ref ≫= m_billing) as [B|] eqn:HB;
      [|wp_reject].
    destruct (truthy (toStr (b_stripeSubscriptionId B))) eqn:Hs; cbn [negb];
      [|wp_reject].
    apply wp_bind. unfold getStripe. apply wp_bind, wp_get. cbv beta iota.
    destruct (STRIPE_SECRET_KEY (advance w1)) as [key|]; [|wp_reject].
    destruct (truthy (trim key)); [|wp_reject].
    apply wp_ret. apply wp_bind. unfold stripe_update.
    apply wp_bind, wp_modify. apply wp_bind, wp_get. cbv beta iota.
    apply wp_liftResult. cbn [subscriptions_update advance with_db].
    rewrite Hsub.
    destruct (subscriptions_update w (toStr (b_stripeSubscriptionId B)) flag)
      as [e|u] eqn:Hu; [wp_reject|].
    apply wp_bind. unfold set_member. apply wp_bind, wp_dbcall; [intros msg; wp_reject|].
    apply wp_modify. apply wp_ret.
    intros resp _ _. exists b, flag, ref, B, u.
    repeat (split; [done|]). split.
    { cbn [stripeCalls advance with_db]. by rewrite Hcalls. }
    cbn [reNovaMember advance with_db]. unfold merged.
    rewrite Map_get_set_eq. eexists _, _. split; [reflexivity|].
    split; [reflexivity|]. cbn [mirror b_cancelAtPeriodEnd b_currentPeriodEndMs].
    destruct (isObj u) eqn:Hobj.
    - split; [done|]. by destruct (prop u (js "current_period_end")).
    - by rewrite !prop_not_object. }
  change (reNovaMember (advance w)) with (reNovaMember w).
  destruct (Map_has (reNovaMember w) _) eqn:Hhas.
  - apply wp_ret. by apply Htail.
  - apply wp_bind, wp_dbcall; [intros msg; wp_reject|].
    apply wp_bind, wp_get. cbv beta iota. apply wp_ret.
    destruct (List.find _ _) as [[ref d]|]; cbn [fmap option_fmap option_map fst];
      [|wp_reject].
    by apply Htail.
Qed.

(** C5. Billing mirror authority: whenever the cancel-at-period-end
    endpoint answers [ok: true], it has asked the billing provider once,
    and the member's [billing] holds, for [cancelAtPeriodEnd], the
    provider's [cancel_at_period_end] (or [null] when that is not a
    boolean) and, for [currentPeriodEndMs], the provider's
    [current_period_end] times 1000 (or [null] when that is not a
    number); the flag of the request only went to the provider. *)
Theorem billing_mirror_authority (w : World) (req : Request) resp w' :
  POST_cancel_at_period_end req w = (inr resp, w') ->
  is_ok resp = true ->
  exists b flag ref B u,
    body req = inr b /\
    prop b (js "cancelAtPeriodEnd") = VBool flag /\
    Map_get (reNovaMember w) ref ≫= m_billing = Some B /\
    subscriptions_update w (toStr (b_stripeSubscriptionId B)) flag = inr u /\
    stripeCalls w' = stripeCalls w ++ [(toStr (b_stripeSubscriptionId B), flag)] /\
    exists d' B',
      Map_get (reNovaMember w') ref = Some d' /\
      m_billing d' = Some B' /\
      b_cancelAtPeriodEnd B' =
        ofBool (toBoolOrNull (prop u (js "cancel_at_period_end"))) /\
      b_currentPeriodEndMs B' = secondsToMs (prop u (js "current_period_end")).
Proof.
  intros H Hok.
  exact (wp_run _ _ _ _ _ (cancel_wp w req) H resp eq_refl Hok).
Qed.

(** *** The identity gate *)

Lemma gate_missing (req : Request) (w : World) :
  matchBearer (default [] (authorization req)) = None ->
  requireAdminFromRequest req w = (inl (js "missing_authorization"), w).
Proof. unfold requireAdminFromRequest. by intros ->. Qed.

Lemma gate_invalid (req : Request) (w : World) token e :
  matchBearer (default [] (authorization req)) = Some token ->
  verifyIdToken w token = inl e ->
  requireAdminFromRequest req w = (inl e, w).
Proof.
  unfold requireAdminFromRequest. intros -> Hv.
  unfold bind, get, liftResult. by rewrite Hv.
Qed.

Lemma gate_not_admin (req : Request) (w : World) token uid :
  matchBearer (default [] (authorization req)) = Some token ->
  verifyIdToken w token = inr uid ->
  uid ∉ parseAdminUids w ->
  requireAdminFromRequest req w = (inl (js "not_admin"), w).
Proof.
  unfold requireAdminFromRequest. intros -> Hv Hu.
  unfold bind, get, liftResult. rewrite Hv. cbn.
  by rewrite bool_decide_eq_false_2.
Qed.

(** C6, as the code has it. Member creation and billing status pass
    the identity gate first: without a bearer credential in the header
    they answer 401, with a credential the identity provider rejects
    they answer with the provider's error, and for a principal outside
    the allow-list they answer 403, each time without any effect.  The
    cancel-at-period-end endpoint answers 401 without a bearer
    credential and 500 for a credential the provider rejects, without
    any effect; it does not consult the allow-list. *)
Theorem identity_gate_coverage (w : World) (req : Request) :
  let header := default [] (authorization req) in
  (authorization req = None -> matchBearer header = None) /\
  (matchBearer header = None ->
     POST_create_user req w =
       (inr (json_error 401 (js "missing_authorization")), w) /\
     POST_billing_status req w =
       (inr (json_error 401 (js "missing_authorization")), w) /\
     POST_cancel_at_period_end req w =
       (inr (json_error 401 (js "UNAUTHORIZED")), w)) /\
  (forall token e,
     matchBearer header = Some token -> verifyIdToken w token = inl e ->
     (exists st, POST_create_user req w = (inr (json_error st e), w)) /\
     (exists st, POST_billing_status req w = (inr (json_error st e), w)) /\
     POST_cancel_at_period_end req w = (inr (json_error 500 e), w)) /\
  (forall token uid,
     matchBearer header = Some token -> verifyIdToken w token = inr uid ->
     uid ∉ parseAdminUids w ->
     POST_create_user req w = (inr (json_error 403 (js "not_admin")), w) /\
     POST_billing_status req w = (inr (json_error 403 (js "not_admin")), w)).
Proof.
  intros header. subst header. split; [|split; [|split]].
  - by intros ->.
  - intros Hm. pose proof (gate_missing req w Hm) as Hg. repeat split.
    + unfold POST_create_user, catch. by rewrite (bind_throw _ _ _ _ _ Hg).
    + unfold POST_billing_status, catch. by rewrite (bind_throw _ _ _ _ _ Hg).
    + unfold POST_cancel_at_period_end, catch. by rewrite Hm.
  - intros token e Hm Hv. pose proof (gate_invalid req w token e Hm Hv) as Hg.
    destruct (guardedCatch_status e w) as (st & Hst & _). repeat split.
    + exists st. unfold POST_create_user, catch.
      by rewrite (bind_throw _ _ _ _ _ Hg).
    + exists st. unfold POST_billing_status, catch.
      by rewrite (bind_throw _ _ _ _ _ Hg).
    + unfold POST_cancel_at_period_end, catch. rewrite Hm.
      unfold bind, get, liftResult. by rewrite Hv.
  - intros token uid Hm Hv Hu.
    pose proof (gate_not_admin req w token uid Hm Hv Hu) as Hg. split.
    + unfold POST_create_user, catch. by rewrite (bind_throw _ _ _ _ _ Hg).
    + unfold POST_billing_status, catch. by rewrite (bind_throw _ _ _ _ _ Hg).
Qed.

End ServerFacts.

(** *** The endpoints in a concrete world *)

(** C6, counterexample. The principal [user1] is not in the allow-list,
    yet the cancel-at-period-end endpoint serves the request and calls
    the billing provider; and the member list is served to a request
    without an [Authorization] header. *)
Lemma identity_gate_counterexample :
  verifyIdToken world0 (js "tokU") = inr (js "user1") /\
  bool_decide (js "user1" ∈ parseAdminUids world0) = false /\
  (exists resp w',
      POST_cancel_at_period_end cancel_by_user world0 = (inr resp, w') /\
      is_ok resp = true /\
      stripeCalls w' = [(js "sub_1", true)]) /\
  (exists resp w',
      POST_members_list anonymous world0 = (inr resp, w') /\
      is_ok resp = true).
Proof.
  split; [by vm_compute|]. split; [by vm_compute|].
  split; eexists _, _; by vm_compute.
Qed.

Lemma identity_gate_coverage_witness :
  matchBearer (default [] (authorization cancel_by_user)) = Some (js "tokU") /\
  verifyIdToken world0 (js "tokU") = inr (js "user1") /\
  (js "user1" ∉ parseAdminUids world0) /\
  POST_create_user cancel_by_user world0 =
    (inr (json_error 403 (js "not_admin")), world0).
Proof.
  assert (js "user1" ∉ parseAdminUids world0) as Hu
    by (apply (proj1 (bool_decide_eq_false _)); by vm_compute).
  split; [reflexivity|]. split; [reflexivity|]. split; [exact Hu|].
  destruct (identity_gate_coverage world0 cancel_by_user) as (_ & _ & _ & H).
  exact (proj1 (H (js "tokU") (js "user1") eq_refl eq_refl Hu)).
Defined.

Lemma billing_mirror_authority_witness :
  exists resp w',
    POST_cancel_at_period_end cancel_by_user world0 = (inr resp, w') /\
    is_ok resp = true /\
    mirrored world0 cancel_by_user resp w'.
Proof.
  destruct (POST_cancel_at_period_end cancel_by_user world0) as [r w'] eqn:Hrun.
  assert (exists resp, r = inr resp /\ is_ok resp = true) as (resp & -> & Hok).
  { vm_compute in Hrun. injection Hrun as <- _. eexists. by split. }
  exists resp, w'. split; [reflexivity|]. split; [exact Hok|].
  exact (billing_mirror_authority world0 cancel_by_user resp w' Hrun Hok).
Defined.

(** The client asks for [true]; the provider answers [false]; [false]
    is what the member's record holds. *)
Example mirror_overrides_request :
  prop (VObject [ (js "uid", VString (js "user1"));
                  (js "cancelAtPeriodEnd", VBool true) ])
       (js "cancelAtPeriodEnd") = VBool true /\
  (Map_get (reNovaMember (POST_cancel_at_period_end cancel_by_user world0).2)
           (js "user1") ≫= m_billing) =
  Some {| b_mode := VString (js "paid");
          b_status := VString (js "active");
          b_stripeCustomerId := VString (js "cus_1");
          b_stripeSubscriptionId := VString (js "sub_1");
          b_cancelAtPeriodEnd := VBool false;
          b_currentPeriodEndMs := VNumber (Finite 1700000000000);
          b_updatedAt := VTimestamp 50 |}.
Proof. by vm_compute. Qed.


(** An unknown mode is stored as ["paid"], a status that is not a
    string as ["inactive"], a missing identifier as the empty string. *)
Example billing_status_invalid_enums :
  (POST_billing_status billing_request world0).1 = inr (ok_response []) /\
  (Map_get (renovaUsers (POST_billing_status billing_request world0).2)
           (js "user9") ≫= m_billing) =
  Some {| b_mode := VString (js "paid");
          b_status := VString (js "inactive");
          b_stripeCustomerId := VString [];
          b_stripeSubscriptionId := VString [];
          b_cancelAtPeriodEnd := VUndefined;
          b_currentPeriodEndMs := VUndefined;
          b_updatedAt := VTimestamp 50 |}.
Proof. by vm_compute. Qed.

(** * Further properties *)

(** ** The step-list editor, operation by operation *)

Section StepListMore.

Lemma mapM_pure {S A B} (f : A -> Eff S B) (h : A -> B) (l : list A) s :
  Forall (fun x => forall s, f x s = (inr (h x), s)) l ->
  mapM f l s = (inr (List.map h l), s).
Proof.
  induction 1 as [|x l Hx _ IH]; cbn [mapM List.map]; [done|].
  rewrite (bind_run _ _ _ _ _ (Hx s)), (bind_run _ _ _ _ _ IH). done.
Qed.

Lemma imap_map_face (f g : nat -> Step -> Step) (l n : list Step) :
  (forall i s t, face s = face t -> f i s = g i t) ->
  List.map face l = List.map face n -> imap f l = imap g n.
Proof.
  intros Hf. revert f g Hf n.
  induction l as [|s l IH]; intros f g Hf [|t n] Hm; try discriminate; [done|].
  cbn [List.map] in Hm. injection Hm as Hi Hn Hm. cbn [imap]. f_equal.
  - apply Hf. unfold face. by rewrite Hi, Hn.
  - apply IH; [|done]. intros i s' t' E. by apply Hf.
Qed.

Lemma withPosition_face (i : nat) (s t : Step) :
  face s = face t -> withPosition i s = withPosition i t.
Proof. unfold face, withPosition. by intros [= -> ->]. Qed.

(** With identifiers everywhere, renumbering draws no new identifier
    and only rewrites the orders. *)
Lemma renumberByArrayOrder_wellIdentified (steps : list Step) (g : Supply) :
  wellIdentified steps ->
  renumberByArrayOrder steps g = (inr (imap withPosition steps), g).
Proof.
  intros Hid. unfold renumberByArrayOrder.
  set (h := fun s => {| s_id := s_id s; s_name := s_name s;
                        s_order := finite_or_zero (s_order s) |}).
  assert (Forall (fun x => forall s, normalizeStep x s = (inr (h x), s)) steps)
    as Hpure.
  { eapply Forall_impl; [exact Hid|]. intros s Hs g0.
    unfold normalizeStep. by rewrite Hs. }
  rewrite (bind_run _ _ _ _ _ (mapM_pure normalizeStep h steps g Hpure)).
  unfold ret. do 2 f_equal. apply imap_map_face.
  - intros i s t. apply withPosition_face.
  - rewrite List.map_map. by apply List.map_ext.
Qed.

Lemma imap_face (l : list Step) :
  List.map face (imap withPosition l) = List.map face l.
Proof. by apply (imap_keeps face). Qed.

Lemma wellIdentified_faces (l n : list Step) :
  List.map face l = List.map face n -> wellIdentified n -> wellIdentified l.
Proof.
  unfold wellIdentified. revert n.
  induction l as [|s l IH]; intros [|t n] Hm Hn; try discriminate; [constructor|].
  cbn [List.map] in Hm. injection Hm as Hi _ Hm. inversion Hn; subst.
  constructor; [|by eapply IH]. by rewrite Hi.
Qed.

Lemma wellIdentified_imap (l : list Step) :
  wellIdentified l -> wellIdentified (imap withPosition l).
Proof. apply wellIdentified_faces, imap_face. Qed.

Lemma wellIdentified_filter (p : Step -> bool) (l : list Step) :
  wellIdentified l -> wellIdentified (List.filter p l).
Proof.
  unfold wellIdentified. rewrite !List.Forall_forall.
  intros H s Hs. apply filter_In in Hs as [Hs _]. by apply H.
Qed.

Lemma renumberByArrayOrder_identifies (steps : list Step) (g : Supply) l g' :
  renumberByArrayOrder steps g = (inr l, g') -> wellIdentified l.
Proof.
  intros H. destruct (renumberByArrayOrder_returns steps g)
    as (l0 & g0 & H0 & _ & _ & HF).
  assert (l0 = l) as <- by congruence.
  unfold wellIdentified. clear -HF.
  induction HF as [|x y ? ? [Hy _] _ IH]; by constructor.
Qed.

Lemma arrayMove_perm {A} (l : list A) (from to : nat) :
  Permutation (arrayMove l from to) l.
Proof.
  unfold arrayMove. destruct (l !! from) as [x|] eqn:Hx; [|done].
  etransitivity; [symmetry; apply Permutation_middle|].
  rewrite take_drop. symmetry. by apply delete_Permutation.
Qed.

Lemma arrayMove_lookup {A} (l : list A) (from to : nat) :
  (from < length l)%nat -> (to < length l)%nat ->
  arrayMove l from to !! to = l !! from.
Proof.
  intros Hfrom Hto. unfold arrayMove.
  destruct (l !! from) as [x|] eqn:Hx.
  - assert (length (take to (delete from l)) = to) as Hlen.
    { rewrite length_take, length_delete by (by eexists). lia. }
    rewrite lookup_app_r by lia. by rewrite Hlen, Nat.sub_diag.
  - apply lookup_ge_None in Hx. lia.
Qed.

Lemma findIndex_Some {A} (p : A -> bool) (l : list A) (i : nat) :
  findIndex p l = Some i ->
  exists x, l !! i = Some x /\ p x = true /\
            forall j y, (j < i)%nat -> l !! j = Some y -> p y = false.
Proof.
  revert i. induction l as [|a l IH]; intros i; cbn [findIndex]; [done|].
  destruct (p a) eqn:Ha.
  - intros [= <-]. exists a. repeat split; [done|]. intros j y Hj. lia.
  - destruct (findIndex p l) as [k|]; [|done]. cbn. intros [= <-].
    destruct (IH k eq_refl) as (x & Hx & Hpx & Hmin).
    exists x. repeat split; [done..|].
    intros [|j] y Hj Hy; cbn in Hy; [congruence|]. apply (Hmin j y); [lia|done].
Qed.

Lemma findIndex_None {A} (p : A -> bool) (l : list A) :
  findIndex p l = None <-> Forall (fun x => p x = false) l.
Proof.
  induction l as [|a l IH]; cbn [findIndex]; [by split; [constructor|]|].
  destruct (p a) eqn:Ha.
  - split; [done|]. intros H. inversion H; congruence.
  - destruct (findIndex p l) as [k|]; cbn.
    + split; [done|]. intros H. inversion H; subst.
      by pose proof (proj2 IH ltac:(done)).
    + split; [|done]. intros _. constructor; [done|]. by apply IH.
Qed.

Lemma onChangeName_ids (id v : jsstring) (l : list Step) :
  List.map s_id (onChangeName id v l) = List.map s_id l.
Proof.
  unfold onChangeName. rewrite List.map_map. apply List.map_ext.
  intros x. by destruct (decide (s_id x = id)).
Qed.

Lemma wellIdentified_ids (l n : list Step) :
  List.map s_id l = List.map s_id n -> wellIdentified n -> wellIdentified l.
Proof.
  unfold wellIdentified. revert n.
  induction l as [|s l IH]; intros [|t n] Hm Hn; try discriminate; [constructor|].
  cbn [List.map] in Hm. injection Hm as Hi Hm. inversion Hn; subst.
  constructor; [by rewrite Hi|by eapply IH].
Qed.

Lemma onDragEnd_identifies (event : DragEndEvent) (prev : list Step) g l g' :
  onDragEnd event prev g = (inr l, g') -> wellIdentified prev -> wellIdentified l.
Proof.
  unfold onDragEnd. destruct (over event) as [overId|]; [|by intros [= <- _]].
  destruct (decide _); [by intros [= <- _]|].
  destruct (findIndex _ prev); [|by intros [= <- _]].
  destruct (findIndex _ prev); [|by intros [= <- _]].
  intros H _. by eapply renumberByArrayOrder_identifies.
Qed.

Lemma loadSteps_identifies (raw : list RawStep) g l g' :
  loadSteps raw g = (inr l, g') -> wellIdentified l.
Proof.
  unfold loadSteps, renumberFromOrder. intros H.
  apply bind_inr in H as (mapped & g1 & _ & H).
  apply bind_inr in H as (normalized & g2 & _ & H).
  by eapply renumberByArrayOrder_identifies.
Qed.

(** X1. Every value the [steps] state takes has an identifier on every
    step: [load] and the updaters replace a missing one, and renaming
    leaves identifiers alone. *)
Theorem reachable_wellIdentified (l : list Step) :
  reachable l -> wellIdentified l.
Proof.
  induction 1 as [|raw g l g' Hl|prev g l g' _ _ Hl|id prev g l g' _ _ Hl
                 |id v prev _ IH|event prev g l g' _ IH Hl].
  - constructor.
  - by eapply loadSteps_identifies.
  - unfold onAddStep in Hl. apply bind_inr in Hl as (i & g1 & _ & Hl).
    by eapply renumberByArrayOrder_identifies.
  - by eapply renumberByArrayOrder_identifies.
  - eapply wellIdentified_ids; [apply onChangeName_ids|done].
  - by eapply onDragEnd_identifies.
Qed.

(** X2. Deleting by identifier, on a list where every step has one:
    no identifier is drawn; what remains are the steps with another
    identifier, in their order, renumbered 1..N; the identifier deleted
    is gone; and deleting an identifier that is not in the list changes
    no identifier and no name. *)
Theorem onDeleteStep_removes (id : jsstring) (prev : list Step) (g : Supply) :
  wellIdentified prev ->
  exists l,
    onDeleteStep id prev g = (inr l, g) /\
    List.map face l =
      List.map face (List.filter (fun x => bool_decide (s_id x <> id)) prev) /\
    contiguous l /\
    ~ In id (List.map s_id l) /\
    (~ In id (List.map s_id prev) -> List.map face l = List.map face prev).
Proof.
  intros Hid. eexists. split.
  { unfold onDeleteStep. apply renumberByArrayOrder_wellIdentified.
    by apply wellIdentified_filter. }
  split; [apply imap_face|]. split; [apply withPosition_contiguous|]. split.
  - rewrite (imap_keeps s_id) by done. intros Hin.
    apply in_map_iff in Hin as (s & Hs & Hin).
    apply filter_In in Hin as [_ Hne]. apply bool_decide_eq_true in Hne. done.
  - intros Hnot. rewrite imap_face. f_equal. apply filter_all.
    apply List.Forall_forall. intros s Hs. apply bool_decide_eq_true.
    intros E. apply Hnot. apply in_map_iff. by exists s.
Qed.

(** X3. Adding a step, on a list where every step has one identifier:
    the steps there keep identifier and name, one step with a new
    identifier and the empty name is appended, and the list is numbered
    1..N. *)
Theorem onAddStep_appends (prev : list Step) (g : Supply) :
  wellIdentified prev ->
  exists l,
    onAddStep prev g = (inr l, fun n => g (S n)) /\
    List.map face l = List.map face prev ++ [(js "st_" ++ g 0%nat, [])] /\
    length l = S (length prev) /\
    contiguous l.
Proof.
  intros Hid. eexists. split.
  { unfold onAddStep. unfold bind at 1. cbn [uid].
    apply renumberByArrayOrder_wellIdentified.
    apply Forall_app. split; [done|]. by repeat constructor. }
  split; [by rewrite imap_face, List.map_app|].
  split; [|apply withPosition_contiguous].
  rewrite length_imap, length_app. cbn. lia.
Qed.

(** X4. A drag that resolves, on a list where every step has one
    identifier: the result holds the same steps (identifier and name)
    as before, as many, numbered 1..N; and the step dragged stands where
    the step it was dropped on stood. *)
Theorem onDragEnd_moves (event : DragEndEvent) (prev : list Step) (g : Supply)
    (overId : jsstring) (oldIndex newIndex : nat) :
  wellIdentified prev ->
  over event = Some overId ->
  active event <> overId ->
  findIndex (fun x => bool_decide (s_id x = active event)) prev = Some oldIndex ->
  findIndex (fun x => bool_decide (s_id x = overId)) prev = Some newIndex ->
  exists l,
    onDragEnd event prev g = (inr l, g) /\
    Permutation (List.map face l) (List.map face prev) /\
    length l = length prev /\
    contiguous l /\
    face <$> l !! newIndex = face <$> prev !! oldIndex /\
    s_id <$> l !! newIndex = Some (active event).
Proof.
  intros Hid Hover Hne Hold Hnew.
  destruct (findIndex_Some _ _ _ Hold) as (a & Ha & Hpa & _).
  destruct (findIndex_Some _ _ _ Hnew) as (o & Ho & _ & _).
  apply bool_decide_eq_true in Hpa.
  pose proof (lookup_lt_Some _ _ _ Ha) as Hlt1.
  pose proof (lookup_lt_Some _ _ _ Ho) as Hlt2.
  assert (wellIdentified (arrayMove prev oldIndex newIndex)) as Hid'.
  { unfold wellIdentified. by rewrite (arrayMove_perm prev oldIndex newIndex). }
  eexists. split.
  { unfold onDragEnd. rewrite Hover, decide_False by done. rewrite Hold, Hnew.
    by apply renumberByArrayOrder_wellIdentified. }
  assert ((imap withPosition (arrayMove prev oldIndex newIndex)) !! newIndex =
          Some (withPosition newIndex a)) as Hl.
  { rewrite list_lookup_imap, arrayMove_lookup, Ha by done. done. }
  split; [by rewrite imap_face, (arrayMove_perm prev oldIndex newIndex)|].
  split; [by rewrite length_imap, (Permutation_length (arrayMove_perm _ _ _))|].
  split; [apply withPosition_contiguous|].
  rewrite Hl, Ha. cbn. by rewrite Hpa.
Qed.

End StepListMore.

Lemma reachable_wellIdentified_witness :
  reachable stepsABC /\ wellIdentified stepsABC.
Proof.
  assert (reachable stepsABC) as H.
  { apply (reach_load
             [ RawEntry (Some (js "a")) (Some (js "A")) (Some (Finite 1));
               RawEntry (Some (js "b")) (Some (js "B")) (Some (Finite 2));
               RawEntry (Some (js "c")) (Some (js "C")) (Some (Finite 3)) ]
             supply0 stepsABC supply0).
    reflexivity. }
  split; [exact H|]. exact (reachable_wellIdentified stepsABC H).
Defined.

Lemma stepsABC_wellIdentified : wellIdentified stepsABC.
Proof. by repeat constructor. Defined.

Lemma onDeleteStep_removes_witness :
  wellIdentified stepsABC /\
  exists l,
    onDeleteStep (js "b") stepsABC supply0 = (inr l, supply0) /\
    ~ In (js "b") (List.map s_id l).
Proof.
  split; [exact stepsABC_wellIdentified|].
  destruct (onDeleteStep_removes (js "b") stepsABC supply0 stepsABC_wellIdentified)
    as (l & Hl & _ & _ & Hgone & _).
  by exists l.
Defined.

Lemma onAddStep_appends_witness :
  wellIdentified stepsABC /\
  exists l,
    onAddStep stepsABC supply0 = (inr l, fun n => supply0 (S n)) /\
    length l = 4%nat.
Proof.
  split; [exact stepsABC_wellIdentified|].
  destruct (onAddStep_appends stepsABC supply0 stepsABC_wellIdentified)
    as (l & Hl & _ & Hlen & _).
  by exists l.
Defined.

Lemma onDragEnd_moves_witness :
  wellIdentified stepsABC /\
  exists l,
    onDragEnd {| active := js "a"; over := Some (js "c") |} stepsABC supply0 =
      (inr l, supply0) /\
    s_id <$> l !! 2%nat = Some (js "a").
Proof.
  split; [exact stepsABC_wellIdentified|].
  destruct (onDragEnd_moves {| active := js "a"; over := Some (js "c") |}
              stepsABC supply0 (js "c") 0 2 stepsABC_wellIdentified eq_refl
              ltac:(discriminate) eq_refl eq_refl)
    as (l & Hl & _ & _ & _ & _ & Hat).
  by exists l.
Defined.

(** ** Saving and loading, composed with the editor *)

Section SaveMore.

Lemma normalizeStepsForSave_names (steps : list Step) (g : Supply) :
  exists saved g',
    normalizeStepsForSave steps g = (inr saved, g') /\
    List.map s_name saved = savedNames steps.
Proof.
  destruct (normalizeStepsForSave_returns steps g) as (m & g' & _ & Hs & HF).
  eexists _, g'. split; [exact Hs|].
  rewrite (imap_keeps s_name) by done. unfold savedNames.
  assert (List.map s_name m = List.map (fun s => trim (s_name s)) steps) as <-.
  { clear -HF. induction HF as [|x y ? ? [_ Hn] _ IH]; cbn [List.map]; [done|].
    by rewrite Hn, IH. }
  by rewrite filter_map_comm.
Qed.

Lemma normalizeStepsForSave_trimmed (steps : list Step) (g : Supply) :
  exists saved g',
    normalizeStepsForSave steps g = (inr saved, g') /\
    canonical saved /\ trimmedNames saved.
Proof.
  destruct (normalizeStepsForSave_canonical steps g) as (saved & g' & Hs & Hc).
  exists saved, g'. split; [done|]. split; [done|].
  destruct (normalizeStepsForSave_returns steps g) as (m & g1 & _ & Hs' & HF).
  assert (saved = imap withPosition (List.filter nonEmptyName m)) as ->
    by congruence.
  apply Forall_imap; [done|].
  apply List.Forall_forall. intros s Hin. apply filter_In in Hin as [Hin _].
  assert (Forall (fun s' => exists x, s_name s' = trim x) m) as Hm.
  { clear -HF. induction HF as [|x y ? ? [_ Hn] _ IH]; constructor; eauto. }
  eapply List.Forall_forall in Hm as [x Hx]; [|exact Hin].
  by rewrite Hx, trim_idem.
Qed.

Lemma normalizeStepsForSave_fixed (l : list Step) (g : Supply) :
  canonical l -> trimmedNames l -> normalizeStepsForSave l g = (inr l, g).
Proof.
  intros [Hc Hwf] Htr. unfold normalizeStepsForSave.
  assert (mapM cleanStep l g = (inr l, g)) as Hm.
  { apply mapM_fixed. pose proof (proj1 (contiguous_lookup l) Hc) as Hpos.
    apply Forall_lookup_2. intros i s Hs g0. unfold cleanStep.
    destruct (Forall_lookup_1 _ _ _ _ Hwf Hs) as [-> _].
    rewrite (Forall_lookup_1 _ _ _ _ Htr Hs), (Hpos i s Hs).
    unfold bind, ret. cbn. rewrite <- (Hpos i s Hs). by destruct s. }
  rewrite (bind_run _ _ _ _ _ Hm).
  rewrite filter_all.
  - by rewrite contiguous_fixed.
  - apply Forall_lookup_2. intros i s Hs.
    destruct (Forall_lookup_1 _ _ _ _ Hwf Hs) as [_ Hnb].
    unfold nonBlankName in Hnb. unfold nonEmptyName.
    by rewrite <- (Forall_lookup_1 _ _ _ _ Htr Hs).
Qed.

(** X5. Saving is idempotent: every list can be saved, and saving what
    a save stored stores it again unchanged, drawing no identifier. *)
Theorem save_idempotent (steps : list Step) (g : Supply) :
  exists saved g',
    normalizeStepsForSave steps g = (inr saved, g') /\
    forall g2, normalizeStepsForSave saved g2 = (inr saved, g2).
Proof.
  destruct (normalizeStepsForSave_trimmed steps g) as (saved & g' & Hs & Hc & Ht).
  exists saved, g'. split; [done|]. intros g2.
  by apply normalizeStepsForSave_fixed.
Qed.

Lemma savedNames_app (l n : list Step) :
  savedNames (l ++ n) = savedNames l ++ savedNames n.
Proof. unfold savedNames. by rewrite List.map_app, List.filter_app. Qed.

Lemma savedNames_names (l n : list Step) :
  List.map s_name l = List.map s_name n -> savedNames l = savedNames n.
Proof.
  unfold savedNames. intros H.
  rewrite <- (List.map_map s_name trim l), <- (List.map_map s_name trim n).
  by rewrite H.
Qed.

(** X6. The blank step that "add" appends is never stored: saving right
    after adding a step stores the names that saving before would have
    stored. *)
Theorem add_then_save (prev : list Step) (g : Supply) :
  exists l g1 saved1 g2 saved0 g3,
    onAddStep prev g = (inr l, g1) /\
    normalizeStepsForSave l g1 = (inr saved1, g2) /\
    normalizeStepsForSave prev g = (inr saved0, g3) /\
    List.map s_name saved1 = List.map s_name saved0.
Proof.
  unfold onAddStep. unfold bind at 1. cbn [uid].
  destruct (renumberByArrayOrder_returns
              (prev ++ [ {| s_id := js "st_" ++ g 0%nat; s_name := [];
                            s_order := Finite (Z.of_nat (length prev) + 1) |} ])
              (fun n => g (S n))) as (l & g1 & Hl & _ & Hn & _).
  destruct (normalizeStepsForSave_names l g1) as (s1 & g2 & Hs1 & Hn1).
  destruct (normalizeStepsForSave_names prev g) as (s0 & g3 & Hs0 & Hn0).
  exists l, g1, s1, g2, s0, g3. repeat split; try done.
  rewrite Hn1, Hn0, (savedNames_names _ _ Hn), savedNames_app.
  cbn. by rewrite app_nil_r.
Qed.

Lemma savedNames_blanked (id v : jsstring) (l : list Step) :
  trim v = [] ->
  savedNames (onChangeName id v l) =
  savedNames (List.filter (fun x => bool_decide (s_id x <> id)) l).
Proof.
  intros Hv. unfold savedNames, onChangeName.
  induction l as [|s l IH]; [done|].
  cbn [List.map List.filter]. destruct (decide (s_id s = id)) as [E|E].
  - rewrite bool_decide_false by (intros H; by apply H).
    cbn [s_name]. rewrite Hv. cbn. exact IH.
  - rewrite bool_decide_true by done. cbn [List.map List.filter].
    by rewrite IH.
Qed.

(** X7. Clearing a step's name and saving stores what deleting the step
    and saving stores: for a new name that is blank, the names stored
    after the rename are those stored after deleting that identifier. *)
Theorem blank_rename_saves_as_delete (id v : jsstring) (l : list Step)
    (g : Supply) :
  trim v = [] ->
  exists saved1 g1 d gd saved2 g2,
    normalizeStepsForSave (onChangeName id v l) g = (inr saved1, g1) /\
    onDeleteStep id l g = (inr d, gd) /\
    normalizeStepsForSave d gd = (inr saved2, g2) /\
    List.map s_name saved1 = List.map s_name saved2.
Proof.
  intros Hv.
  destruct (normalizeStepsForSave_names (onChangeName id v l) g)
    as (s1 & g1 & Hs1 & Hn1).
  unfold onDeleteStep.
  destruct (renumberByArrayOrder_returns
              (List.filter (fun x => bool_decide (s_id x <> id)) l) g)
    as (d & gd & Hd & _ & Hn & _).
  destruct (normalizeStepsForSave_names d gd) as (s2 & g2 & Hs2 & Hn2).
  exists s1, g1, d, gd, s2, g2. repeat split; try done.
  by rewrite Hn1, Hn2, (savedNames_names _ _ Hn), savedNames_blanked.
Qed.

Lemma loadSteps_canonical (raw : list RawStep) g l g' :
  loadSteps raw g = (inr l, g') -> canonical l.
Proof.
  intros H. split; [by eapply loadSteps_contiguous|].
  pose proof (loadSteps_identifies _ _ _ _ H) as Hid.
  unfold loadSteps, renumberFromOrder in H.
  apply bind_inr in H as (mapped & g1 & _ & H).
  apply bind_inr in H as (normalized & g2 & Hnorm & H).
  destruct (renumberByArrayOrder_returns (sort byOrder normalized) g2)
    as (l0 & g0 & Hl0 & _ & Hn & _).
  assert (l0 = l) as -> by congruence.
  assert (Forall (fun s => nonBlankName s = true) normalized) as Hnb.
  { destruct (mapM_returns normalizeStep _ normalizeStep_returns
                (List.filter nonBlankName mapped) g1) as (n & g3 & Hn' & HF).
    assert (n = normalized) as -> by congruence.
    assert (Forall (fun s => nonBlankName s = true)
                   (List.filter nonBlankName mapped)) as Hf.
    { apply List.Forall_forall. intros s Hs. by apply filter_In in Hs as [_ ?]. }
    clear -HF Hf. induction HF as [|x y ? ? (_ & Hname & _) _ IH];
      [constructor|].
    inversion Hf; subst. constructor; [|by apply IH].
    unfold nonBlankName in *. by rewrite Hname. }
  assert (Forall (fun s => nonBlankName s = true) l) as Hl.
  { assert (Forall (fun n => (0 <? Z.of_nat (length (trim n))) = true)
                   (List.map s_name l)) as Hx.
    { rewrite Hn. apply Forall_map.
      rewrite (sort_perm byOrder normalized). exact Hnb. }
    by apply Forall_map in Hx. }
  apply Forall_lookup_2. intros i s Hs. split.
  - exact (Forall_lookup_1 _ _ _ _ Hid Hs).
  - exact (Forall_lookup_1 _ _ _ _ Hl Hs).
Qed.

(** X8. Loading is stable: a list that [load] produced, written back as
    it is and loaded again, comes back unchanged and draws no
    identifier. *)
Theorem load_stable (raw : list RawStep) (g : Supply) l g' :
  loadSteps raw g = (inr l, g') ->
  forall g2, loadSteps (persisted l) g2 = (inr l, g2).
Proof.
  intros H g2. apply loadSteps_persisted. by eapply loadSteps_canonical.
Qed.

End SaveMore.

Lemma blank_rename_saves_as_delete_witness :
  trim (js "  ") = [] /\
  exists saved1 g1 d gd saved2 g2,
    normalizeStepsForSave (onChangeName (js "b") (js "  ") stepsABC) supply0 =
      (inr saved1, g1) /\
    onDeleteStep (js "b") stepsABC supply0 = (inr d, gd) /\
    normalizeStepsForSave d gd = (inr saved2, g2) /\
    List.map s_name saved1 = List.map s_name saved2.
Proof.
  split; [reflexivity|].
  exact (blank_rename_saves_as_delete (js "b") (js "  ") stepsABC supply0 eq_refl).
Defined.

Lemma load_stable_witness :
  loadSteps stored_ba supply0 =
    (inr [ mkStep (js "a") (js "A") (Finite 1);
           mkStep (js "b") (js "B") (Finite 2) ], supply0) /\
  loadSteps (persisted [ mkStep (js "a") (js "A") (Finite 1);
                         mkStep (js "b") (js "B") (Finite 2) ]) supply0 =
    (inr [ mkStep (js "a") (js "A") (Finite 1);
           mkStep (js "b") (js "B") (Finite 2) ], supply0).
Proof.
  split; [reflexivity|].
  exact (load_stable stored_ba supply0 _ supply0 eq_refl supply0).
Defined.

(** ** The endpoints *)

(** *** The bearer credential *)

Section BearerFacts.

Lemma spanWhitespace_app (s ws rest : jsstring) :
  spanWhitespace s = (ws, rest) ->
  s = ws ++ rest /\ forallb is_whitespace ws = true /\
  match rest with c :: _ => is_whitespace c = false | [] => True end.
Proof.
  revert ws rest. induction s as [|c t IH]; intros ws rest; cbn [spanWhitespace].
  - by intros [= <- <-].
  - destruct (is_whitespace c) eqn:Hc.
    + destruct (spanWhitespace t) as [ws' rest'].
      intros [= <- <-]. destruct (IH _ _ eq_refl) as (-> & Hws & Hr).
      cbn [forallb]. by rewrite Hc, Hws.
    + by intros [= <- <-].
Qed.

Lemma keyword_length (k : jsstring) :
  List.map upper k = js "BEARER" -> length k = 6%nat.
Proof. intros H. by rewrite <- (length_map upper), H. Qed.

(** X9. The credential the handlers pass to the identity provider is
    never empty, holds no line terminator, and is the end of the header:
    at least seven code units stand before it (the keyword and white
    space). *)
Theorem matchBearer_sound (h token : jsstring) :
  matchBearer h = Some token ->
  token <> [] /\
  forallb (fun c => negb (is_line_terminator c)) token = true /\
  exists pre, h = pre ++ token /\ (7 <= length pre)%nat.
Proof.
  unfold matchBearer. destruct (decide _) as [Hk|]; [|done].
  apply keyword_length in Hk.
  destruct (spanWhitespace (drop 6 h)) as [ws rest] eqn:Hspan.
  apply spanWhitespace_app in Hspan as (Hd & _ & _).
  pose proof (take_drop 6 h) as Hh. rewrite Hd in Hh.
  destruct ws as [|a ws]; [done|]. destruct rest as [|r rest].
  - destruct ws as [|b ws]; [done|].
    destruct (last (a :: b :: ws)) as [c|] eqn:Hl; [|done].
    destruct (is_line_terminator c) eqn:Hc; [done|]. intros [= <-].
    split; [done|]. split; [cbn [forallb]; by rewrite Hc|].
    apply last_Some in Hl as [l' Hl']. rewrite Hl', app_nil_r in Hh.
    exists (take 6 h ++ l'). split; [by rewrite <- app_assoc|].
    rewrite length_app, Hk.
    assert (length (a :: b :: ws) = length (l' ++ [c])) as Hlen by by rewrite Hl'.
    rewrite length_app in Hlen. cbn in Hlen. lia.
  - assert (forall X : option jsstring, match ws with [] | _ => X end = X) as -> by (by destruct ws). destruct (forallb _ (r :: rest)) eqn:Hf; [|done]. intros [= <-].
    split; [done|]. split; [done|].
    exists (take 6 h ++ a :: ws). split; [by rewrite <- app_assoc|].
    rewrite length_app, Hk. cbn. lia.
Qed.

(** X10. A header made of the keyword in any letter case, one space and
    a credential is read back as that credential, when the credential
    does not start with white space and holds no line terminator. *)
Theorem matchBearer_complete (keyword token : jsstring) (c : N) (t : jsstring) :
  List.map upper keyword = js "BEARER" ->
  token = c :: t ->
  is_whitespace c = false ->
  forallb (fun c => negb (is_line_terminator c)) token = true ->
  matchBearer (keyword ++ [32%N] ++ token) = Some token.
Proof.
  intros Hk -> Hc Hlt. pose proof (keyword_length _ Hk) as Hlen.
  unfold matchBearer.
  rewrite take_app_length' by done. rewrite decide_True by done.
  rewrite drop_app_length' by done.
  cbn [app spanWhitespace]. rewrite Hc.
  change (is_whitespace 32) with true. cbv iota. by rewrite Hlt.
Qed.

End BearerFacts.

Lemma matchBearer_sound_witness :
  matchBearer (js "bearer  abc") = Some (js "abc") /\ js "abc" <> [].
Proof.
  split; [reflexivity|].
  exact (proj1 (matchBearer_sound (js "bearer  abc") (js "abc") eq_refl)).
Defined.

Lemma matchBearer_complete_witness :
  matchBearer (js "BeArEr" ++ [32%N] ++ js "tokA") = Some (js "tokA").
Proof.
  exact (matchBearer_complete (js "BeArEr") (js "tokA") _ _
           eq_refl eq_refl eq_refl eq_refl).
Defined.

(** *** Walking a handler *)

Ltac wp_walk :=
  repeat (cbv beta iota;
    lazymatch goal with
    | |- wp (bind _ _) _ _ => apply wp_bind
    | |- wp (catch _ _) _ _ => apply wp_catch
    | |- wp (ret _) _ _ => apply wp_ret
    | |- wp (throw _) _ _ => apply wp_throw
    | |- wp get _ _ => apply wp_get
    | |- wp (modify _) _ _ => apply wp_modify
    | |- wp dbcall _ _ => apply wp_dbcall; [intros ?|]
    | |- wp (liftResult ?r) _ _ => apply wp_liftResult; destruct r eqn:?
    | |- wp (member _ _) _ _ => apply wp_member; intros ?
    | |- wp (requireAdminFromRequest _) _ _ => unfold requireAdminFromRequest
    | |- wp (set_member _ _) _ _ => unfold set_member
    | |- wp (set_user _ _) _ _ => unfold set_user
    | |- wp (findMemberRefByUid _) _ _ => unfold findMemberRefByUid
    | |- wp getStripe _ _ => unfold getStripe
    | |- wp (stripe_update _ _) _ _ => unfold stripe_update
    | |- wp (guardedCatch _) _ _ => unfold guardedCatch
    | |- wp (if ?c then _ else _) _ _ => destruct c eqn:?
    | |- wp (match ?c with _ => _ end) _ _ => destruct c eqn:?
    | |- wp (let _ := _ in _) _ _ => cbv zeta
    end).

Section Answers.

Lemma answered_error (codes : list Z) (st : Z) (msg : jsstring) :
  In st codes -> st <> 200 -> answered codes (inr (json_error st msg)).
Proof.
  intros Hin Hne. eexists. split; [done|]. split; [done|].
  cbn. split; [done|]. intros E. by destruct Hne.
Qed.

Lemma answered_ok (codes : list Z) fields :
  In 200 codes -> answered codes (inr (ok_response fields)).
Proof.
  intros Hin. eexists. split; [done|]. split; [done|]. cbn. done.
Qed.

Ltac answer :=
  repeat match goal with
         | |- context [decide (?x = ?y)] => destruct (decide (x = y))
         end;
  first [ apply answered_ok; cbn; tauto
        | apply answered_error; [cbn; tauto|done] ].

(** X11. Every handler answers every request.  None of the four lets an
    exception escape; member creation and billing status answer with
    200, 400, 401, 403 or 500, the member list with 200 or 500, the
    cancel-at-period-end endpoint with 200, 400, 401, 404 or 500; and
    the answer says [ok: true] exactly when its status is 200. *)
Theorem handlers_answer (req : Request) (w : World) :
  answered [200; 400; 401; 403; 500] (POST_create_user req w).1 /\
  answered [200; 400; 401; 403; 500] (POST_billing_status req w).1 /\
  answered [200; 500] (POST_members_list req w).1 /\
  answered [200; 400; 401; 404; 500] (POST_cancel_at_period_end req w).1.
Proof.
  split; [|split; [|split]].
  - change (wp (POST_create_user req)
              (fun r _ => answered [200; 400; 401; 403; 500] r) w).
    unfold POST_create_user. wp_walk; answer.
  - change (wp (POST_billing_status req)
              (fun r _ => answered [200; 400; 401; 403; 500] r) w).
    unfold POST_billing_status. wp_walk; answer.
  - change (wp (POST_members_list req) (fun r _ => answered [200; 500] r) w).
    unfold POST_members_list. wp_walk; answer.
  - change (wp (POST_cancel_at_period_end req)
              (fun r _ => answered [200; 400; 401; 404; 500] r) w).
    unfold POST_cancel_at_period_end. wp_walk; answer.
Qed.

End Answers.

Section CreateUserMore.

Lemma create_user_fields (w : World) (req : Request) (b : value) (u : jsstring) :
  requireAdminFromRequest req w = (inr u, w) -> body req = inr b -> nonNull b ->
  POST_create_user req w =
  catch
    (let email := trim (toStr (prop b (js "email"))) in
     let password := toStr (prop b (js "password")) in
     let fullName := trim (toStr (prop b (js "fullName"))) in
     let phone := normalizePhone (toStr (prop b (js "phone"))) in
     let companyName := trim (toStr (prop b (js "companyName"))) in
     let companyAddress := trim (toStr (prop b (js "companyAddress"))) in
     let billingMode := toMode (prop b (js "billingMode")) in
     if negb (truthy email) then ret (json_error 400 (js "email_required")) else
     if negb (truthy password) || (Z.of_nat (length password) <? 6)
     then ret (json_error 400 (js "password_min_6")) else
     if negb (truthy fullName) then ret (json_error 400 (js "fullName_required")) else
     if negb (truthy companyName)
     then ret (json_error 400 (js "companyName_required")) else
     let* w := get in
     let* uid := liftResult (createUser w email password fullName) in
     modify (fun w =>
       {| RENOVA_ADMIN_UIDS := RENOVA_ADMIN_UIDS w;
          STRIPE_SECRET_KEY := STRIPE_SECRET_KEY w;
          verifyIdToken := verifyIdToken w; createUser := createUser w;
          subscriptions_update := subscriptions_update w;
          reNovaMember := reNovaMember w; renovaUsers := renovaUsers w;
          db_faults := db_faults w; now := now w;
          createdUsers := createdUsers w ++ [(uid, email)];
          stripeCalls := stripeCalls w |}) >>
     set_member uid (fun now d =>
       let b := default noBilling (m_billing d) in
       {| m_uid := VString uid;
          m_email := VString email;
          m_profile := Some
            {| p_fullName := VString fullName; p_phone := VString phone;
               p_companyName := VString companyName;
               p_companyAddress := VString companyAddress |};
          m_createdAt := VTimestamp now;
          m_updatedAt := VTimestamp now;
          m_billing := Some
            {| b_mode := VString billingMode;
               b_status := VString (if decide (billingMode = js "free")
                                    then js "active" else js "inactive");
               b_stripeCustomerId := VString [];
               b_stripeSubscriptionId := VString [];
               b_cancelAtPeriodEnd := b_cancelAtPeriodEnd b;
               b_currentPeriodEndMs := b_currentPeriodEndMs b;
               b_updatedAt := VTimestamp now |} |}) >>
     ret (ok_response [(js "uid", VString uid)]))
    guardedCatch w.
Proof.
  intros Hauth Hb Hnn. unfold POST_create_user, catch.
  rewrite (bind_run _ _ _ _ _ Hauth). rewrite Hb. cbn [liftResult].
  rewrite bind_ret.
  by repeat (rewrite (member_nonNull b) by done; rewrite bind_ret).
Qed.

Lemma length_lt_6 (s : jsstring) :
  negb (truthy s) || (Z.of_nat (length s) <? 6) = true <-> (length s < 6)%nat.
Proof.
  destruct s as [|c s]; cbn [truthy negb orb length]; [split; [lia|done]|].
  rewrite Z.ltb_lt. lia.
Qed.

(** X12. Member creation checks its input in a fixed order before it
    creates anything.  For a request the identity gate lets through and
    a body that is not [null]: a blank e-mail is answered with
    [email_required]; else a password of fewer than six code units with
    [password_min_6]; else a blank full name with [fullName_required];
    else a blank company name with [companyName_required]; each time
    with status 400, no account created and nothing written. *)
Theorem create_user_validates (w : World) (req : Request) (b : value) :
  authorized w req -> body req = inr b -> nonNull b ->
  let email := trim (toStr (prop b (js "email"))) in
  let password := toStr (prop b (js "password")) in
  let fullName := trim (toStr (prop b (js "fullName"))) in
  let companyName := trim (toStr (prop b (js "companyName"))) in
  let rejects e := POST_create_user req w = (inr (json_error 400 e), w) in
  (email = [] -> rejects (js "email_required")) /\
  (email <> [] -> (length password < 6)%nat -> rejects (js "password_min_6")) /\
  (email <> [] -> (6 <= length password)%nat -> fullName = [] ->
     rejects (js "fullName_required")) /\
  (email <> [] -> (6 <= length password)%nat -> fullName <> [] ->
     companyName = [] -> rejects (js "companyName_required")).
Proof.
  intros [u Hauth] Hb Hnn email password fullName companyName rejects.
  subst rejects. cbv beta. rewrite (create_user_fields w req b u) by done.
  fold email password fullName companyName. unfold catch. cbv zeta.
  fold email password fullName companyName.
  assert (forall s : jsstring, s <> [] -> negb (truthy s) = false) as Hne
    by (by intros [|??]).
  assert (forall p : jsstring, (6 <= length p)%nat ->
            negb (truthy p) || (Z.of_nat (length p) <? 6) = false) as Hlen.
  { intros p Hp. destruct (_ || _) eqn:E; [|done].
    apply length_lt_6 in E. lia. }
  repeat split.
  - by intros ->.
  - intros He Hp. rewrite (Hne _ He). by rewrite (proj2 (length_lt_6 password) Hp).
  - intros He Hp ->. by rewrite (Hne _ He), (Hlen _ Hp).
  - intros He Hp Hf ->. by rewrite (Hne _ He), (Hlen _ Hp), (Hne _ Hf).
Qed.

(** X13. Member creation, once the input is accepted.  When the identity
    provider refuses the account, the answer carries its message and
    nothing is written.  Otherwise the account is on record; and when
    the write goes through, the member's document is filed under the
    new account's identifier with the e-mail, the trimmed profile, the
    phone number reduced to digits and plus signs, the billing mode
    (["free"] or ["paid"]), the status ["active"] for a free member and
    ["inactive"] for a paying one, and empty Stripe identifiers.  When
    the write is rejected the answer is an error although the account
    exists. *)
Theorem create_user_creates (w : World) (req : Request) (b : value) :
  authorized w req -> body req = inr b -> nonNull b ->
  let email := trim (toStr (prop b (js "email"))) in
  let password := toStr (prop b (js "password")) in
  let fullName := trim (toStr (prop b (js "fullName"))) in
  let companyName := trim (toStr (prop b (js "companyName"))) in
  email <> [] -> (6 <= length password)%nat -> fullName <> [] ->
  companyName <> [] ->
  match createUser w email password fullName with
  | inl e => exists st, POST_create_user req w = (inr (json_error st e), w)
  | inr uid =>
      exists resp w',
        POST_create_user req w = (inr resp, w') /\
        createdUsers w' = createdUsers w ++ [(uid, email)] /\
        renovaUsers w' = renovaUsers w /\
        match db_faults w with
        | Some msg :: _ =>
            is_ok resp = false /\ reNovaMember w' = reNovaMember w
        | _ =>
            resp = ok_response [(js "uid", VString uid)] /\
            exists d P B,
              Map_get (reNovaMember w') uid = Some d /\
              m_uid d = VString uid /\ m_email d = VString email /\
              m_profile d = Some P /\
              p_fullName P = VString fullName /\
              p_phone P = VString (normalizePhone (toStr (prop b (js "phone")))) /\
              p_companyName P = VString companyName /\
              p_companyAddress P =
                VString (trim (toStr (prop b (js "companyAddress")))) /\
              m_billing d = Some B /\
              b_mode B = VString (toMode (prop b (js "billingMode"))) /\
              b_status B =
                VString (if is_string (prop b (js "billingMode")) (js "free")
                         then js "active" else js "inactive") /\
              b_stripeCustomerId B = VString [] /\
              b_stripeSubscriptionId B = VString []
        end
  end.
Proof.
  intros [u Hauth] Hb Hnn email password fullName companyName He Hp Hf Hc.
  rewrite (create_user_fields w req b u) by done.
  fold email password fullName companyName. unfold catch. cbv zeta.
  fold email password fullName companyName.
  assert (forall s : jsstring, s <> [] -> negb (truthy s) = false) as Hne
    by (by intros [|??]).
  assert (negb (truthy password) || (Z.of_nat (length password) <? 6) = false)
    as Hlen.
  { destruct (_ || _) eqn:E; [|done]. apply length_lt_6 in E. lia. }
  rewrite (Hne _ He), Hlen, (Hne _ Hf), (Hne _ Hc).
  destruct (createUser w email password fullName) as [e|uid] eqn:Hcu.
  { unfold bind at 1. cbn [get]. rewrite Hcu. cbn [liftResult].
    rewrite bind_throw_run.
    destruct (guardedCatch_status e w) as (st & -> & _). by exists st. }
  unfold bind at 1. cbn [get]. rewrite Hcu. cbn [liftResult]. rewrite bind_ret.
  assert (toMode (prop b (js "billingMode")) = js "free" <->
          is_string (prop b (js "billingMode")) (js "free") = true) as Hmode.
  { unfold toMode. destruct (is_string _ _); split; done. }
  unfold set_member.
  destruct (db_faults w) as [|[msg|] fl] eqn:Hfl.
  - unfold bind, ret, dbcall, modify. cbn [db_faults]. rewrite Hfl.
    cbn -[merged trim toStr prop js toMode normalizePhone].
    eexists _, _. split; [reflexivity|]. split; [reflexivity|].
    split; [reflexivity|]. split; [reflexivity|].
    unfold with_db, merged. cbn [reNovaMember]. rewrite Map_get_set_eq.
    eexists _, _, _. split; [reflexivity|].
    cbn -[trim toStr prop js toMode normalizePhone is_string].
    repeat (split; [reflexivity|]). split; [|done].
    destruct (decide _) as [E|E]; destruct (is_string _ _) eqn:Hs; try done.
    + apply Hmode in E. congruence.
    + destruct E. by apply Hmode.
  - unfold bind, ret, dbcall, modify. cbn [db_faults]. rewrite Hfl.
    cbn -[merged trim toStr prop js toMode normalizePhone guardedCatch].
    match goal with |- context [guardedCatch msg ?w1] =>
      destruct (guardedCatch_status msg w1) as (st & -> & Hst) end.
    eexists _, _. split; [reflexivity|]. done.
  - unfold bind, ret, dbcall, modify. cbn [db_faults]. rewrite Hfl.
    cbn -[merged trim toStr prop js toMode normalizePhone].
    eexists _, _. split; [reflexivity|]. split; [reflexivity|].
    split; [reflexivity|]. split; [reflexivity|].
    unfold with_db, merged. cbn [reNovaMember]. rewrite Map_get_set_eq.
    eexists _, _, _. split; [reflexivity|].
    cbn -[trim toStr prop js toMode normalizePhone is_string].
    repeat (split; [reflexivity|]). split; [|done].
    destruct (decide _) as [E|E]; destruct (is_string _ _) eqn:Hs; try done.
    + apply Hmode in E. congruence.
    + destruct E. by apply Hmode.
Qed.

End CreateUserMore.

Section StatusMore.

(** X14. The billing status endpoint writes one document of [renovaUsers]
    at most.  Whatever the request: the member collection, the accounts
    and the calls to the billing provider are as before; and there is
    one identifier such that every document of [renovaUsers] under
    another identifier is as before, while the document under it is as
    before, or the identifier is the trimmed [uid] of the body and the
    document keeps its identity, profile, creation time and mirrored
    cancellation fields. *)
Theorem billing_status_frame (req : Request) (w : World) r w' :
  POST_billing_status req w = (r, w') ->
  reNovaMember w' = reNovaMember w /\
  createdUsers w' = createdUsers w /\
  stripeCalls w' = stripeCalls w /\
  exists target,
    (forall id, id <> target ->
       Map_get (renovaUsers w') id = Map_get (renovaUsers w) id) /\
    (Map_get (renovaUsers w') target = Map_get (renovaUsers w) target \/
     exists b d',
       body req = inr b /\
       target = trim (toStr (prop b (js "uid"))) /\
       Map_get (renovaUsers w') target = Some d' /\
       keptByStatus (default noMember (Map_get (renovaUsers w) target)) d').
Proof.
  intros H.
  refine (wp_run _ (fun _ w' =>
    reNovaMember w' = reNovaMember w /\
    createdUsers w' = createdUsers w /\
    stripeCalls w' = stripeCalls w /\
    exists target,
      (forall id, id <> target ->
         Map_get (renovaUsers w') id = Map_get (renovaUsers w) id) /\
      (Map_get (renovaUsers w') target = Map_get (renovaUsers w) target \/
       exists b d',
         body req = inr b /\
         target = trim (toStr (prop b (js "uid"))) /\
         Map_get (renovaUsers w') target = Some d' /\
         keptByStatus (default noMember (Map_get (renovaUsers w) target)) d'))
    _ _ _ _ H).
  unfold POST_billing_status. wp_walk.
  all: split; [reflexivity|]; split; [reflexivity|]; split; [reflexivity|].
  all: try (exists []; split; [intros; reflexivity|left; reflexivity]).
  all: match goal with
       | Hb : body _ = inr ?b |- _ =>
           exists (trim (toStr (prop b (js "uid"))))
       end.
  all: cbn [renovaUsers advance with_db]; unfold merged.
  all: split; [intros id Hne; by rewrite Map_get_set, decide_False|].
  all: right; rewrite Map_get_set_eq.
  all: eexists _, _; split; [reflexivity|]; split; [reflexivity|];
       split; [reflexivity|].
  all: repeat (split; [reflexivity|]).
  all: eexists; split; [reflexivity|]; split; reflexivity.
Qed.

End StatusMore.

Section GateMore.

Lemma split_on_blank (s : jsstring) :
  forallb (fun c => (c =? 44)%N || is_whitespace c) s = true ->
  Forall (fun p => forallb is_whitespace p = true) (split_on 44%N s).
Proof.
  induction s as [|c t IH]; cbn [forallb split_on]; [by repeat constructor|].
  intros H. apply andb_true_iff in H as [Hc Ht]. specialize (IH Ht).
  destruct (split_on 44 t) as [|p ps]; [by repeat constructor|].
  inversion IH; subst.
  destruct (c =? 44)%N eqn:E; [by repeat constructor|].
  cbn [orb] in Hc. constructor; [|done]. cbn [forallb]. by rewrite Hc.
Qed.

Lemma noAdmins_parse (w : World) : noAdmins w -> parseAdminUids w = [].
Proof.
  unfold noAdmins, parseAdminUids. intros H. apply split_on_blank in H.
  induction H as [|p ps Hp _ IH]; [done|].
  cbn [List.map List.filter]. apply trim_nil_iff in Hp. by rewrite Hp.
Qed.

Lemma gate_closed (req : Request) (w : World) :
  parseAdminUids w = [] ->
  exists e, requireAdminFromRequest req w = (inl e, w).
Proof.
  intros Hp. unfold requireAdminFromRequest.
  destruct (matchBearer _) as [token|]; [|by eexists].
  unfold bind, get, liftResult.
  destruct (verifyIdToken w token) as [e|u]; [by eexists|].
  cbn. rewrite Hp. by eexists.
Qed.

(** X15. The identity gate fails closed.  When the allow-list variable is
    unset, empty, or holds only commas and white space, member creation
    and billing status refuse every request, whatever its credential,
    and change nothing. *)
Theorem gate_fails_closed (w : World) (req : Request) :
  noAdmins w ->
  exists resp1 resp2,
    POST_create_user req w = (inr resp1, w) /\ is_ok resp1 = false /\
    POST_billing_status req w = (inr resp2, w) /\ is_ok resp2 = false.
Proof.
  intros Hn. destruct (gate_closed req w (noAdmins_parse w Hn)) as [e He].
  destruct (guardedCatch_status e w) as (st & Hst & _).
  exists (json_error st e), (json_error st e).
  unfold POST_create_user, POST_billing_status, catch.
  rewrite !(bind_throw _ _ _ _ _ He). by rewrite Hst.
Qed.

End GateMore.

Section FindMore.

Lemma find_In {X} (p : X -> bool) (l : list X) (x : X) :
  List.find p l = Some x -> In x l /\ p x = true.
Proof. apply find_some. Qed.

(** X16. Looking a member up.  When the lookup names a document, that
    document is in the collection, and either its identifier is the one
    asked for, or no document has that identifier and its [uid] field is
    the one asked for.  When the database calls go through and the
    lookup names none, no document has that identifier or that [uid]
    field.  The lookup writes nothing. *)
Theorem findMemberRefByUid_finds (uid : jsstring) (w : World) r w' :
  findMemberRefByUid uid w = (r, w') ->
  reNovaMember w' = reNovaMember w /\ renovaUsers w' = renovaUsers w /\
  match r with
  | inr (Some ref) =>
      exists d, In (ref, d) (reNovaMember w) /\
        (ref = uid \/
         (Map_has (reNovaMember w) uid = false /\ m_uid d = VString uid))
  | inr None =>
      Map_has (reNovaMember w) uid = false /\
      forall id d, In (id, d) (reNovaMember w) -> m_uid d <> VString uid
  | inl _ => True
  end.
Proof.
  intros H. refine (wp_run _ (fun r w' => _) _ _ _ _ H).
  unfold findMemberRefByUid. wp_walk.
  all: split; [reflexivity|]; split; [reflexivity|]; try exact I.
  all: change (reNovaMember (advance (advance w))) with (reNovaMember w) in *.
  all: change (reNovaMember (advance w)) with (reNovaMember w) in *.
  - apply Map_has_In, in_map_iff in Heqb as ([id d] & <- & Hin).
    exists d. split; [done|]. by left.
  - destruct (List.find _ _) as [[id d]|] eqn:Hf; cbn.
    + apply find_In in Hf as [Hin Hs]. apply is_string_true in Hs.
      exists d. split; [done|]. right. done.
    + split; [done|]. intros id d Hin E.
      pose proof (find_none _ _ Hf (id, d) Hin) as Hn. cbn in Hn.
      rewrite E in Hn. cbn in Hn. by rewrite bool_decide_true in Hn.
Qed.

End FindMore.

Section ListMore.

Lemma lookup_map {X Y} (f : X -> Y) (l : list X) (i : nat) :
  List.map f l !! i = f <$> l !! i.
Proof. revert i. induction l as [|x l IH]; intros [|i]; cbn; auto. Qed.

(** X17. The member list is open and read-only.  The handler answers a
    request without credential as it answers any other; when the read
    goes through, it answers with one row per member document, in
    order, each with the member's e-mail and, as [uid], the [uid] field
    when that is a non-empty string and the document identifier
    otherwise; it changes no collection. *)
Theorem members_list_open (req : Request) (w : World) :
  POST_members_list req w = POST_members_list anonymous w /\
  reNovaMember (POST_members_list req w).2 = reNovaMember w /\
  renovaUsers (POST_members_list req w).2 = renovaUsers w /\
  ((forall msg, head (db_faults w) <> Some (Some msg)) ->
   exists rows,
     (POST_members_list req w).1 =
       inr (ok_response [(js "members", VArray rows)]) /\
     length rows = length (reNovaMember w) /\
     forall i id d, reNovaMember w !! i = Some (id, d) ->
       exists row, rows !! i = Some row /\
         prop row (js "email") = VString (stringOrEmpty (m_email d)) /\
         prop row (js "uid") =
           VString (if truthy (stringOrEmpty (m_uid d))
                    then stringOrEmpty (m_uid d) else id)).
Proof.
  split; [done|].
  unfold POST_members_list, catch, bind, dbcall, get, ret.
  destruct (db_faults w) as [|[msg|] fl] eqn:Hf; cbn [fst snd].
  - split; [done|]. split; [done|]. intros _. eexists. split; [reflexivity|].
    split; [by rewrite length_map|]. intros i id d Hi.
    eexists. split; [cbn [reNovaMember with_db]; by rewrite lookup_map, Hi|]. done.
  - split; [done|]. split; [done|]. intros Hno. by destruct (Hno msg).
  - split; [done|]. split; [done|]. intros _. eexists. split; [reflexivity|].
    split; [by rewrite length_map|]. intros i id d Hi.
    eexists. split; [cbn [reNovaMember with_db]; by rewrite lookup_map, Hi|]. done.
Qed.

End ListMore.

Section PhoneMore.

Lemma trimEnd_fixed (s : jsstring) :
  Forall (fun c => is_whitespace c = false) s -> trimEnd s = s.
Proof.
  induction 1 as [|c t Hc _ IH]; cbn [trimEnd]; [done|].
  rewrite IH. destruct t; [by rewrite Hc|done].
Qed.

Lemma trim_fixed (s : jsstring) :
  Forall (fun c => is_whitespace c = false) s -> trim s = s.
Proof.
  intros H. unfold trim.
  assert (trimStart s = s) as -> by (destruct H as [|c t Hc _]; cbn; [done|by rewrite Hc]).
  by apply trimEnd_fixed.
Qed.

(** X18. The phone number a member is stored with is the digits and plus
    signs of the one given, in order, and nothing else; normalising it
    again changes nothing. *)
Theorem normalizePhone_digits (s : jsstring) :
  normalizePhone s =
    List.filter (fun c => ((48 <=? c) && (c <=? 57) || (c =? 43))%N) s /\
  normalizePhone (normalizePhone s) = normalizePhone s.
Proof.
  assert (forall s, normalizePhone s =
    List.filter (fun c => ((48 <=? c) && (c <=? 57) || (c =? 43))%N) s) as Hn.
  { intros s0. unfold normalizePhone. apply trim_fixed.
    apply List.Forall_forall. intros c Hc. apply filter_In in Hc as [_ Hc].
    unfold is_whitespace, is_line_terminator.
    repeat match goal with
    | |- context [(?a =? ?b)%N] =>
        let E := fresh in destruct (a =? b)%N eqn:E;
        [apply N.eqb_eq in E; subst; by vm_compute in Hc|]
    end.
    cbn [orb]. destruct (8192 <=? c)%N eqn:E1; [|done].
    apply N.leb_le in E1. apply orb_true_iff in Hc as [Hc|Hc].
    - apply andb_true_iff in Hc as [_ Hc]. apply N.leb_le in Hc. lia.
    - apply N.eqb_eq in Hc. lia. }
  split; [apply Hn|]. rewrite !Hn.
  induction s as [|c t IH]; cbn [List.filter]; [done|].
  destruct (_ || _)%N eqn:E; [|done]. cbn [List.filter]. by rewrite E, IH.
Qed.

End PhoneMore.

Section CancelMore.

Lemma truthy_true (s : jsstring) : truthy s = true -> s <> [].
Proof. by destruct s. Qed.

Lemma cancel_frame_wp (w : World) (req : Request) :
  wp (POST_cancel_at_period_end req)
     (fun r w' =>
        renovaUsers w' = renovaUsers w /\
        createdUsers w' = createdUsers w /\
        (forall resp, r = inr resp -> is_ok resp = false ->
           reNovaMember w' = reNovaMember w) /\
        provider_asked w req w') w.
Proof.
  unfold POST_cancel_at_period_end. wp_walk.
  all: split; [reflexivity|]; split; [reflexivity|]; split;
    [try (intros ? _ _; reflexivity);
     try (intros ? [= <-] Hok; discriminate Hok)|].
  all: try (left; reflexivity).
  all: right.
  all: match goal with
       | H : toBoolOrNull _ = Some _ |- _ => apply toBoolOrNull_Some in H
       end.
  all: match goal with
       | H : negb (truthy (match ?x with _ => _ end)) = false |- _ =>
           destruct x as [B|] eqn:HB; [|discriminate H];
           apply negb_false_iff, truthy_true in H
       end.
  all: eexists _, _, _, B; split; [eassumption|]; split; [eassumption|];
       split; [exact HB|]; split; [assumption|]; reflexivity.
Qed.

(** X19. A refused cancellation writes nothing.  However the
    cancel-at-period-end handler ends, [renovaUsers] and the accounts
    are as before; and unless it answers [ok: true], so is the member
    collection. *)
Theorem cancel_rejection_writes_nothing (w : World) (req : Request) r w' :
  POST_cancel_at_period_end req w = (r, w') ->
  renovaUsers w' = renovaUsers w /\
  createdUsers w' = createdUsers w /\
  (forall resp, r = inr resp -> is_ok resp = false ->
     reNovaMember w' = reNovaMember w).
Proof.
  intros H.
  destruct (wp_run _ _ _ _ _ (cancel_frame_wp w req) H) as (? & ? & ? & _).
  done.
Qed.

(** X20. The billing provider is asked about the subscription on file
    only.  However the cancel-at-period-end handler ends, it has asked
    the provider nothing, or once: to update the subscription whose
    identifier some member document holds, a non-empty string, with the
    flag of the request.  No identifier of the request reaches the
    provider. *)
Theorem cancel_provider_call (w : World) (req : Request) r w' :
  POST_cancel_at_period_end req w = (r, w') ->
  provider_asked w req w'.
Proof.
  intros H.
  by destruct (wp_run _ _ _ _ _ (cancel_frame_wp w req) H) as (_ & _ & _ & ?).
Qed.

End CancelMore.

(** ** The work-type page *)

Lemma wp_onClient {A} (m : Eff Client A) (Q : jsstring + A -> Desk -> Prop) d :
  wp m (fun r c => Q r {| client := c; notices := notices d |}) (client d) ->
  wp (onClient m) Q d.
Proof. unfold wp, onClient. by destruct (m (client d)). Qed.

Lemma wp_remote (Q : jsstring + unit -> Client -> Prop) w :
  match faults (store w) with
  | Some msg :: _ => Q (inl msg) (afterCall w)
  | _ => Q (inr tt) (afterCall w)
  end ->
  wp remote Q w.
Proof.
  unfold wp, remote, afterCall, with_store.
  by destruct (faults (store w)) as [|[msg|] fl].
Qed.

Lemma wp_finally {S A} (m : Eff S A) (f : Eff S unit) Q s :
  wp m (fun r s1 => wp f (fun r2 s2 =>
                            match r2 with
                            | inl e => Q (inl e) s2
                            | inr _ => Q r s2
                            end) s1) s ->
  wp (finally m f) Q s.
Proof.
  unfold wp, finally. destruct (m s) as [r s1]. cbn.
  by destruct (f s1) as [[e|[]] s2].
Qed.

Ltac desk_simpl :=
  cbv beta iota zeta;
  cbn [client notices page store ids alerts faults codesCol templatesCol
       clock autoIds with_store with_page afterCall negb tail
       put_code put_template delete_code delete_template
       merge_code_label merge_template_title merge_code_enabled
       userUid codesMap templatesMeta loadingTemplatesMeta workTypeId
       newWorkLabel title steps saving lastLoadedAt].

Ltac desk_walk :=
  repeat (desk_simpl;
    lazymatch goal with
    | |- wp (bind _ _) _ _ => apply wp_bind
    | |- wp (catch _ _) _ _ => apply wp_catch
    | |- wp (finally _ _) _ _ => apply wp_finally
    | |- wp (ret _) _ _ => apply wp_ret
    | |- wp (throw _) _ _ => apply wp_throw
    | |- wp get _ _ => apply wp_get
    | |- wp (modify _) _ _ => apply wp_modify
    | |- wp (onClient _) _ _ => apply wp_onClient
    | |- wp remote _ _ => apply wp_remote
    | |- wp (commit _) _ _ => unfold commit
    | |- wp (notify _) _ _ => unfold notify
    | |- wp (alert _) _ _ => unfold alert
    | |- wp requireLogin _ _ => unfold requireLogin
    | |- wp loadTemplatesMeta _ _ => unfold loadTemplatesMeta
    | |- wp (setTemplatesMeta _) _ _ => unfold setTemplatesMeta
    | |- wp (setLoadingTemplatesMeta _) _ _ => unfold setLoadingTemplatesMeta
    | |- wp (setWorkTypeId _) _ _ => unfold setWorkTypeId
    | |- wp (if ?c then _ else _) _ _ => destruct c eqn:?
    | |- wp (match ?c with _ => _ end) _ _ => destruct c eqn:?
    | |- match ?l with [] => _ | _ :: _ => _ end => destruct l as [|[?|] ?]
    end); desk_simpl.

Section ManageFacts.

Variable collationKey : jsstring -> list N.

Lemma Map_get_set_ne {V} (m : JsMap V) (k k' : jsstring) (v : V) :
  k <> k' -> Map_get (Map_set m k v) k' = Map_get m k'.
Proof. intros H. rewrite Map_get_set. by rewrite decide_False. Qed.

Lemma queueImports_unknown codesMap docs nextOrder :
  Forall (fun b => Map_has codesMap (bs_id b) = false)
         (queueImports codesMap docs nextOrder).
Proof.
  revert nextOrder. induction docs as [|d docs IH]; intros n; cbn [queueImports];
    [constructor|].
  destruct (Map_has codesMap d.1) eqn:E; [apply IH|].
  constructor; [done|apply IH].
Qed.

Lemma batch_commit_frame (writes : list BatchSet) (now : Z) (s : Firestore) :
  templatesCol (batch_commit writes now s) = templatesCol s /\
  faults (batch_commit writes now s) = faults s /\
  autoIds (batch_commit writes now s) = autoIds s /\
  forall id, ~ In id (List.map bs_id writes) ->
    Map_get (codesCol (batch_commit writes now s)) id = Map_get (codesCol s) id.
Proof.
  unfold batch_commit. revert s.
  induction writes as [|b writes IH]; intros s; cbn [foldl List.map]; [done|].
  destruct (IH (put_code (bs_id b)
    {| cd_label := Some (bs_label b); cd_order := bs_order b;
       cd_enabled := Some true; cd_createdAt := Some now;
       cd_updatedAt := Some now |} s)) as (-> & -> & -> & Hget).
  repeat (split; [done|]). intros id Hid. rewrite Hget.
  - cbn [put_code codesCol]. apply Map_get_set_ne. intros E. apply Hid. by left.
  - intros Hin. apply Hid. by right.
Qed.

(** X21. Importing never touches a code the page knows.  However the
    action ends, the templates are as before, and so is every code
    whose identifier is in the page's map of codes. *)
Theorem import_skips_known (d : Desk) r d' :
  importFromTemplates collationKey d = (r, d') ->
  templatesCol (store (client d')) = templatesCol (store (client d)) /\
  forall id, Map_has (codesMap (page (client d))) id = true ->
    Map_get (codesCol (store (client d'))) id =
    Map_get (codesCol (store (client d))) id.
Proof.
  intros H. refine (wp_run _ (fun _ d' => _) _ _ _ _ H).
  unfold importFromTemplates. desk_walk.
  all: try (split; [reflexivity|]; intros; reflexivity).
  all: pose proof (queueImports_unknown (codesMap (page (client d)))
         (templatesCol (store (client d)))
         (number_add
            (maxOrder (workTypes collationKey
               (codesMap (page (client d)))
               (templatesMeta (page (client d)))))
            (Finite 1))) as Hun.
  all: lazymatch goal with
       | |- context [batch_commit ?ws ?now ?s] =>
           pose proof (batch_commit_frame ws now s) as HH
       end.
  all: destruct HH as (Ht & _ & _ & Hget).
  all: split; [exact Ht|]; intros id Hid; rewrite Hget; [reflexivity|];
       intros Hin; apply in_map_iff in Hin as (b & <- & Hb);
       eapply List.Forall_forall in Hun; [|exact Hb]; congruence.
Qed.


(** X22. Importing is all or nothing.  For a signed-in user the action
    returns and shows one message; the page and its alerts are as
    before; and unless the message reports an import, of one code at
    least, the codes are as before. *)
Theorem import_all_or_nothing (d : Desk) :
  loggedIn (client d) ->
  exists d' n,
    importFromTemplates collationKey d = (inr tt, d') /\
    notices d' = notices d ++ [n] /\
    page (client d') = page (client d) /\
    alerts (client d') = alerts (client d) /\
    ((exists c, n = NoticeImported c /\ c <> 0%nat) \/
     codesCol (store (client d')) = codesCol (store (client d))).
Proof.
  intros (c & u & Hu).
  assert (wp (importFromTemplates collationKey)
            (fun r d' => exists n,
               r = inr tt /\ notices d' = notices d ++ [n] /\
               page (client d') = page (client d) /\
               alerts (client d') = alerts (client d) /\
               ((exists c, n = NoticeImported c /\ c <> 0%nat) \/
                codesCol (store (client d')) = codesCol (store (client d))))
            d) as H.
  { unfold importFromTemplates. desk_walk; try congruence.
    all: eexists; split; [reflexivity|]; split; [reflexivity|];
         split; [reflexivity|]; split; [reflexivity|].
    all: first [ by right | left; by eexists ]. }
  destruct (importFromTemplates collationKey d) as [r d'] eqn:E.
  destruct (wp_run _ _ _ _ _ H E) as (n & -> & H'). by exists d', n.
Qed.


(** The code a template without code is imported as. *)
Lemma queueImports_imap codesMap docs (k : Z) :
  queueImports codesMap docs (Finite k) =
  imap (fun i e =>
          {| bs_id := e.1;
             bs_label := if truthy (default e.1 (td_title e.2))
                         then default e.1 (td_title e.2) else e.1;
             bs_order := Finite (k + Z.of_nat i) |})
       (List.filter (fun e => negb (Map_has codesMap e.1)) docs).
Proof.
  revert k. induction docs as [|e docs IH]; intros k; [done|].
  cbn [queueImports List.filter]. destruct (Map_has codesMap e.1); cbn [negb].
  - apply IH.
  - cbn [imap]. f_equal.
    + unfold normStr. do 2 f_equal. lia.
    + cbn [number_add]. rewrite IH. apply imap_ext. intros i x _. cbn.
      do 2 f_equal. lia.
Qed.

Lemma batch_commit_lookup (writes : list BatchSet) (now : Z) (s : Firestore)
    (i : nat) (b : BatchSet) :
  NoDup (List.map bs_id writes) -> writes !! i = Some b ->
  Map_get (codesCol (batch_commit writes now s)) (bs_id b) =
    Some {| cd_label := Some (bs_label b); cd_order := bs_order b;
            cd_enabled := Some true; cd_createdAt := Some now;
            cd_updatedAt := Some now |}.
Proof.
  revert s i. induction writes as [|a writes IH]; intros s i Hnd Hi; [done|].
  cbn [List.map] in Hnd. apply NoDup_cons in Hnd as [Hnotin Hnd].
  destruct i as [|i]; cbn in Hi.
  - injection Hi as ->. change (batch_commit (b :: writes) now s) with
      (batch_commit writes now (put_code (bs_id b)
         {| cd_label := Some (bs_label b); cd_order := bs_order b;
            cd_enabled := Some true; cd_createdAt := Some now;
            cd_updatedAt := Some now |} s)).
    destruct (batch_commit_frame writes now (put_code (bs_id b)
         {| cd_label := Some (bs_label b); cd_order := bs_order b;
            cd_enabled := Some true; cd_createdAt := Some now;
            cd_updatedAt := Some now |} s)) as (_ & _ & _ & Hget).
    rewrite Hget.
    + cbn [put_code codesCol]. apply Map_get_set_eq.
    + intros Hin. apply Hnotin. by apply list_elem_of_In.
  - apply (IH _ i Hnd Hi).
Qed.

Lemma NoDup_map_filter {X Y} (f : X -> Y) (p : X -> bool) (l : list X) :
  NoDup (List.map f l) -> NoDup (List.map f (List.filter p l)).
Proof.
  induction l as [|x l IH]; cbn [List.map List.filter]; [done|].
  intros H. apply NoDup_cons in H as [Hx Hl].
  destruct (p x); [|by apply IH]. cbn [List.map]. apply NoDup_cons.
  split; [|by apply IH]. intros Hin. apply Hx.
  apply list_elem_of_In, in_map_iff in Hin as (y & Hy & Hin).
  apply filter_In in Hin as [Hin _].
  apply list_elem_of_In, in_map_iff. by exists y.
Qed.

(** X23. What an import creates.  For a signed-in user, when the read and
    the batch go through and some template has no code in the page's
    map: the action reports as many imports as there are such
    templates; and the [i]-th of them, in the order of the snapshot, now
    has a code under its own identifier, enabled, labelled with the
    template's title (its identifier when the title is no string or is
    empty) and ordered [maxOrder + 1 + i]. *)
Theorem import_creates (d : Desk) :
  let p := page (client d) in
  let s := store (client d) in
  let missing :=
    List.filter (fun e => negb (Map_has (codesMap p) e.1)) (templatesCol s) in
  loggedIn (client d) ->
  callsSucceed 2 (client d) ->
  NoDup (List.map fst (templatesCol s)) ->
  missing <> [] ->
  exists d' m,
    importFromTemplates collationKey d = (inr tt, d') /\
    notices d' = notices d ++ [NoticeImported (length missing)] /\
    maxOrder (workTypes collationKey (codesMap p) (templatesMeta p)) = Finite m /\
    forall i id data, missing !! i = Some (id, data) ->
      Map_get (codesCol (store (client d'))) id =
        Some {| cd_label := Some (if truthy (default id (td_title data))
                                  then default id (td_title data) else id);
                cd_order := Finite (m + 1 + Z.of_nat i);
                cd_enabled := Some true;
                cd_createdAt := Some (clock s);
                cd_updatedAt := Some (clock s) |}.
Proof.
  intros p s missing (c & u & Hu) Hcalls Hnd Hmiss.
  destruct (maxOrder_spec (workTypes collationKey (codesMap p) (templatesMeta p)))
    as (m & Hm & _).
  assert (wp (importFromTemplates collationKey)
            (fun r d' =>
               r = inr tt /\
               notices d' = notices d ++ [NoticeImported (length missing)] /\
               forall i id data, missing !! i = Some (id, data) ->
                 Map_get (codesCol (store (client d'))) id =
                   Some {| cd_label := Some (if truthy (default id (td_title data))
                                             then default id (td_title data) else id);
                           cd_order := Finite (m + 1 + Z.of_nat i);
                           cd_enabled := Some true;
                           cd_createdAt := Some (clock s);
                           cd_updatedAt := Some (clock s) |}) d) as H.
  { subst p s missing. destruct d as [[p [cc tc fl ck ai] g al] ns].
    unfold callsSucceed in Hcalls. cbn [client page store templatesCol faults
      clock notices] in *.
    unfold importFromTemplates.
    desk_walk; try congruence;
      try (exfalso; inversion Hcalls as [|? ? Hf1 Hf2]; try discriminate;
           inversion Hf2; discriminate).
    all: repeat match goal with H : decide _ = _ |- _ => clear H end.
    all: rewrite Hm in *; cbn [number_add] in *; rewrite queueImports_imap in *.
    all: try (exfalso; match goal with
              | H : length (imap _ ?l) = 0%nat |- _ =>
                  rewrite length_imap in H; by destruct l
              end).
    all: split; [reflexivity|]; split; [by rewrite length_imap|].
    all: intros i id data Hi.
    all: match goal with
         | |- Map_get (codesCol (batch_commit ?ws ?now ?s)) _ = _ =>
             pose proof (batch_commit_lookup ws now s i
               {| bs_id := id;
                  bs_label := if truthy (default id (td_title data))
                              then default id (td_title data) else id;
                  bs_order := Finite (m + 1 + Z.of_nat i) |}) as HH
         end.
    all: apply HH;
      [ rewrite <- queueImports_imap;
        assert (forall k, List.map bs_id (queueImports (codesMap p) tc k) =
                  List.map fst (List.filter (fun e => negb (Map_has (codesMap p) e.1)) tc))
          as -> by (clear; induction tc as [|e tc IH]; intros k; cbn [queueImports List.filter List.map];
                    [done|destruct (Map_has _ _); cbn [negb List.map]; by rewrite ?IH]);
        by apply NoDup_map_filter
      | by rewrite list_lookup_imap, Hi ]. }
  destruct (importFromTemplates collationKey d) as [r d'] eqn:E.
  destruct (wp_run _ _ _ _ _ H E) as (-> & Hn & Hget). by exists d', m.
Qed.

Lemma Map_get_delete {V} (m : JsMap V) (k k' : jsstring) :
  Map_get (Map_delete m k) k' = if decide (k = k') then None else Map_get m k'.
Proof.
  unfold Map_get, Map_delete. induction m as [|[a v] m IH]; cbn [List.filter assoc].
  - by destruct (decide _).
  - cbn [fst]. case_bool_decide as Ha; cbn [negb].
    + subst a. rewrite IH. cbn [assoc]. by destruct (decide (k = k')).
    + cbn [assoc]. destruct (decide (a = k')) as [E|E]; [|exact IH].
      subst a. by rewrite decide_False.
Qed.

(** X24. Renaming a work type keeps the code and the template in step.
    For a signed-in user, a label that is not blank, and writes that go
    through: the code is labelled, and the template titled, with the
    trimmed label; the code keeps its order and its enabled flag, the
    template its steps; every other code and template is as before; and
    no message is shown. *)
Theorem rename_syncs (id label : jsstring) (d : Desk) :
  let s := store (client d) in
  loggedIn (client d) ->
  trim label <> [] ->
  callsSucceed 2 (client d) ->
  exists d' c t,
    renameWorkType id label d = (inr tt, d') /\
    notices d' = notices d /\ alerts (client d') = alerts (client d) /\
    Map_get (codesCol (store (client d'))) id = Some c /\
    cd_label c = Some (trim label) /\
    (forall c0, Map_get (codesCol s) id = Some c0 ->
       cd_order c = cd_order c0 /\ cd_enabled c = cd_enabled c0) /\
    Map_get (templatesCol (store (client d'))) id = Some t /\
    td_title t = Some (trim label) /\ td_workTypeId t = Some id /\
    td_steps t = Map_get (templatesCol s) id ≫= td_steps /\
    (forall id', id' <> id ->
       Map_get (codesCol (store (client d'))) id' = Map_get (codesCol s) id' /\
       Map_get (templatesCol (store (client d'))) id' =
         Map_get (templatesCol s) id').
Proof.
  intros s (c & u & Hu) Hlabel Hcalls.
  assert (truthy (trim label) = true) as Ht by (by destruct (trim label)).
  assert (wp (renameWorkType id label)
            (fun r d' => exists c t,
               r = inr tt /\
    notices d' = notices d /\ alerts (client d') = alerts (client d) /\
    Map_get (codesCol (store (client d'))) id = Some c /\
    cd_label c = Some (trim label) /\
    (forall c0, Map_get (codesCol s) id = Some c0 ->
       cd_order c = cd_order c0 /\ cd_enabled c = cd_enabled c0) /\
    Map_get (templatesCol (store (client d'))) id = Some t /\
    td_title t = Some (trim label) /\ td_workTypeId t = Some id /\
    td_steps t = Map_get (templatesCol s) id ≫= td_steps /\
    (forall id', id' <> id ->
       Map_get (codesCol (store (client d'))) id' = Map_get (codesCol s) id' /\
       Map_get (templatesCol (store (client d'))) id' =
         Map_get (templatesCol s) id')) d) as H.
  { subst s. destruct d as [[p [cc tc fl ck ai] g al] ns].
    unfold callsSucceed in Hcalls. cbn [client page store templatesCol codesCol
      faults clock notices alerts] in *.
    unfold renameWorkType.
    desk_walk; try congruence;
      try (exfalso; inversion Hcalls as [|? ? Hf1 Hf2]; try discriminate;
           inversion Hf2; discriminate);
      try match goal with
          | H : negb (truthy (trim label)) = true |- _ =>
              rewrite Ht in H; discriminate H
          end.
    all: unfold merge_code_label, merge_template_title;
         cbn [put_code put_template codesCol templatesCol].
    all: destruct (Map_get cc id) as [c0|] eqn:Hc0;
         destruct (Map_get tc id) as [t0|] eqn:Ht0.
    all: eexists _, _; split; [reflexivity|]; split; [reflexivity|];
         split; [reflexivity|].
    all: rewrite !Map_get_set_eq.
    all: split; [reflexivity|].
    all: cbn [cd_label cd_order cd_enabled td_title td_workTypeId td_steps
              mbind option_bind].
    all: split; [reflexivity|]; split; [by intros ? [= <-]|];
         split; [reflexivity|]; split; [reflexivity|]; split; [reflexivity|];
         split; [reflexivity|].
    all: intros id' Hne; by rewrite !Map_get_set_ne. }
  destruct (renameWorkType id label d) as [r d'] eqn:E.
  destruct (wp_run _ _ _ _ _ H E) as (c1 & t1 & -> & H'). by exists d', c1, t1.
Qed.

(** X25. Renaming to a blank label, or without being signed in, reaches
    no collection: the action returns after one message and the
    collections, with the outcomes of the coming calls, are as before. *)
Theorem rename_guards (id label : jsstring) (d : Desk) :
  ~ loggedIn (client d) \/ trim label = [] ->
  exists d',
    renameWorkType id label d = (inr tt, d') /\
    store (client d') = store (client d) /\
    page (client d') = page (client d) /\
    ((~ loggedIn (client d) /\ notices d' = notices d /\
      alerts (client d') = alerts (client d) ++ [AlertLogin]) \/
     (loggedIn (client d) /\ notices d' = notices d ++ [NoticeLabelBlank] /\
      alerts (client d') = alerts (client d))).
Proof.
  intros Hg.
  assert (wp (renameWorkType id label)
            (fun r d' => r = inr tt /\
    store (client d') = store (client d) /\
    page (client d') = page (client d) /\
    ((~ loggedIn (client d) /\ notices d' = notices d /\
      alerts (client d') = alerts (client d) ++ [AlertLogin]) \/
     (loggedIn (client d) /\ notices d' = notices d ++ [NoticeLabelBlank] /\
      alerts (client d') = alerts (client d)))) d) as H.
  { unfold renameWorkType.
    apply wp_bind, wp_onClient. unfold requireLogin.
    apply wp_bind, wp_get. cbv beta.
    destruct (userUid (page (client d))) as [[|c u]|] eqn:Hu.
    - desk_walk. repeat (split; [done|]). left. split; [|done].
      intros (? & ? & ?). congruence.
    - apply wp_ret. desk_simpl.
      assert (loggedIn (client d)) as Hl by (by exists c, u).
      destruct Hg as [Hg|Hg]; [done|]. rewrite Hg. cbn [truthy negb]. desk_walk.
      repeat (split; [done|]). by right.
    - desk_walk. repeat (split; [done|]). left. split; [|done].
      intros (? & ? & ?). congruence. }
  destruct (renameWorkType id label d) as [r d'] eqn:E.
  destruct (wp_run _ _ _ _ _ H E) as (-> & H'). by exists d'.
Qed.

(** X26. Enabling or disabling a work type changes that flag only.
    However the action ends, the templates and every other code are as
    before, and a code that was there keeps its label, its order and its
    creation time; for a signed-in user, when the write goes through,
    the code holds the flag given. *)
Theorem setEnabled_only_flag (id : jsstring) (enabled : bool) (d : Desk) r d' :
  setEnabled id enabled d = (r, d') ->
  let s := store (client d) in
  let s' := store (client d') in
  templatesCol s' = templatesCol s /\
  (forall id', id' <> id ->
     Map_get (codesCol s') id' = Map_get (codesCol s) id') /\
  (forall c0, Map_get (codesCol s) id = Some c0 ->
     exists c, Map_get (codesCol s') id = Some c /\
       cd_label c = cd_label c0 /\ cd_order c = cd_order c0 /\
       cd_createdAt c = cd_createdAt c0) /\
  (loggedIn (client d) -> callsSucceed 1 (client d) ->
     exists c, Map_get (codesCol s') id = Some c /\
               cd_enabled c = Some enabled).
Proof.
  intros H. refine (wp_run _ (fun _ d' => _) _ _ _ _ H). clear H.
  destruct d as [[p [cc tc fl ck ai] g al] ns].
  unfold callsSucceed, loggedIn. cbn [client page store templatesCol codesCol
      faults clock notices alerts].
  unfold setEnabled. desk_walk.
  all: unfold merge_code_enabled; cbn [put_code codesCol templatesCol take].
  all: split; [reflexivity|].
  all: split; [intros id' Hne; by rewrite ?Map_get_set_ne|].
  all: split;
    [intros c0 Hc0; rewrite ?Map_get_set_eq, ?Hc0; by eexists|].
  all: try (intros (? & ? & ?) _; congruence).
  all: try (intros _ Hcalls; exfalso;
            inversion Hcalls as [|? ? Hf1 Hf2]; discriminate).
  all: intros _ _; rewrite Map_get_set_eq; eexists; split; [reflexivity|];
       by destruct (Map_get cc id).
Qed.

(** X27. A hard delete never reports a failure.  The action returns and
    shows no message of its own, whatever the deletions do; it alerts
    only a user who is not signed in; and when the user declines, or is
    not signed in, the collections are as before. *)
Theorem hardDelete_silent (id : jsstring) (answer : bool) (d : Desk) :
  exists d',
    hardDelete id answer d = (inr tt, d') /\
    notices d' = notices d /\
    (alerts (client d') = alerts (client d) \/
     (~ loggedIn (client d) /\
      alerts (client d') = alerts (client d) ++ [AlertLogin])) /\
    (answer = false \/ ~ loggedIn (client d) ->
     store (client d') = store (client d)).
Proof.
  assert (wp (hardDelete id answer)
            (fun r d' => r = inr tt /\
    notices d' = notices d /\
    (alerts (client d') = alerts (client d) \/
     (~ loggedIn (client d) /\
      alerts (client d') = alerts (client d) ++ [AlertLogin])) /\
    (answer = false \/ ~ loggedIn (client d) ->
     store (client d') = store (client d))) d) as H.
  { unfold hardDelete.
    apply wp_bind, wp_onClient. unfold requireLogin.
    apply wp_bind, wp_get. cbv beta.
    destruct (userUid (page (client d))) as [[|c u]|] eqn:Hu.
    - desk_walk. repeat (split; [done|]). split; [|done]. right. split; [|done].
      intros (? & ? & ?). congruence.
    - apply wp_ret. desk_simpl.
      assert (loggedIn (client d)) as Hl by (by exists c, u).
      destruct answer; desk_simpl; [|by desk_walk; repeat split; auto].
      desk_walk.
      all: repeat (split; [done|]); split; [by left|];
           by intros [?|?].
    - desk_walk. repeat (split; [done|]). split; [|done]. right. split; [|done].
      intros (? & ? & ?). congruence. }
  destruct (hardDelete id answer d) as [r d'] eqn:E.
  destruct (wp_run _ _ _ _ _ H E) as (-> & H'). by exists d'.
Qed.

(** X28. What a hard delete removes.  For a signed-in user who confirms,
    when the two deletions go through: neither collection has a
    document under the identifier any more, and every other document of
    either is as before. *)
Theorem hardDelete_removes (id : jsstring) (d : Desk) :
  let s := store (client d) in
  loggedIn (client d) ->
  callsSucceed 2 (client d) ->
  exists d',
    hardDelete id true d = (inr tt, d') /\
    Map_get (codesCol (store (client d'))) id = None /\
    Map_get (templatesCol (store (client d'))) id = None /\
    (forall id', id' <> id ->
       Map_get (codesCol (store (client d'))) id' = Map_get (codesCol s) id' /\
       Map_get (templatesCol (store (client d'))) id' =
         Map_get (templatesCol s) id').
Proof.
  intros s (c & u & Hu) Hcalls.
  assert (wp (hardDelete id true)
            (fun r d' => r = inr tt /\
    Map_get (codesCol (store (client d'))) id = None /\
    Map_get (templatesCol (store (client d'))) id = None /\
    (forall id', id' <> id ->
       Map_get (codesCol (store (client d'))) id' = Map_get (codesCol s) id' /\
       Map_get (templatesCol (store (client d'))) id' =
         Map_get (templatesCol s) id')) d) as H.
  { subst s. destruct d as [[p [cc tc fl ck ai] g al] ns].
    unfold callsSucceed in Hcalls. cbn [client page store templatesCol codesCol
      faults clock notices alerts] in *.
    unfold hardDelete.
    desk_walk; try congruence;
      try (exfalso; inversion Hcalls as [|? ? Hf1 Hf2]; try discriminate;
           inversion Hf2; discriminate).
    all: split; [reflexivity|]; rewrite !Map_get_delete, !decide_True by done.
    all: split; [reflexivity|]; split; [reflexivity|].
    all: intros id' Hne; rewrite !Map_get_delete, !decide_False by done; done. }
  destruct (hardDelete id true d) as [r d'] eqn:E.
  destruct (wp_run _ _ _ _ _ H E) as (-> & H'). by exists d'.
Qed.


Lemma codesOfSnapshot_get (docs : list (jsstring * CodeData)) id c :
  Map_get (codesOfSnapshot docs) id = Some c ->
  exists d, In (id, d) docs /\
    c_label c = default id (cd_label d) /\
    c_order c = normNum (cd_order d) (Finite 0) /\
    c_enabled c = default true (cd_enabled d).
Proof.
  unfold codesOfSnapshot.
  assert (forall acc : JsMap WorkTypeCodeDoc,
    (forall id c, Map_get acc id = Some c ->
       exists d, In (id, d) docs /\
         c_label c = default id (cd_label d) /\
         c_order c = normNum (cd_order d) (Finite 0) /\
         c_enabled c = default true (cd_enabled d)) ->
    forall l, (forall x, In x l -> In x docs) ->
    forall id c,
      Map_get (foldl (fun m d =>
                 Map_set m d.1
                   {| c_label := normStr (cd_label d.2) d.1;
                      c_order := normNum (cd_order d.2) (Finite 0);
                      c_enabled := normBool (cd_enabled d.2) true |}) acc l) id
        = Some c ->
      exists d, In (id, d) docs /\
        c_label c = default id (cd_label d) /\
        c_order c = normNum (cd_order d) (Finite 0) /\
        c_enabled c = default true (cd_enabled d)) as Hfold.
  { intros acc Hacc l. revert acc Hacc.
    induction l as [|[k d] l IH]; intros acc Hacc Hl id0 c0; cbn [foldl]; [apply Hacc|].
    apply IH; [|intros x Hx; apply Hl; by right].
    intros id1 c1. rewrite Map_get_set. cbn [fst snd].
    destruct (decide (k = id1)) as [<-|Hne]; [|apply Hacc].
    intros [= <-]. exists d. split; [apply Hl; by left|]. done. }
  apply (Hfold [] ltac:(done) docs ltac:(done)).
Qed.

(** X29. Orders that come from a snapshot are finite.  In the catalog
    built from the codes of a snapshot and any templates, every row has
    a finite order (a code whose stored order is no finite number counts
    as 0, a template without code as 999999); so [maxOrder] is the
    largest order of all rows, and 0 for an empty catalog. *)
Theorem snapshot_orders_finite (docs : list (jsstring * CodeData))
    (templatesMeta : JsMap TemplateMeta) :
  let rows := workTypes collationKey (codesOfSnapshot docs) templatesMeta in
  exists m,
    maxOrder rows = Finite m /\
    (forall row, In row rows -> exists z, r_order row = Finite z /\ z <= m) /\
    (rows = [] -> m = 0) /\
    (rows <> [] -> exists row, In row rows /\ r_order row = Finite m).
Proof.
  intros rows.
  assert (forall row, In row rows -> exists z, r_order row = Finite z) as Hfin.
  { intros row Hrow. rewrite (workTypes_rowOf _ _ _ _ Hrow).
    cbn [rowOf r_order r_id].
    destruct (Map_get (codesOfSnapshot docs) (r_id row)) as [c|] eqn:Hc;
      [|by eexists].
    apply codesOfSnapshot_get in Hc as (d & _ & _ & -> & _).
    unfold normNum. destruct (cd_order d); cbn; by eexists. }
  destruct (maxOrder_spec rows) as (m & Hm & Hub & Hmax).
  exists m. split; [done|]. split; [|split].
  - intros row Hrow. destruct (Hfin row Hrow) as [z Hz]. exists z.
    split; [done|]. by eapply Hub.
  - intros E. destruct Hmax as [[_ ?]|(r & Hr & _)]; [done|].
    rewrite E in Hr. destruct Hr.
  - intros Hne. destruct Hmax as [[Hnone _]|?]; [|done].
    destruct rows as [|r rs]; [done|].
    destruct (Hfin r ltac:(by left)) as [z Hz].
    assert (In z (finiteOrders (r :: rs))) as Hin
      by (apply finiteOrders_In; exists r; split; [by left|done]).
    rewrite Hnone in Hin. destruct Hin.
Qed.

Lemma existsb_id (rows : list WorkTypeRow) (id : jsstring) :
  existsb (fun r => bool_decide (r_id r = id)) rows = true <->
  In id (List.map r_id rows).
Proof.
  rewrite existsb_exists, in_map_iff. split.
  - intros (r & Hr & E). apply bool_decide_eq_true in E. by exists r.
  - intros (r & E & Hr). exists r. split; [done|]. by apply bool_decide_eq_true.
Qed.

(** X30. The selection settles on a row of the catalog.  The effect
    returns and changes nothing but the selection: the collections, the
    identifiers to come, the alerts and every other field of the page
    are as before.  It leaves a selection that names a row as it is; and
    after it, unless the catalog is empty, the selection names a row:
    the first one when it named none before. *)
Theorem selectExisting_selects (w : Client) :
  let rows := workTypes collationKey (codesMap (page w)) (templatesMeta (page w)) in
  exists w',
    selectExisting collationKey w = (inr tt, w') /\
    store w' = store w /\ ids w' = ids w /\ alerts w' = alerts w /\
    userUid (page w') = userUid (page w) /\
    codesMap (page w') = codesMap (page w) /\
    templatesMeta (page w') = templatesMeta (page w) /\
    loadingTemplatesMeta (page w') = loadingTemplatesMeta (page w) /\
    newWorkLabel (page w') = newWorkLabel (page w) /\
    title (page w') = title (page w) /\
    steps (page w') = steps (page w) /\
    saving (page w') = saving (page w) /\
    lastLoadedAt (page w') = lastLoadedAt (page w) /\
    (In (workTypeId (page w)) (List.map r_id rows) -> w' = w) /\
    (rows <> [] -> In (workTypeId (page w')) (List.map r_id rows)) /\
    (~ In (workTypeId (page w)) (List.map r_id rows) ->
     r_id <$> head rows = Some (workTypeId (page w')) \/ rows = []).
Proof.
  intros rows. unfold selectExisting. unfold bind, get. cbv zeta. fold rows.
  destruct rows as [|first rest] eqn:Hrows.
  { exists w. repeat (split; [done|]). intros _. by right. }
  destruct (existsb _ (first :: rest)) eqn:Hex; cbn [negb].
  - apply existsb_id in Hex. exists w. repeat (split; [done|]).
    by intros [].
  - eexists. split; [reflexivity|]. cbn [setWorkTypeId modify snd].
    unfold with_page.
    cbn [page store ids alerts userUid codesMap templatesMeta
         loadingTemplatesMeta newWorkLabel title steps saving lastLoadedAt
         workTypeId].
    repeat (split; [done|]). split; [|split].
    + intros Hin. apply existsb_id in Hin. congruence.
    + intros _. by left.
    + intros _. by left.
Qed.

End ManageFacts.

(** ** The further properties at concrete inputs *)

Lemma create_request_authorized (password : string) :
  authorized world0 (create_request password).
Proof. exists (js "adminA"). by vm_compute. Defined.

Lemma create_user_validates_witness :
  authorized world0 (create_request "12345") /\
  POST_create_user (create_request "12345") world0 =
    (inr (json_error 400 (js "password_min_6")), world0).
Proof.
  split; [apply create_request_authorized|].
  refine (proj1 (proj2 (create_user_validates world0 (create_request "12345") _
                          (create_request_authorized "12345") eq_refl I)) _ _).
  - by vm_compute.
  - vm_compute. lia.
Defined.

Lemma create_user_creates_witness :
  authorized world0 (create_request "123456") /\
  exists resp w',
    POST_create_user (create_request "123456") world0 = (inr resp, w') /\
    createdUsers w' = [(js "uid_new", js "new@example.com")] /\
    resp = ok_response [(js "uid", VString (js "uid_new"))].
Proof.
  split; [apply create_request_authorized|].
  pose proof (create_user_creates world0 (create_request "123456") _
                (create_request_authorized "123456") eq_refl I) as H.
  cbv zeta in H.
  specialize (H ltac:(by vm_compute) ltac:(vm_compute; lia)
                ltac:(by vm_compute) ltac:(by vm_compute)).
  change (createUser world0 _ _ _) with (@inr jsstring jsstring (js "uid_new")) in H.
  destruct H as (resp & w' & Hrun & Hcreated & _ & Hdb).
  change (db_faults world0) with (@nil (option jsstring)) in Hdb.
  destruct Hdb as [Hresp _].
  exists resp, w'. split; [exact Hrun|]. split; [exact Hcreated|exact Hresp].
Defined.

Lemma billing_status_frame_witness :
  exists r w',
    POST_billing_status billing_request world0 = (r, w') /\
    reNovaMember w' = reNovaMember world0 /\
    stripeCalls w' = stripeCalls world0 /\
    exists target, forall id, id <> target ->
      Map_get (renovaUsers w') id = Map_get (renovaUsers world0) id.
Proof.
  destruct (POST_billing_status billing_request world0) as [r w'] eqn:Hrun.
  exists r, w'. split; [reflexivity|].
  destruct (billing_status_frame billing_request world0 r w' Hrun)
    as (Hm & _ & Hs & target & Hothers & _).
  split; [exact Hm|]. split; [exact Hs|]. by exists target.
Defined.

Lemma gate_fails_closed_witness :
  noAdmins world_closed /\
  exists resp1 resp2,
    POST_create_user (create_request "123456") world_closed =
      (inr resp1, world_closed) /\ is_ok resp1 = false /\
    POST_billing_status billing_request world_closed =
      (inr resp2, world_closed) /\ is_ok resp2 = false.
Proof.
  assert (noAdmins world_closed) as Hn by reflexivity.
  split; [exact Hn|].
  destruct (gate_fails_closed world_closed (create_request "123456") Hn)
    as (r1 & _ & H1 & Hok1 & _).
  destruct (gate_fails_closed world_closed billing_request Hn)
    as (_ & r2 & _ & _ & H2 & Hok2).
  exists r1, r2. split; [exact H1|]. split; [exact Hok1|].
  split; [exact H2|exact Hok2].
Defined.

Lemma findMemberRefByUid_finds_witness :
  exists w',
    findMemberRefByUid (js "user1") world0 = (inr (Some (js "user1")), w') /\
    exists d, In (js "user1", d) (reNovaMember world0).
Proof.
  destruct (findMemberRefByUid (js "user1") world0) as [r w'] eqn:Hrun.
  assert (r = inr (Some (js "user1"))) as ->
    by (vm_compute in Hrun; by injection Hrun as <- _).
  exists w'. split; [reflexivity|].
  destruct (findMemberRefByUid_finds (js "user1") world0 _ w' Hrun)
    as (_ & _ & d & Hin & _).
  by exists d.
Defined.

Lemma cancel_rejection_writes_nothing_witness :
  exists resp w',
    POST_cancel_at_period_end cancel_by_user world_write_fails = (inr resp, w') /\
    is_ok resp = false /\
    reNovaMember w' = reNovaMember world_write_fails.
Proof.
  destruct (POST_cancel_at_period_end cancel_by_user world_write_fails)
    as [r w'] eqn:Hrun.
  assert (exists resp, r = inr resp /\ is_ok resp = false) as (resp & -> & Hok).
  { vm_compute in Hrun. injection Hrun as <- _. eexists. by split. }
  exists resp, w'. split; [reflexivity|]. split; [exact Hok|].
  destruct (cancel_rejection_writes_nothing world_write_fails cancel_by_user
              _ w' Hrun) as (_ & _ & H).
  exact (H resp eq_refl Hok).
Defined.

Lemma cancel_provider_call_witness :
  exists r w',
    POST_cancel_at_period_end cancel_by_user world_write_fails = (r, w') /\
    provider_asked world_write_fails cancel_by_user w'.
Proof.
  destruct (POST_cancel_at_period_end cancel_by_user world_write_fails)
    as [r w'] eqn:Hrun.
  exists r, w'. split; [reflexivity|].
  exact (cancel_provider_call world_write_fails cancel_by_user r w' Hrun).
Defined.

Lemma desk0_loggedIn (faults : list (option jsstring)) :
  loggedIn (client (desk0 faults)).
Proof. do 2 eexists. reflexivity. Defined.

Lemma import_skips_known_witness :
  exists r d',
    importFromTemplates codeUnitKey (desk0 []) = (r, d') /\
    Map_get (codesCol (store (client d'))) (js "roof") =
    Map_get (codesCol (store0 [])) (js "roof").
Proof.
  destruct (importFromTemplates codeUnitKey (desk0 [])) as [r d'] eqn:Hrun.
  exists r, d'. split; [reflexivity|].
  destruct (import_skips_known codeUnitKey (desk0 []) r d' Hrun) as [_ H].
  exact (H (js "roof") eq_refl).
Defined.

Lemma import_all_or_nothing_witness :
  loggedIn (client (desk0 [None; Some (js "unavailable")])) /\
  exists d' n,
    importFromTemplates codeUnitKey (desk0 [None; Some (js "unavailable")]) =
      (inr tt, d') /\
    notices d' = [n].
Proof.
  split; [apply desk0_loggedIn|].
  destruct (import_all_or_nothing codeUnitKey
              (desk0 [None; Some (js "unavailable")]) (desk0_loggedIn _))
    as (d' & n & Hrun & Hn & _).
  by exists d', n.
Defined.

Lemma import_creates_witness :
  loggedIn (client (desk0 [])) /\
  callsSucceed 2 (client (desk0 [])) /\
  exists d' m,
    importFromTemplates codeUnitKey (desk0 []) = (inr tt, d') /\
    notices d' = [NoticeImported 1] /\
    Map_get (codesCol (store (client d'))) (js "paint") =
      Some {| cd_label := Some (js "paint");
              cd_order := Finite (m + 1 + 0);
              cd_enabled := Some true;
              cd_createdAt := Some 100;
              cd_updatedAt := Some 100 |}.
Proof.
  assert (callsSucceed 2 (client (desk0 []))) as Hc by constructor.
  split; [apply desk0_loggedIn|]. split; [exact Hc|].
  pose proof (import_creates codeUnitKey (desk0 [])) as H. cbv zeta in H.
  specialize (H (desk0_loggedIn []) Hc).
  destruct H as (d' & m & Hrun & Hn & _ & Hget).
  - cbn. apply NoDup_cons. split; [apply not_elem_of_nil|apply NoDup_nil_2].
  - by vm_compute.
  - exists d', m. split; [exact Hrun|]. split; [exact Hn|].
    exact (Hget 0%nat (js "paint") _ eq_refl).
Defined.

Lemma rename_syncs_witness :
  loggedIn (client (desk0 [])) /\
  trim (js " Roofing ") <> [] /\
  callsSucceed 2 (client (desk0 [])) /\
  exists d' c t,
    renameWorkType (js "roof") (js " Roofing ") (desk0 []) = (inr tt, d') /\
    Map_get (codesCol (store (client d'))) (js "roof") = Some c /\
    cd_label c = Some (js "Roofing") /\
    Map_get (templatesCol (store (client d'))) (js "roof") = Some t /\
    td_title t = Some (js "Roofing").
Proof.
  assert (trim (js " Roofing ") <> []) as Hl by (by vm_compute).
  assert (callsSucceed 2 (client (desk0 []))) as Hc by constructor.
  split; [apply desk0_loggedIn|]. split; [exact Hl|]. split; [exact Hc|].
  pose proof (rename_syncs (js "roof") (js " Roofing ") (desk0 [])) as H.
  cbv zeta in H.
  destruct (H (desk0_loggedIn []) Hl Hc)
    as (d' & c & t & Hrun & _ & _ & Hcode & Hlabel & _ & Htpl & Htitle & _).
  exists d', c, t. split; [exact Hrun|]. split; [exact Hcode|].
  split; [exact Hlabel|]. split; [exact Htpl|exact Htitle].
Defined.

Lemma rename_guards_witness :
  trim (js "  ") = [] /\
  exists d',
    renameWorkType (js "roof") (js "  ") (desk0 []) = (inr tt, d') /\
    store (client d') = store0 [].
Proof.
  split; [reflexivity|].
  destruct (rename_guards (js "roof") (js "  ") (desk0 []) (or_intror eq_refl))
    as (d' & Hrun & Hstore & _).
  by exists d'.
Defined.

Lemma setEnabled_only_flag_witness :
  exists r d',
    setEnabled (js "roof") false (desk0 []) = (r, d') /\
    templatesCol (store (client d')) = templatesCol (store0 []) /\
    exists c, Map_get (codesCol (store (client d'))) (js "roof") = Some c /\
              cd_enabled c = Some false.
Proof.
  destruct (setEnabled (js "roof") false (desk0 [])) as [r d'] eqn:Hrun.
  exists r, d'. split; [reflexivity|].
  pose proof (setEnabled_only_flag (js "roof") false (desk0 []) r d' Hrun) as H.
  cbv zeta in H. destruct H as (Ht & _ & _ & Hflag).
  split; [exact Ht|]. apply Hflag; [apply desk0_loggedIn|constructor].
Defined.

Lemma hardDelete_removes_witness :
  loggedIn (client (desk0 [])) /\
  callsSucceed 2 (client (desk0 [])) /\
  exists d',
    hardDelete (js "roof") true (desk0 []) = (inr tt, d') /\
    Map_get (codesCol (store (client d'))) (js "roof") = None.
Proof.
  assert (callsSucceed 2 (client (desk0 []))) as Hc by constructor.
  split; [apply desk0_loggedIn|]. split; [exact Hc|].
  pose proof (hardDelete_removes (js "roof") (desk0 [])) as H. cbv zeta in H.
  destruct (H (desk0_loggedIn []) Hc) as (d' & Hrun & Hcode & _).
  by exists d'.
Defined.

(** ** Saving, as stored *)

Lemma wp_withIds {A} (m : Eff Supply A) (Q : jsstring + A -> Client -> Prop) w :
  (forall r g, m (ids w) = (r, g) ->
     Q r {| page := page w; store := store w; ids := g; alerts := alerts w |}) ->
  wp (withIds m) Q w.
Proof. intros H. unfold wp, withIds. destruct (m (ids w)) as [r g] eqn:E. by apply H. Qed.

Ltac save_walk :=
  repeat (desk_simpl;
    lazymatch goal with
    | |- wp (bind _ _) _ _ => apply wp_bind
    | |- wp (catch _ _) _ _ => apply wp_catch
    | |- wp (finally _ _) _ _ => apply wp_finally
    | |- wp (ret _) _ _ => apply wp_ret
    | |- wp (throw _) _ _ => apply wp_throw
    | |- wp get _ _ => apply wp_get
    | |- wp (modify _) _ _ => apply wp_modify
    | |- wp remote _ _ => apply wp_remote
    | |- wp (commit _) _ _ => unfold commit
    | |- wp (alert _) _ _ => unfold alert
    | |- wp requireLogin _ _ => unfold requireLogin
    | |- wp loadTemplatesMeta _ _ => unfold loadTemplatesMeta
    | |- wp (setTemplatesMeta _) _ _ => unfold setTemplatesMeta
    | |- wp (setLoadingTemplatesMeta _) _ _ => unfold setLoadingTemplatesMeta
    | |- wp (setSaving _) _ _ => unfold setSaving
    | |- wp (setLastLoadedAt _) _ _ => unfold setLastLoadedAt
    | |- wp (if ?c then _ else _) _ _ => destruct c eqn:?
    | |- wp (match ?c with _ => _ end) _ _ => destruct c eqn:?
    | |- match ?l with [] => _ | _ :: _ => _ end => destruct l as [|[?|] ?]
    end); desk_simpl.

Section SavePersists.

Variable collationKey : jsstring -> list N.

Lemma onSaveTemplate_persists (w : Client) saved g' :
  loggedIn w -> callsSucceed 1 w ->
  normalizeStepsForSave (steps (page w)) (ids w) = (inr saved, g') ->
  exists w' doc,
    onSaveTemplate collationKey w = (inr tt, w') /\
    Map_get (templatesCol (store w')) (workTypeId (page w)) = Some doc /\
    td_steps doc = Some (persisted saved) /\
    td_workTypeId doc = Some (workTypeId (page w)) /\
    td_title doc = Some (trim (titleOrFallback collationKey (page w))).
Proof.
  intros (c & u & Hu) Hcalls Hs.
  assert (wp (onSaveTemplate collationKey)
            (fun r w' => r = inr tt /\
               exists doc,
                 Map_get (templatesCol (store w')) (workTypeId (page w)) = Some doc /\
                 td_steps doc = Some (persisted saved) /\
                 td_workTypeId doc = Some (workTypeId (page w)) /\
                 td_title doc = Some (trim (titleOrFallback collationKey (page w))))
            w) as H.
  { destruct w as [p [cc tc fl ck ai] g al].
    unfold callsSucceed in Hcalls.
    cbn [page store ids faults userUid steps workTypeId] in *.
    unfold onSaveTemplate.
    apply wp_bind. unfold requireLogin. apply wp_bind, wp_get. desk_simpl.
    rewrite Hu. apply wp_ret. desk_simpl.
    apply wp_bind, wp_get. desk_simpl.
    apply wp_bind, wp_withIds. intros r g0 Hr. desk_simpl.
    cbn [page ids] in Hr. rewrite Hs in Hr. injection Hr as <- <-.
    save_walk;
      try (exfalso; inversion Hcalls as [|? ? Hf1 Hf2]; discriminate).
    all: split; [reflexivity|].
    all: rewrite ?Map_get_set_eq.
    all: eexists; split; [first [reflexivity|eassumption]|]; try done. }
  destruct (onSaveTemplate collationKey w) as [r w'] eqn:E.
  destruct (wp_run _ _ _ _ _ H E) as (-> & doc & Hd). by exists w', doc.
Qed.

(** C3. Save canonicalization.  For a signed-in user whose write of the
    template goes through, whatever the later calls do, [onSaveTemplate]
    returns and the template stored under the selected work type holds,
    as [steps], the list that [normalizeStepsForSave] makes of the
    page's step list.  The names of that list are the trimmed names of
    the page's steps, in their order, without the empty ones; it is
    numbered 1..N by position; every identifier in it is truthy and is
    the step's own when that was truthy; and it is the same for any step
    list with the same identifiers and names, whatever its stored
    orders.  When the page's steps are named x, empty and y, the stored
    steps are x with order 1 and y with order 2. *)
Theorem save_canonicalization (w : Client) :
  loggedIn w -> callsSucceed 1 w ->
  exists saved g' w' doc,
    normalizeStepsForSave (steps (page w)) (ids w) = (inr saved, g') /\
    onSaveTemplate collationKey w = (inr tt, w') /\
    Map_get (templatesCol (store w')) (workTypeId (page w)) = Some doc /\
    td_steps doc = Some (persisted saved) /\
    List.map s_name saved =
      List.filter (fun n => 0 <? Z.of_nat (length n))
                  (List.map (fun s => trim (s_name s)) (steps (page w))) /\
    contiguous saved /\
    Forall2 id_coerced
      (List.filter (fun s => 0 <? Z.of_nat (length (trim (s_name s))))
                   (steps (page w)))
      saved /\
    (forall steps2,
        List.map s_id steps2 = List.map s_id (steps (page w)) ->
        List.map s_name steps2 = List.map s_name (steps (page w)) ->
        normalizeStepsForSave steps2 (ids w) = (inr saved, g')) /\
    (forall i1 i2 i3 o1 o2 o3,
        steps (page w) =
          [ mkStep i1 (js "x") o1; mkStep i2 [] o2; mkStep i3 (js "y") o3 ] ->
        exists j1 j3,
          td_steps doc =
            Some [ RawEntry (Some j1) (Some (js "x")) (Some (Finite 1));
                   RawEntry (Some j3) (Some (js "y")) (Some (Finite 2)) ]).
Proof.
  intros Hlogin Hcalls.
  destruct (proj1 normalizeStepsForSave_canonicalizes (steps (page w)) (ids w))
    as (saved & g' & Hs & Hnames & Hc & Hids & Hind).
  destruct (onSaveTemplate_persists w saved g' Hlogin Hcalls Hs)
    as (w' & doc & Hrun & Hdoc & Hsteps & _).
  exists saved, g', w', doc. repeat (split; [done|]).
  intros i1 i2 i3 o1 o2 o3 Hxy.
  destruct (proj2 normalizeStepsForSave_canonicalizes i1 i2 i3 o1 o2 o3 (ids w))
    as (j1 & j3 & g2 & Hex).
  rewrite Hxy, Hex in Hs. injection Hs as <- _.
  exists j1, j3. exact Hsteps.
Qed.

End SavePersists.

Lemma save_canonicalization_witness :
  loggedIn (client0 []) /\
  callsSucceed 1 (client0 []) /\
  exists w' doc,
    onSaveTemplate codeUnitKey (client0 []) = (inr tt, w') /\
    Map_get (templatesCol (store w')) (js "roof") = Some doc /\
    td_steps doc = Some (persisted stepsABC).
Proof.
  assert (loggedIn (client0 [])) as H1 by (do 2 eexists; reflexivity).
  assert (callsSucceed 1 (client0 [])) as H2 by constructor.
  split; [exact H1|]. split; [exact H2|].
  destruct (save_canonicalization codeUnitKey (client0 []) H1 H2)
    as (saved & g' & w' & doc & Hs & Hrun & Hdoc & Hsteps & _).
  exists w', doc. split; [exact Hrun|]. split; [exact Hdoc|].
  assert (saved = stepsABC) as <-
    by (vm_compute in Hs; by injection Hs as <- _).
  exact Hsteps.
Defined.
